(** * Lido council daemon: a shallow embedding of the guardian pipeline

    The development follows the TypeScript services of the daemon:
    - [StakingModuleGuard]: front-run detection and the state-change gate
      (staking-module-guard.service.ts);
    - [Guardian]: the per-tick pipeline and the keys-index consistency check
      (guardian.service.ts, staking-router.service.ts, keys-api.service.ts);
    - [WalletSvc]: the guardian wallet and the signed deposit message
      (wallet.service.ts);
    - [DepositRegistry]: the deposit-event cache (deposit-registry.service.ts);
    - [KeysValidation]: the BLS validation cache;
    - [OneAtTime]: the re-entrancy guard of the on-chain pause;
    - [PauseGuard]: the pause of the staking modules
      (staking-module-guard.service.ts);
    - [KeysApi]: the client of the keys-index and its cache
      (keys-api.service.ts);
    - [StakingRouter]: the data of the staking modules
      (staking-router.service.ts);
    - [GuardianInit]: the start of the guardian (guardian.service.ts).

    Logger calls are kept where a property speaks of them and left out
    elsewhere; metrics and timing are left out.

    JavaScript numbers that hold block numbers, log indices and counters are
    integers and are modelled by [Z]; hex strings are [string]; a thrown
    exception is the [Throw] constructor of [result]; mutable service fields
    and calls to collaborators are threaded through a small state monad. *)

From stdpp Require Import base decidable option list gmap strings fin_maps.
From Stdlib Require Import ZArith Lia.
From Stdlib.Strings Require Byte.

Local Open Scope string_scope.
Local Open Scope list_scope.
Local Open Scope Z_scope.

(** ** Exceptions and the state monad *)

Inductive Error : Type :=
  | InconsistentLastChangedBlockHash
  | ExpectedEventNotFound
  | AbiEncodeError
  | InvalidPrivateKey
  | ExternalError (what : string).

Inductive result (A : Type) : Type :=
  | Ok (a : A)
  | Throw (e : Error).
Arguments Ok {A} a.
Arguments Throw {A} e.

Definition result_bind {A B} (r : result A) (f : A → result B) : result B :=
  match r with
  | Ok a => f a
  | Throw e => Throw e
  end.

(** A computation over the mutable state [S] of a service.  State changes made
    before an exception is thrown stay in place, as they do in JavaScript. *)
Definition M (S A : Type) : Type := S → result A * S.

Definition ret {S A} (a : A) : M S A := λ s, (Ok a, s).
Definition throw {S A} (e : Error) : M S A := λ s, (Throw e, s).
Definition bind {S A B} (m : M S A) (f : A → M S B) : M S B :=
  λ s, match m s with
       | (Ok a, s') => f a s'
       | (Throw e, s') => (Throw e, s')
       end.
Definition get {S} : M S S := λ s, (Ok s, s).
Definition modify {S} (f : S → S) : M S unit := λ s, (Ok tt, f s).
Definition lift {S A} (r : result A) : M S A := λ s, (r, s).

Notation "'let*' x ':=' m 'in' k" := (bind m (λ x, k))
  (at level 10, x name, m at level 100, k at level 200, only parsing).
Notation "'let*' ' p ':=' m 'in' k" := (bind m (λ x, match x with p => k end))
  (at level 10, p pattern, m at level 100, k at level 200, only parsing).
Notation "'do*' m 'in' k" := (bind m (λ _, k))
  (at level 10, m at level 100, k at level 200, only parsing).

(** ** Data model *)

Record VerifiedDepositEvent : Type := {
  pubkey : string;
  wc : string;
  amount : string;
  signature : string;
  tx : string;
  blockNumber : Z;
  blockHash : string;
  logIndex : Z;
  depositCount : Z;
  valid : bool;
}.

Record VerifiedDepositedEventGroup : Type := {
  events : list VerifiedDepositEvent;
  startBlock : Z;
  endBlock : Z;
  isValid : option bool;
}.

Record RegistryKey : Type := {
  key : string;
  depositSignature : string;
  operatorIndex : Z;
  used : bool;
  index : Z;
  moduleAddress : string;
}.

Record ELBlockSnapshot : Type := {
  elBlockNumber : Z;
  elBlockHash : string;
  lastChangedBlockHash : string;
}.

Record KeyListResponse : Type := {
  data : list RegistryKey;
  meta : ELBlockSnapshot;
}.

Record BlockData : Type := {
  bdBlockNumber : Z;
  bdBlockHash : string;
  depositRoot : string;
  depositedEvents : VerifiedDepositedEventGroup;
  guardianAddress : string;
  guardianIndex : Z;
  lidoWC : string;
}.

Record StakingModuleData : Type := {
  smBlockHash : string;
  unusedKeys : list string;
  vettedUnusedKeys : list RegistryKey;
  nonce : Z;
  stakingModuleId : Z;
  smLastChangedBlockHash : string;
}.

Record ContractsState : Type := {
  csDepositRoot : string;
  csNonce : Z;
  csBlockNumber : Z;
  csLastChangedBlockHash : string;
}.

Record Signature : Type := {
  sigR : string;
  sigS : string;
  sigV : Z;
}.

Record DepositMessage : Type := {
  dmDepositRoot : string;
  dmNonce : Z;
  dmBlockNumber : Z;
  dmBlockHash : string;
  dmGuardianAddress : string;
  dmGuardianIndex : Z;
  dmSignature : Signature;
  dmStakingModuleId : Z;
}.

Record PauseMessage : Type := {
  pmDepositRoot : string;
  pmNonce : Z;
  pmGuardianAddress : string;
  pmGuardianIndex : Z;
  pmBlockNumber : Z;
  pmBlockHash : string;
  pmSignature : Signature;
  pmStakingModuleId : Z;
}.

(** What a service does to the outside world: lines written to the logger,
    requests to the signer, messages handed to the message bus and
    transactions sent to the Deposit Security Module. *)
Inductive LogLevel : Type := LevelLog | LevelWarn | LevelError | LevelDebug.

Inductive LogPayload : Type :=
  | Text (message : string)
  | Thrown (e : Error).

Inductive Effect : Type :=
  | Logged (level : LogLevel) (what : LogPayload)
  | SignDepositDataCall (root : string) (keysOpIndex blockNum : Z)
      (hash : string) (moduleId : Z)
  | SendDepositMessageCall (m : DepositMessage)
  | SendPauseMessageCall (m : PauseMessage)
  | PauseDepositsCall (blockNum moduleId : Z) (sig : Signature).

Definition isLogged (e : Effect) : bool :=
  match e with
  | Logged _ _ => true
  | _ => false
  end.

(** The deposit and pause messages among the effects. *)
Definition isMessage (e : Effect) : bool :=
  match e with
  | SendDepositMessageCall _ | SendPauseMessageCall _ => true
  | _ => false
  end.

(** The mutable fields of [StakingModuleGuardService] and [GuardianService],
    with the trace of the effects performed so far, oldest first. *)
Record GuardState : Type := {
  lastContractsStateByModuleId : gmap Z ContractsState;
  trace : list Effect;
}.

Definition emit (e : Effect) : M GuardState unit :=
  modify (λ st, {| lastContractsStateByModuleId := lastContractsStateByModuleId st;
                   trace := trace st ++ [e] |}).

Definition logger (level : LogLevel) (message : string) : M GuardState unit :=
  emit (Logged level (Text message)).

(** [try { body } catch (error) { handler(error) }] *)
Definition tryCatch {S A} (body : M S A) (handler : Error → M S A) : M S A :=
  λ s, match body s with
       | (Ok a, s') => (Ok a, s')
       | (Throw e, s') => handler e s'
       end.

(** [try { body } finally { cleanup }] *)
Definition tryFinally {S A} (body : M S A) (cleanup : M S unit) : M S A :=
  λ s, match body s with
       | (r, s') =>
           match cleanup s' with
           | (Ok _, s'') => (r, s'')
           | (Throw e, s'') => (Throw e, s'')
           end
       end.

#[global] Instance VerifiedDepositEvent_eq_dec : EqDecision VerifiedDepositEvent.
Proof. solve_decision. Defined.
#[global] Instance RegistryKey_eq_dec : EqDecision RegistryKey.
Proof. solve_decision. Defined.
#[global] Instance ContractsState_eq_dec : EqDecision ContractsState.
Proof. solve_decision. Defined.

(** ** Front-run detection (staking-module-guard.service.ts) *)

Module StakingModuleGuard.

(** [isFirstEventEarlier]: events of one block are ordered by [logIndex],
    events of different blocks by [blockNumber]. *)
Definition isFirstEventEarlier (firstEvent secondEvent : VerifiedDepositEvent) : bool :=
  let isSameBlock := bool_decide (blockNumber firstEvent = blockNumber secondEvent) in
  if isSameBlock
  then bool_decide (logIndex firstEvent < logIndex secondEvent)
  else bool_decide (blockNumber firstEvent < blockNumber secondEvent).

(** The body of the [forEach] that fills [potentialLidoDepositsKeysMap]: an
    entry is kept when it is strictly earlier than the incoming event and is
    overwritten otherwise.  Public keys are hex strings, so the object used
    as a dictionary is a finite map from strings. *)
Definition recordLidoDeposit (m : gmap string VerifiedDepositEvent)
    (event : VerifiedDepositEvent) : gmap string VerifiedDepositEvent :=
  match m !! pubkey event with
  | Some existed =>
      if isFirstEventEarlier existed event then m
      else <[pubkey event := event]> m
  | None => <[pubkey event := event]> m
  end.

Definition potentialLidoDepositsEvents (evs : list VerifiedDepositEvent)
    (lido : string) : list VerifiedDepositEvent :=
  filter (λ e, wc e = lido ∧ valid e = true) evs.

Definition potentialLidoDepositsKeysMap (evs : list VerifiedDepositEvent)
    (lido : string) : gmap string VerifiedDepositEvent :=
  foldl recordLidoDeposit ∅ (potentialLidoDepositsEvents evs lido).

Definition duplicatedDepositEvents (evs : list VerifiedDepositEvent)
    (lido : string) : list VerifiedDepositEvent :=
  let m := potentialLidoDepositsKeysMap evs lido in
  filter (λ e, is_Some (m !! pubkey e) ∧ wc e ≠ lido) evs.

Definition validDuplicatedDepositEvents (evs : list VerifiedDepositEvent)
    (lido : string) : list VerifiedDepositEvent :=
  filter (λ e, valid e = true) (duplicatedDepositEvents evs lido).

(** [Array.prototype.filter] with a callback that may throw. *)
Fixpoint filterE {A} (p : A → result bool) (l : list A) : result (list A) :=
  match l with
  | [] => Ok []
  | x :: l' =>
      result_bind (p x) (λ b,
      result_bind (filterE p l') (λ r,
      Ok (if b then x :: r else r)))
  end.

Definition frontRunnedDepositEvents (evs : list VerifiedDepositEvent)
    (lido : string) : result (list VerifiedDepositEvent) :=
  let m := potentialLidoDepositsKeysMap evs lido in
  filterE (λ suspectedEvent,
             match m !! pubkey suspectedEvent with
             | None => Throw ExpectedEventNotFound
             | Some sameKeyLidoDeposit =>
                 Ok (isFirstEventEarlier suspectedEvent sameKeyLidoDeposit)
             end)
          (validDuplicatedDepositEvents evs lido).

Section HistoricalFrontRun.
(** The answer of the keys-index to [POST /v1/keys/find]; a failed request
    throws.  The state of the computation is the list of request bodies sent
    so far, oldest first. *)
Variable keysFind : list string → result KeyListResponse.

Definition getKeysByPubkeys (pubkeys : list string) : M (list (list string)) KeyListResponse :=
  do* modify (λ sent, sent ++ [pubkeys]) in
  lift (keysFind pubkeys).

Definition getHistoricalFrontRun (blockData : BlockData) : M (list (list string)) bool :=
  let evs := events (depositedEvents blockData) in
  let* frontRunned := lift (frontRunnedDepositEvents evs (lidoWC blockData)) in
  let frontRunnedDepositKeys := pubkey <$> frontRunned in
  if bool_decide (length frontRunnedDepositKeys = 0%nat) then ret false
  else
    let* lidoDepositedKeys := getKeysByPubkeys frontRunnedDepositKeys in
    let isLidoDepositedKeys := length (data lidoDepositedKeys) in
    ret (negb (bool_decide (isLidoDepositedKeys = 0%nat))).
End HistoricalFrontRun.

(** ** Front-run attempts against the vetted unused keys *)

Definition getKeysIntersections (stakingModuleData : StakingModuleData)
    (blockData : BlockData) : list VerifiedDepositEvent :=
  let vettedUnusedKeysSet : gset string :=
    list_to_set (key <$> vettedUnusedKeys stakingModuleData) in
  filter (λ e, pubkey e ∈ vettedUnusedKeysSet) (events (depositedEvents blockData)).

Definition excludeEligibleIntersections (blockData : BlockData)
    (intersections : list VerifiedDepositEvent) : list VerifiedDepositEvent :=
  filter (λ e, wc e ≠ lidoWC blockData ∧ valid e = true) intersections.

Definition getFrontRunAttempts (stakingModuleData : StakingModuleData)
    (blockData : BlockData) : list RegistryKey :=
  let keysIntersections := getKeysIntersections stakingModuleData blockData in
  let frontRunAttempts := excludeEligibleIntersections blockData keysIntersections in
  let keys : gset string := list_to_set (pubkey <$> frontRunAttempts) in
  filter (λ k, key k ∈ keys) (vettedUnusedKeys stakingModuleData).

(** ** The state-change gate of the deposit message *)

Section StateChangeGate.
(** The re-signing window, in blocks (guardian.constants.ts); a positive
    block count.  For block numbers, which are below 2^53,
    [Math.floor(n / window)] is the integer quotient rounded down. *)
Variable GUARDIAN_DEPOSIT_RESIGNING_BLOCKS : Z.

(** [securityService.signDepositData] and
    [guardianMessageService.sendDepositMessage]: what they return to the
    caller, or that they throw. *)
Variable signDepositData : string → Z → Z → string → Z → result Signature.
Variable sendDepositMessage : DepositMessage → result unit.

Definition isSameContractsStates (firstState secondState : option ContractsState) : bool :=
  match firstState, secondState with
  | Some f, Some s =>
      if negb (bool_decide (csDepositRoot f = csDepositRoot s)) then false
      else if negb (bool_decide (csLastChangedBlockHash f = csLastChangedBlockHash s))
      then false
      else if negb (bool_decide
                      (csBlockNumber f / GUARDIAN_DEPOSIT_RESIGNING_BLOCKS =
                       csBlockNumber s / GUARDIAN_DEPOSIT_RESIGNING_BLOCKS))
      then false
      else true
  | _, _ => false
  end.

Definition currentContractState (stakingModuleData : StakingModuleData)
    (blockData : BlockData) : ContractsState :=
  {| csNonce := nonce stakingModuleData;
     csDepositRoot := depositRoot blockData;
     csBlockNumber := bdBlockNumber blockData;
     csLastChangedBlockHash := smLastChangedBlockHash stakingModuleData |}.

Definition depositMessage (stakingModuleData : StakingModuleData)
    (blockData : BlockData) (sig : Signature) : DepositMessage :=
  {| dmDepositRoot := depositRoot blockData;
     dmNonce := nonce stakingModuleData;
     dmBlockNumber := bdBlockNumber blockData;
     dmBlockHash := bdBlockHash blockData;
     dmGuardianAddress := guardianAddress blockData;
     dmGuardianIndex := guardianIndex blockData;
     dmSignature := sig;
     dmStakingModuleId := stakingModuleId stakingModuleData |}.

Definition handleCorrectKeys (stakingModuleData : StakingModuleData)
    (blockData : BlockData) : M GuardState unit :=
  let current := currentContractState stakingModuleData blockData in
  let* st := get in
  let lastContractsState :=
    lastContractsStateByModuleId st !! stakingModuleId stakingModuleData in
  let isSameContractsState :=
    isSameContractsStates (Some current) lastContractsState in
  do* modify (λ st, {| lastContractsStateByModuleId :=
                         <[stakingModuleId stakingModuleData := current]>
                           (lastContractsStateByModuleId st);
                       trace := trace st |}) in
  if isSameContractsState then
    logger LevelLog "Contract states didn't change"
  else
    do* emit (SignDepositDataCall (depositRoot blockData) (nonce stakingModuleData)
                (bdBlockNumber blockData) (bdBlockHash blockData)
                (stakingModuleId stakingModuleData)) in
    let* signature := lift (signDepositData (depositRoot blockData)
                              (nonce stakingModuleData) (bdBlockNumber blockData)
                              (bdBlockHash blockData)
                              (stakingModuleId stakingModuleData)) in
    do* logger LevelLog "No problems found" in
    do* emit (SendDepositMessageCall
                (depositMessage stakingModuleData blockData signature)) in
    lift (sendDepositMessage (depositMessage stakingModuleData blockData signature)).
End StateChangeGate.

End StakingModuleGuard.

(** ** The historical front-run condition, as a predicate on events *)

Module FrontRunSpec.

(** [earlier e1 e2]: smaller block number, or the same block and a smaller
    log index. *)
Definition earlier (e1 e2 : VerifiedDepositEvent) : Prop :=
  blockNumber e1 < blockNumber e2 ∨
  (blockNumber e1 = blockNumber e2 ∧ logIndex e1 < logIndex e2).

(** A valid deposit with the Lido withdrawal credentials for public key [pk]. *)
Definition lidoDepositOf (lido pk : string) (L : VerifiedDepositEvent) : Prop :=
  pubkey L = pk ∧ wc L = lido ∧ valid L = true.

(** [L] is an earliest valid Lido deposit of [pk] among [evs]. *)
Definition earliestLidoDeposit (evs : list VerifiedDepositEvent) (lido pk : string)
    (L : VerifiedDepositEvent) : Prop :=
  lidoDepositOf lido pk L ∧
  Forall (λ L', lidoDepositOf lido pk L' → ¬ earlier L' L) evs.

(** [E] carries a foreign withdrawal credential and precedes the earliest
    valid Lido deposit of its public key.  Nothing is asked of [valid E]. *)
Definition precedesLidoDeposit (evs : list VerifiedDepositEvent) (lido : string)
    (E : VerifiedDepositEvent) : Prop :=
  wc E ≠ lido ∧
  Exists (λ L, earliestLidoDeposit evs lido (pubkey E) L ∧ earlier E L) evs.

(** The condition the service implements: [E] is moreover a valid deposit. *)
Definition frontRuns (evs : list VerifiedDepositEvent) (lido : string)
    (E : VerifiedDepositEvent) : Prop :=
  valid E = true ∧ precedesLidoDeposit evs lido E.

#[global] Instance earlier_dec e1 e2 : Decision (earlier e1 e2).
Proof. unfold earlier. apply _. Defined.
#[global] Instance lidoDepositOf_dec lido pk L : Decision (lidoDepositOf lido pk L).
Proof. unfold lidoDepositOf. apply _. Defined.
#[global] Instance earliestLidoDeposit_dec evs lido pk L :
  Decision (earliestLidoDeposit evs lido pk L).
Proof. unfold earliestLidoDeposit. apply _. Defined.
#[global] Instance precedesLidoDeposit_dec evs lido E :
  Decision (precedesLidoDeposit evs lido E).
Proof. unfold precedesLidoDeposit. apply _. Defined.
#[global] Instance frontRuns_dec evs lido E : Decision (frontRuns evs lido E).
Proof. unfold frontRuns. apply _. Defined.

(** The key list sent to the keys-index, spelled from the predicate. *)
Definition flaggedPubkeys (P : VerifiedDepositEvent → Prop) `{∀ e, Decision (P e)}
    (evs : list VerifiedDepositEvent) : list string :=
  pubkey <$> filter P evs.

(** What the dictionary of Lido deposits holds once the events of [l] were
    recorded: per public key, an event of [l] that no other event of [l] with
    that key precedes. *)
Definition lidoMapInv (m : gmap string VerifiedDepositEvent)
    (l : list VerifiedDepositEvent) : Prop :=
  ∀ pk, match m !! pk with
        | None => ∀ e, e ∈ l → pubkey e ≠ pk
        | Some L => L ∈ l ∧ pubkey L = pk ∧
                    ∀ e, e ∈ l → pubkey e = pk → ¬ earlier e L
        end.

(** A deposit that makes registry key [k] a front-run attempt. *)
Definition attemptOn (lido : string) (k : RegistryKey) (e : VerifiedDepositEvent) : Prop :=
  pubkey e = key k ∧ wc e ≠ lido ∧ valid e = true.

#[global] Instance attemptOn_dec lido k e : Decision (attemptOn lido k e).
Proof. unfold attemptOn. apply _. Defined.

Definition withEvents (bd : BlockData) (evs : list VerifiedDepositEvent) : BlockData :=
  {| bdBlockNumber := bdBlockNumber bd; bdBlockHash := bdBlockHash bd;
     depositRoot := depositRoot bd;
     depositedEvents :=
       {| events := evs; startBlock := startBlock (depositedEvents bd);
          endBlock := endBlock (depositedEvents bd);
          isValid := isValid (depositedEvents bd) |};
     guardianAddress := guardianAddress bd; guardianIndex := guardianIndex bd;
     lidoWC := lidoWC bd |}.

End FrontRunSpec.

(** ** The guardian tick (guardian.service.ts) *)

Module Guardian.

Definition inconsistencyMessage : string :=
  "Since the last request, data in Kapi has been updated. This may result in inconsistencies between the data from two separate requests.".

(** [StakingRouterService.isEqualLastChangedBlockHash] *)
Definition isEqualLastChangedBlockHash (firstRequestHash secondRequestHash : string)
    : M GuardState unit :=
  if negb (bool_decide (firstRequestHash = secondRequestHash)) then
    do* logger LevelError inconsistencyMessage in
    throw InconsistentLastChangedBlockHash
  else ret tt.

(** [KeysApiService.verifyMetaDataConsistency], the same check on the side of
    the keys-index client. *)
Definition verifyMetaDataConsistency (firstRequestHash secondRequestHash : string)
    : M GuardState unit :=
  if negb (bool_decide (firstRequestHash = secondRequestHash)) then
    do* logger LevelError inconsistencyMessage in
    throw InconsistentLastChangedBlockHash
  else ret tt.

Section Tick.
(** The operators grouped by staking module, as the keys-index sends them. *)
Variable OperatorsByModules : Type.

(** What the tick reads before the consistency check: the two responses of
    the keys-index, the initialisation of the cached contracts at the block
    of the snapshot, and the verdict of the block guard.  These are reads;
    none of them publishes a message. *)
Variable getOperatorListWithModule : result (OperatorsByModules * ELBlockSnapshot).
Variable initCachedContracts : string → result unit.
Variable isNeedToProcessNewState : string → Z → bool.
Variable getKeys : result KeyListResponse.

(** The steps of the tick that follow the check, from
    [depositService.handleNewBlock] to [setLastProcessedStateMeta]: update
    of the deposit cache, block data, pause, unvetting and deposit messages
    for every module, ping.  Any effect is possible there. *)
Variable processNewState :
  OperatorsByModules → ELBlockSnapshot → list RegistryKey → M GuardState unit.

Definition onError (error : Error) : M GuardState unit :=
  do* logger LevelError "Staking router state update error" in
  emit (Logged LevelError (Thrown error)).

Definition handleNewBlock : M GuardState unit :=
  do* logger LevelLog "New staking router state cycle start" in
  tryFinally
    (tryCatch
       (let* '(operatorsByModules, operatorsMeta) :=
          lift getOperatorListWithModule in
        let blockHash := elBlockHash operatorsMeta in
        let blockNumber := elBlockNumber operatorsMeta in
        do* lift (initCachedContracts blockHash) in
        if negb (isNeedToProcessNewState blockHash blockNumber) then
          logger LevelDebug "The block has not changed since the last cycle. Exit"
        else
          do* logger LevelLog "Staking modules loaded" in
          let* keysResponse := lift getKeys in
          let lidoKeys := data keysResponse in
          let currMeta := meta keysResponse in
          do* isEqualLastChangedBlockHash (lastChangedBlockHash operatorsMeta)
                (lastChangedBlockHash currMeta) in
          processNewState operatorsByModules operatorsMeta lidoKeys)
       onError)
    (logger LevelLog "New staking router state cycle end").
End Tick.

End Guardian.

(** ** The guardian wallet (wallet.service.ts) *)

Module WalletSvc.

(** *** ABI encoding of static arguments

    [defaultAbiCoder.encode(types, values)] for the two static types the
    deposit message uses.  A hex string is given by the bytes it denotes. *)
Inductive AbiArg : Type :=
  | bytes32 (value : list Byte.byte)
  | uint256 (value : Z).

Definition byteOfZ (z : Z) : Byte.byte :=
  default Byte.x00 (Byte.of_N (Z.to_N (z mod 256))).

(** The [len] low-order bytes of [n], most significant first. *)
Fixpoint bigEndian (len : nat) (n : Z) : list Byte.byte :=
  match len with
  | O => []
  | S len' => bigEndian len' (n / 256) ++ [byteOfZ n]
  end.

(** A JavaScript number is turned into a [BigNumber] first, which rejects
    what lies outside the safe integers; the coder then rejects negatives. *)
Definition MAX_SAFE : Z := 2 ^ 53 - 1.

Definition encodeArg (a : AbiArg) : result (list Byte.byte) :=
  match a with
  | bytes32 value =>
      if bool_decide (length value = 32%nat) then Ok value else Throw AbiEncodeError
  | uint256 value =>
      if bool_decide (0 ≤ value < MAX_SAFE) then Ok (bigEndian 32 value)
      else Throw AbiEncodeError
  end.

Fixpoint abiEncode (args : list AbiArg) : result (list Byte.byte) :=
  match args with
  | [] => Ok []
  | a :: rest =>
      result_bind (encodeArg a) (λ word,
      result_bind (abiEncode rest) (λ tail, Ok (word ++ tail)))
  end.

(** *** The service *)

Record Wallet : Type := {
  walletId : nat;            (* identity of the object made by [new Wallet] *)
  walletKey : string;
  walletAddress : string;
}.

Record WalletState : Type := {
  privateKey : string;
  cachedWallet : option Wallet;
  allocated : nat;           (* [Wallet] objects constructed so far *)
  drawn : nat;               (* random wallets drawn so far *)
  warnings : list string;
}.

Record SignDepositDataParams : Type := {
  prefix : list Byte.byte;
  spBlockNumber : Z;
  spBlockHash : list Byte.byte;
  spDepositRoot : list Byte.byte;
  keysOpIndex : Z;
  spStakingModuleId : Z;
}.

Section Service.
(** The primitives of the ethers library: the hash, the ECDSA signature of
    a digest under a private key, the address of a private key ([None] when
    the string is not a private key and [new Wallet] throws), and the
    private key of the [n]-th wallet that [Wallet.createRandom] makes. *)
Variable keccak256 : list Byte.byte → list Byte.byte.
Variable signDigest : string → list Byte.byte → Signature.
Variable computeAddress : string → option string.
Variable createRandom : nat → string.

Definition newWallet (key : string) : M WalletState Wallet :=
  match computeAddress key with
  | None => throw InvalidPrivateKey
  | Some address =>
      let* st := get in
      let w := {| walletId := allocated st; walletKey := key;
                  walletAddress := address |} in
      do* modify (λ st, {| privateKey := privateKey st;
                           cachedWallet := cachedWallet st;
                           allocated := S (allocated st);
                           drawn := drawn st;
                           warnings := warnings st |}) in
      ret w
  end.

(** The getter [wallet]. *)
Definition wallet : M WalletState Wallet :=
  let* st := get in
  match cachedWallet st with
  | Some w => ret w
  | None =>
      do* (if bool_decide (privateKey st = "") then
             modify (λ st,
               {| privateKey := createRandom (drawn st);
                  cachedWallet := cachedWallet st;
                  allocated := allocated st;
                  drawn := S (drawn st);
                  warnings := warnings st ++
                    ["Private key is not provided, a random address will be generated for the test run"] |})
           else ret tt) in
      let* st := get in
      let* w := newWallet (privateKey st) in
      do* modify (λ st, {| privateKey := privateKey st;
                           cachedWallet := Some w;
                           allocated := allocated st;
                           drawn := drawn st;
                           warnings := warnings st |}) in
      ret w
  end.

(** The getter [address]. *)
Definition address : M WalletState string :=
  let* w := wallet in ret (walletAddress w).

Definition signMessage (message : list Byte.byte) : M WalletState Signature :=
  let* w := wallet in ret (signDigest (walletKey w) message).

Definition signDepositData (p : SignDepositDataParams) : M WalletState Signature :=
  let* encodedData :=
    lift (abiEncode [bytes32 (prefix p); uint256 (spBlockNumber p);
                     bytes32 (spBlockHash p); bytes32 (spDepositRoot p);
                     uint256 (spStakingModuleId p); uint256 (keysOpIndex p)]) in
  let messageHash := keccak256 encodedData in
  signMessage messageHash.

Definition signPauseDataV3 (prefix : list Byte.byte) (blockNumber : Z)
    : M WalletState Signature :=
  let* encodedData := lift (abiEncode [bytes32 prefix; uint256 blockNumber]) in
  signMessage (keccak256 encodedData).

Definition signPauseDataV2 (prefix : list Byte.byte) (blockNumber stakingModuleId : Z)
    : M WalletState Signature :=
  let* encodedData :=
    lift (abiEncode [bytes32 prefix; uint256 blockNumber; uint256 stakingModuleId]) in
  signMessage (keccak256 encodedData).
End Service.

End WalletSvc.

(** ** The deposit message, as the contract decodes it *)

Module WalletSpec.
Import WalletSvc.

(** Every [bytes32] field has 32 bytes and every [uint256] field is a
    non-negative safe integer. *)
Definition wellFormed (p : SignDepositDataParams) : Prop :=
  length (prefix p) = 32%nat ∧ length (spBlockHash p) = 32%nat ∧
  length (spDepositRoot p) = 32%nat ∧
  0 ≤ spBlockNumber p < MAX_SAFE ∧ 0 ≤ spStakingModuleId p < MAX_SAFE ∧
  0 ≤ keysOpIndex p < MAX_SAFE.

(** [abi.encode(bytes32 prefix, uint256 blockNumber, bytes32 blockHash,
    bytes32 depositRoot, uint256 stakingModuleId, uint256 keysOpIndex)]:
    six words of 32 bytes, in this order. *)
Definition depositMessageBytes (p : SignDepositDataParams) : list Byte.byte :=
  prefix p ++ bigEndian 32 (spBlockNumber p) ++ spBlockHash p ++
  spDepositRoot p ++ bigEndian 32 (spStakingModuleId p) ++
  bigEndian 32 (keysOpIndex p).

#[global] Instance wellFormed_dec p : Decision (wellFormed p).
Proof. unfold wellFormed. apply _. Defined.

End WalletSpec.

(** ** The deposit-event cache (deposit-registry.service.ts) *)

Module DepositRegistry.

Definition DEPOSIT_EVENTS_STEP : Z := 10000.

Record VerifiedDepositEventsCacheHeaders : Type := {
  hStartBlock : Z;
  hEndBlock : Z;
}.

Record VerifiedDepositEventsCache : Type := {
  headers : VerifiedDepositEventsCacheHeaders;
  cacheData : list VerifiedDepositEvent;
  lastValidEvent : option VerifiedDepositEvent;
}.

(** Writes to the persistent store, in the order they were made. *)
Inductive StoreWrite : Type :=
  | InsertEventsCacheBatch (h : VerifiedDepositEventsCacheHeaders)
      (batch : list VerifiedDepositEvent)
  | InsertLastValidEvent (event : VerifiedDepositEvent).


(** The blocks at which the body of
    [for (block = first; block <= last; block += DEPOSIT_EVENTS_STEP)] runs:
    [first], [first + STEP], ... as long as the block is at most [last]. *)
Definition chunkCount (first last : Z) : nat :=
  if bool_decide (first ≤ last)
  then Z.to_nat ((last - first) / DEPOSIT_EVENTS_STEP + 1)
  else O.

Fixpoint forChunks {S A} (count : nat) (block : Z) (body : Z → A → M S A) (acc : A)
    : M S A :=
  match count with
  | O => ret acc
  | S count' =>
      let* acc' := body block acc in
      forChunks count' (block + DEPOSIT_EVENTS_STEP) body acc'
  end.

Section Service.
(** The Merkle accumulator of the integrity checker: its state, the
    insertion of the leaves of a list of events (which rejects malformed
    events) and its root. *)
Variable Tree : Type.
Variable insertLeaves : Tree → list VerifiedDepositEvent → result Tree.
Variable treeRoot : Tree → string.

(** The execution-layer node and the event fetcher. *)
Variable finalizedTag : string.
Variable getBlock : string → result (Z * string).
Variable get_deposit_root : string → result string.
Variable getDeploymentBlockByNetwork : result Z.
Variable fetchEventsFallOver : Z → Z → result VerifiedDepositedEventGroup.

Record RegistryState : Type := {
  store : VerifiedDepositEventsCache;
  writes : list StoreWrite;
  tree : Tree;
  fetches : list (Z * Z);
  logs : list (LogLevel * string);
}.

Definition log (level : LogLevel) (message : string) : M RegistryState unit :=
  modify (λ st, {| store := store st; writes := writes st; tree := tree st;
                   fetches := fetches st;
                   logs := logs st ++ [(level, message)] |}).

(** Modelled from the spec: [store.getEventsCache] of section 4.2 (the store
    service is not among the sources); it returns the headers, the stored
    events and the last valid event. *)
Definition getEventsCache : M RegistryState VerifiedDepositEventsCache :=
  let* st := get in ret (store st).

(** Modelled from the spec: [store.insertEventsCacheBatch] of section 4.2;
    the header is replaced and the entries of the batch are added to the
    stored events, the last valid event has an entry of its own. *)
Definition insertEventsCacheBatch (h : VerifiedDepositEventsCacheHeaders)
    (batch : list VerifiedDepositEvent) : M RegistryState unit :=
  modify (λ st,
    {| store := {| headers := h;
                   cacheData := cacheData (store st) ++ batch;
                   lastValidEvent := lastValidEvent (store st) |};
       writes := writes st ++ [InsertEventsCacheBatch h batch];
       tree := tree st; fetches := fetches st; logs := logs st |}).

(** Modelled from the spec: [store.insertLastValidEvent] of section 4.2. *)
Definition insertLastValidEvent (event : VerifiedDepositEvent) : M RegistryState unit :=
  modify (λ st,
    {| store := {| headers := headers (store st);
                   cacheData := cacheData (store st);
                   lastValidEvent := Some event |};
       writes := writes st ++ [InsertLastValidEvent event];
       tree := tree st; fetches := fetches st; logs := logs st |}).

(** Modelled from the spec: [sanityChecker.verifyCacheBlock] of section 4.4
    (the sanity checker is not among the sources); [false] when the cache
    ends after the current block. *)
Definition verifyCacheBlock (cache : VerifiedDepositEventsCache) (currentBlock : Z)
    : bool :=
  negb (bool_decide (hEndBlock (headers cache) > currentBlock)).

(** Modelled from the spec: [sanityChecker.addEventGroupToIndex] of section
    4.4; the leaves of the events are inserted into the tree. *)
Definition addEventGroupToIndex (fromBlock toBlock : Z)
    (evs : list VerifiedDepositEvent) : M RegistryState unit :=
  let* st := get in
  let* tree' := lift (insertLeaves (tree st) evs) in
  modify (λ st, {| store := store st; writes := writes st; tree := tree';
                   fetches := fetches st; logs := logs st |}).

(** Modelled from the spec: [sanityChecker.verifyUpdatedEvents] of section
    4.4; [get_deposit_root] at the finalized block hash is compared with the
    root of the tree. *)
Definition verifyUpdatedEvents (finalizedBlockHash : string) : M RegistryState bool :=
  let* st := get in
  let* contractRoot := lift (get_deposit_root finalizedBlockHash) in
  ret (bool_decide (treeRoot (tree st) = contractRoot)).

(** Modelled from the spec: [sanityChecker.verifyFreshEvents] of section
    4.4; the fresh events are applied to a clone of the tree, whose root is
    compared with the root of the contract at the latest block hash. *)
Definition verifyFreshEvents (latestBlockHash : string)
    (freshEvents : list VerifiedDepositEvent) : M RegistryState bool :=
  let* st := get in
  let* clone := lift (insertLeaves (tree st) freshEvents) in
  let* contractRoot := lift (get_deposit_root latestBlockHash) in
  ret (bool_decide (treeRoot clone = contractRoot)).

(** The fetcher, with the requested ranges recorded. *)
Definition fetch (fromBlock toBlock : Z) : M RegistryState VerifiedDepositedEventGroup :=
  do* modify (λ st, {| store := store st; writes := writes st; tree := tree st;
                       fetches := fetches st ++ [(fromBlock, toBlock)];
                       logs := logs st |}) in
  lift (fetchEventsFallOver fromBlock toBlock).

Definition getCachedEvents : M RegistryState VerifiedDepositEventsCache :=
  let* cache := getEventsCache in
  let* deploymentBlock := lift getDeploymentBlockByNetwork in
  ret {| headers :=
           {| hStartBlock := Z.max (hStartBlock (headers cache)) deploymentBlock;
              hEndBlock := Z.max (hEndBlock (headers cache)) deploymentBlock |};
         cacheData := cacheData cache;
         lastValidEvent := lastValidEvent cache |}.

(** The body of the loop of [updateEventsCache]; the accumulator is
    [(newEventsCount, lastIndexedEvent)]. *)
Definition indexChunk (initialCache : VerifiedDepositEventsCache)
    (finalizedBlockNumber : Z) (block : Z)
    (acc : Z * option VerifiedDepositEvent)
    : M RegistryState (Z * option VerifiedDepositEvent) :=
  let '(newEventsCount, lastIndexedEvent) := acc in
  let chunkStartBlock := block in
  let chunkToBlock := Z.min finalizedBlockNumber (block + DEPOSIT_EVENTS_STEP - 1) in
  let* chunkEventGroup := fetch chunkStartBlock chunkToBlock in
  do* addEventGroupToIndex chunkStartBlock chunkToBlock (events chunkEventGroup) in
  do* insertEventsCacheBatch
        {| hStartBlock := hStartBlock (headers initialCache);
           hEndBlock := endBlock chunkEventGroup |}
        (events chunkEventGroup) in
  let newEventsCount := newEventsCount + Z.of_nat (length (events chunkEventGroup)) in
  let lastEventFromGroup := last (events chunkEventGroup) in
  let lastIndexedEvent :=
    match lastEventFromGroup with
    | Some e => Some e
    | None => lastIndexedEvent
    end in
  do* log LevelLog "Historical events are fetched" in
  ret (newEventsCount, lastIndexedEvent).

Definition indexNewEvents (initialCache : VerifiedDepositEventsCache)
    (finalizedBlockNumber : Z) : M RegistryState (Z * option VerifiedDepositEvent) :=
  let firstNotCachedBlock := hEndBlock (headers initialCache) + 1 in
  forChunks (chunkCount firstNotCachedBlock finalizedBlockNumber)
    firstNotCachedBlock (indexChunk initialCache finalizedBlockNumber) (0, None).

Definition updateEventsCache : M RegistryState unit :=
  let* finalizedBlock := lift (getBlock finalizedTag) in
  let* initialCache := getCachedEvents in
  let '(finalizedBlockNumber, finalizedBlockHash) := finalizedBlock in
  let isCacheValid := verifyCacheBlock initialCache finalizedBlockNumber in
  if negb isCacheValid then ret tt
  else
    let* '(newEventsCount, lastIndexedEvent) :=
      indexNewEvents initialCache finalizedBlockNumber in
    let* isRootValid := verifyUpdatedEvents finalizedBlockHash in
    do* (if isRootValid then
           match lastIndexedEvent with
           | Some e => insertLastValidEvent e
           | None => ret tt
           end
         else ret tt) in
    do* (if negb isRootValid then log LevelError "Integrity check failed on block"
         else ret tt) in
    log LevelLog "Deposit events cache is updated".

(** A run of [updateEventsCache] from [st] that reaches the root
    comparison: the finalized block [(fnum, fhash)] and the cache were read,
    the cache passed the block check, the loop indexed [count] new events,
    the last of them [lastEv], and the comparison returned [isRootValid]. *)
Definition reachesRootCheck (st : RegistryState) (fnum : Z) (fhash : string)
    (cache : VerifiedDepositEventsCache) (count : Z)
    (lastEv : option VerifiedDepositEvent) (isRootValid : bool) : Prop :=
  getBlock finalizedTag = Ok (fnum, fhash) ∧
  fst (getCachedEvents st) = Ok cache ∧
  verifyCacheBlock cache fnum = true ∧
  fst (indexNewEvents cache fnum st) = Ok (count, lastEv) ∧
  fst (verifyUpdatedEvents fhash (snd (indexNewEvents cache fnum st)))
    = Ok isRootValid.

Definition getAllDepositedEvents (blockNumber : Z) (blockHash : string)
    : M RegistryState VerifiedDepositedEventGroup :=
  let endBlock := blockNumber in
  let* cachedEvents := getCachedEvents in
  let isCacheValid := verifyCacheBlock cachedEvents blockNumber in
  if negb isCacheValid then
    ret {| events := cacheData cachedEvents;
           startBlock := hStartBlock (headers cachedEvents);
           endBlock := hEndBlock (headers cachedEvents);
           isValid := Some false |}
  else
    let firstNotCachedBlock := hEndBlock (headers cachedEvents) + 1 in
    let* freshEventGroup := fetch firstNotCachedBlock endBlock in
    let freshEvents := events freshEventGroup in
    let* isValid := verifyFreshEvents blockHash freshEvents in
    do* (if negb isValid then log LevelWarn "Integrity check failed on block"
         else ret tt) in
    do* log LevelDebug "Fresh deposit events are fetched" in
    let mergedEvents := cacheData cachedEvents ++ freshEvents in
    ret {| events := mergedEvents;
           startBlock := hStartBlock (headers cachedEvents);
           endBlock := endBlock;
           isValid := Some isValid |}.
End Service.

Arguments store {Tree} _.
Arguments writes {Tree} _.
Arguments tree {Tree} _.
Arguments fetches {Tree} _.
Arguments logs {Tree} _.



End DepositRegistry.

(** ** The BLS validation cache (keys-validation.service.ts) *)

Module KeysValidation.

(** The cache entry of a public key: the deposit signature and the withdrawal
    credentials that were validated, and the verdict. *)
Record CacheEntry : Type := {
  ceSignature : string;
  ceWC : string;
  ceValid : bool;
}.

Record ValidationState : Type := {
  keysCache : gmap string CacheEntry;
  validateKeysCalls : list (list RegistryKey);   (* arguments of the verifier *)
}.

Section Service.
(** BLS verification of the deposit message of a public key, a signature
    and withdrawal credentials (the key-validation library). *)
Variable verify : string → string → string → bool.

(** Modelled from the spec: [keysValidator.validateKeys], the underlying
    verifier; one batch, one verdict per key. *)
Definition validateKeys (batch : list RegistryKey) (withdrawalCredentials : string)
    : M ValidationState (list (RegistryKey * bool)) :=
  do* modify (λ st, {| keysCache := keysCache st;
                       validateKeysCalls := validateKeysCalls st ++ [batch] |}) in
  ret ((λ k, (k, verify (key k) (depositSignature k) withdrawalCredentials))
         <$> batch).

(** Modelled from the spec: the cache lookup of section 4.6; the cached
    (depositSignature, wc) of the public key of [k] is the current pair. *)
Definition cacheHit (cache : gmap string CacheEntry) (withdrawalCredentials : string)
    (k : RegistryKey) : Prop :=
  ∃ entry, cache !! key k = Some entry ∧
           ceSignature entry = depositSignature k ∧
           ceWC entry = withdrawalCredentials.

#[global] Instance cacheHit_dec cache withdrawalCredentials k :
  Decision (cacheHit cache withdrawalCredentials k).
Proof.
  unfold cacheHit. destruct (cache !! key k) as [entry |].
  - destruct (decide (ceSignature entry = depositSignature k ∧
                      ceWC entry = withdrawalCredentials)) as [Hyes | Hno].
    + left. by exists entry.
    + right. intros (entry' & [= <-] & ?). by apply Hno.
  - right. by intros (entry' & [=] & _).
Defined.

(** Modelled from the spec: the cache update of section 4.6, keyed by
    public key. *)
Definition updateCache (validated : list (RegistryKey * bool))
    (withdrawalCredentials : string) : M ValidationState unit :=
  modify (λ st,
    {| keysCache :=
         foldl (λ cache '(k, verdict),
                  <[key k := {| ceSignature := depositSignature k;
                                ceWC := withdrawalCredentials;
                                ceValid := verdict |}]> cache)
               (keysCache st) validated;
       validateKeysCalls := validateKeysCalls st |}).

(** Modelled from the spec: the verdict on [k] of section 4.6, the cached
    one on a hit and a fresh one otherwise. *)
Definition verdictOf (cache : gmap string CacheEntry) (withdrawalCredentials : string)
    (k : RegistryKey) : bool :=
  match cache !! key k with
  | Some entry =>
      if bool_decide (ceSignature entry = depositSignature k ∧
                      ceWC entry = withdrawalCredentials)
      then ceValid entry
      else verify (key k) (depositSignature k) withdrawalCredentials
  | None => verify (key k) (depositSignature k) withdrawalCredentials
  end.

(** Modelled from the spec: [KeysValidationService.getInvalidKeys], whose
    source file is not among the sources (its test is).  Section 4.6: the
    cache is keyed by public key; if the cached (depositSignature, wc)
    equals the current pair the cached verdict is reused, else the key is
    validated again and the cache updated; [validateKeys] is called once,
    with the keys whose pair differs from the cache. *)
Definition getInvalidKeys (keys : list RegistryKey) (withdrawalCredentials : string)
    : M ValidationState (list RegistryKey) :=
  let* st := get in
  let cache := keysCache st in
  let keysNeedingValidation :=
    filter (λ k, ¬ cacheHit cache withdrawalCredentials k) keys in
  let* validatedKeys := validateKeys keysNeedingValidation withdrawalCredentials in
  do* updateCache validatedKeys withdrawalCredentials in
  ret (filter (λ k, verdictOf cache withdrawalCredentials k = false) keys).
End Service.

(** No two keys of the list carry one public key with different signatures. *)
Definition sameSignaturePerPubkey (keys : list RegistryKey) : Prop :=
  ∀ k1 k2, k1 ∈ keys → k2 ∈ keys → key k1 = key k2 →
           depositSignature k1 = depositSignature k2.

Definition withSignature (k : RegistryKey) (sig : string) : RegistryKey :=
  {| key := key k; depositSignature := sig; operatorIndex := operatorIndex k;
     used := used k; index := index k; moduleAddress := moduleAddress k |}.

(** After validation of [keys]: every key of the list hits the cache. *)
Definition cachesAll (cache : gmap string CacheEntry) (withdrawalCredentials : string)
    (keys : list RegistryKey) : Prop :=
  ∀ k, k ∈ keys → cacheHit cache withdrawalCredentials k.

End KeysValidation.

(** ** The re-entrancy guard of the on-chain pause ([@OneAtTime]) *)

Module OneAtTime.

(** The two overlapping invocations of the guarded method. *)
Inductive Invocation : Type := FirstCall | SecondCall.

(** Where an invocation of the guarded [pauseDeposits] is suspended.  The
    body asks for the contract with signer, calls the contract method, and
    waits for the transaction to be mined; every [await] hands control back
    to the event loop. *)
Inductive Phase : Type :=
  | AwaitContract     (* flag taken, contract with signer requested *)
  | AwaitSubmit       (* contract method called, transaction pending *)
  | AwaitMined.       (* [tx.wait()] called *)

Inductive Pc : Type :=
  | NotCalled
  | InFlight (phase : Phase)
  | Returned (ran : bool).   (* [false]: the guard returned at once *)

Record Sys : Type := {
  isExecuting : bool;        (* the flag of the decorated method *)
  pcFirst : Pc;
  pcSecond : Pc;
  signerRequests : nat;      (* calls of [getContractWithSigner] *)
  contractCalls : nat;       (* calls of [contract.pauseDeposits] *)
  waitCalls : nat;           (* calls of [tx.wait] *)
}.

Definition pcOf (i : Invocation) (s : Sys) : Pc :=
  match i with
  | FirstCall => pcFirst s
  | SecondCall => pcSecond s
  end.

Definition setPc (i : Invocation) (pc : Pc) (s : Sys) : Sys :=
  match i with
  | FirstCall =>
      {| isExecuting := isExecuting s; pcFirst := pc; pcSecond := pcSecond s;
         signerRequests := signerRequests s; contractCalls := contractCalls s;
         waitCalls := waitCalls s |}
  | SecondCall =>
      {| isExecuting := isExecuting s; pcFirst := pcFirst s; pcSecond := pc;
         signerRequests := signerRequests s; contractCalls := contractCalls s;
         waitCalls := waitCalls s |}
  end.

Definition setFlag (b : bool) (s : Sys) : Sys :=
  {| isExecuting := b; pcFirst := pcFirst s; pcSecond := pcSecond s;
     signerRequests := signerRequests s; contractCalls := contractCalls s;
     waitCalls := waitCalls s |}.

Definition requestSigner (s : Sys) : Sys :=
  {| isExecuting := isExecuting s; pcFirst := pcFirst s; pcSecond := pcSecond s;
     signerRequests := S (signerRequests s); contractCalls := contractCalls s;
     waitCalls := waitCalls s |}.

Definition callContract (s : Sys) : Sys :=
  {| isExecuting := isExecuting s; pcFirst := pcFirst s; pcSecond := pcSecond s;
     signerRequests := signerRequests s; contractCalls := S (contractCalls s);
     waitCalls := waitCalls s |}.

Definition callWait (s : Sys) : Sys :=
  {| isExecuting := isExecuting s; pcFirst := pcFirst s; pcSecond := pcSecond s;
     signerRequests := signerRequests s; contractCalls := contractCalls s;
     waitCalls := S (waitCalls s) |}.

(** Modelled from the spec: the [@OneAtTime] decorator and the guarded
    on-chain pause, whose sources are not among the sources (the test of the
    pause is).  Section 5: a per-method flag; an invocation made while
    another is in flight returns immediately without side effects.  One step
    runs invocation [i] from where it is suspended up to its next [await];
    an invocation that has returned has nothing left to run. *)
Definition step (i : Invocation) (s : Sys) : option Sys :=
  match pcOf i s with
  | NotCalled =>
      if isExecuting s then Some (setPc i (Returned false) s)
      else Some (setPc i (InFlight AwaitContract) (requestSigner (setFlag true s)))
  | InFlight AwaitContract =>
      Some (setPc i (InFlight AwaitSubmit) (callContract s))
  | InFlight AwaitSubmit =>
      Some (setPc i (InFlight AwaitMined) (callWait s))
  | InFlight AwaitMined =>
      Some (setPc i (Returned true) (setFlag false s))
  | Returned _ => None
  end.

(** Modelled from the spec: the event loop of section 5, single-threaded and
    cooperative; a schedule lists the invocations in the order in which it
    resumes them. *)
Fixpoint run (schedule : list Invocation) (s : Sys) : option Sys :=
  match schedule with
  | [] => Some s
  | i :: rest =>
      match step i s with
      | Some s' => run rest s'
      | None => None
      end
  end.

Definition init : Sys :=
  {| isExecuting := false; pcFirst := NotCalled; pcSecond := NotCalled;
     signerRequests := 0; contractCalls := 0; waitCalls := 0 |}.

Definition other (i : Invocation) : Invocation :=
  match i with
  | FirstCall => SecondCall
  | SecondCall => FirstCall
  end.

Definition isInFlight (pc : Pc) : bool :=
  match pc with
  | InFlight _ => true
  | _ => false
  end.

Definition hasReturned (pc : Pc) : bool :=
  match pc with
  | Returned _ => true
  | _ => false
  end.

(** What an invocation at [pc] has contributed to the three counters. *)
Definition signerOf (pc : Pc) : nat :=
  match pc with
  | InFlight _ | Returned true => 1
  | _ => 0
  end.
Definition callsOf (pc : Pc) : nat :=
  match pc with
  | InFlight AwaitSubmit | InFlight AwaitMined | Returned true => 1
  | _ => 0
  end.
Definition waitsOf (pc : Pc) : nat :=
  match pc with
  | InFlight AwaitMined | Returned true => 1
  | _ => 0
  end.

(** The flag is up exactly while an invocation is in flight, at most one is,
    and the counters add up the contributions of the two invocations. *)
Definition guarded (s : Sys) : Prop :=
  isExecuting s = (isInFlight (pcFirst s) || isInFlight (pcSecond s)) ∧
  (isInFlight (pcFirst s) && isInFlight (pcSecond s)) = false ∧
  signerRequests s = (signerOf (pcFirst s) + signerOf (pcSecond s))%nat ∧
  contractCalls s = (callsOf (pcFirst s) + callsOf (pcSecond s))%nat ∧
  waitCalls s = (waitsOf (pcFirst s) + waitsOf (pcSecond s))%nat.

End OneAtTime.

(** ** The module pause (staking-module-guard.service.ts) *)

Module PauseGuard.

(** [Promise.all(items.map(async (item) => ...))]: every branch is started
    and runs to its end whatever becomes of the others, and the promise is
    rejected when a branch is.  The branches below share nothing but the
    trace, in which the effects of one branch are kept together. *)
Fixpoint promiseAll {S} (branches : list (M S unit)) : M S unit :=
  match branches with
  | [] => ret tt
  | branch :: rest =>
      λ s, match branch s with
           | (r, s1) =>
               match promiseAll rest s1 with
               | (rs, s2) =>
                   (match r with
                    | Throw e => Throw e
                    | Ok _ => rs
                    end, s2)
               end
           end
  end.

Section Pause.
(** [securityService.signPauseData], the outcome of the detached
    [securityService.pauseDeposits] and
    [guardianMessageService.sendPauseMessage]. *)
Variable signPauseData : Z → Z → result Signature.
Variable pauseDepositsTx : Z → Z → Signature → result unit.
Variable sendPauseMessage : PauseMessage → result unit.

Definition pauseMessage (stakingModuleData : StakingModuleData)
    (blockData : BlockData) (sig : Signature) : PauseMessage :=
  {| pmDepositRoot := depositRoot blockData;
     pmNonce := nonce stakingModuleData;
     pmGuardianAddress := guardianAddress blockData;
     pmGuardianIndex := guardianIndex blockData;
     pmBlockNumber := bdBlockNumber blockData;
     pmBlockHash := bdBlockHash blockData;
     pmSignature := sig;
     pmStakingModuleId := stakingModuleId stakingModuleData |}.

(** The on-chain call is made without waiting for it; its rejection is
    caught and logged when the event loop runs next, which is after the pause
    message was handed to the message service. *)
Definition handleKeysIntersections (stakingModuleData : StakingModuleData)
    (blockData : BlockData) : M GuardState unit :=
  let blockNumber := bdBlockNumber blockData in
  let moduleId := stakingModuleId stakingModuleData in
  let* signature := lift (signPauseData blockNumber moduleId) in
  let message := pauseMessage stakingModuleData blockData signature in
  do* logger LevelWarn "Suspicious case detected, initialize the module pause" in
  do* emit (PauseDepositsCall blockNumber moduleId signature) in
  do* emit (SendPauseMessageCall message) in
  do* (match pauseDepositsTx blockNumber moduleId signature with
       | Throw error => emit (Logged LevelError (Thrown error))
       | Ok _ => ret tt
       end) in
  lift (sendPauseMessage message).

Definition pauseDeposits (stakingModulesData : list StakingModuleData)
    (blockData : BlockData) : M GuardState unit :=
  promiseAll ((λ stakingModuleData,
                 handleKeysIntersections stakingModuleData blockData)
                <$> stakingModulesData).
End Pause.

End PauseGuard.

(** ** The windows of the deposit events loop *)

Module ChunkSpec.
Import DepositRegistry.

(** The pairs [(chunkStartBlock, chunkToBlock)] of [count] rounds of the loop
    of [updateEventsCache] that starts at [block]. *)
Fixpoint windows (count : nat) (block finalizedBlockNumber : Z) : list (Z * Z) :=
  match count with
  | O => []
  | S count' =>
      (block, Z.min finalizedBlockNumber (block + DEPOSIT_EVENTS_STEP - 1))
      :: windows count' (block + DEPOSIT_EVENTS_STEP) finalizedBlockNumber
  end.

(** [ranges] cuts the blocks [firstBlock .. lastBlock] into consecutive
    windows: each starts where the one before ended, none is empty or longer
    than [DEPOSIT_EVENTS_STEP] blocks, only the one that ends at [lastBlock]
    may be shorter, and there is no window when there is no block. *)
Fixpoint tiles (firstBlock lastBlock : Z) (ranges : list (Z * Z)) : Prop :=
  match ranges with
  | [] => lastBlock < firstBlock
  | (a, b) :: rest =>
      a = firstBlock ∧ a ≤ b ≤ lastBlock ∧ b - a < DEPOSIT_EVENTS_STEP ∧
      (b < lastBlock → b - a + 1 = DEPOSIT_EVENTS_STEP) ∧
      tiles (b + 1) lastBlock rest
  end.

(** The write that the loop makes for a fetched group. *)
Definition batchOf (initialCache : VerifiedDepositEventsCache)
    (group : VerifiedDepositedEventGroup) : StoreWrite :=
  InsertEventsCacheBatch
    {| hStartBlock := hStartBlock (headers initialCache);
       hEndBlock := endBlock group |}
    (events group).

(** The events of a list of groups, in order. *)
Definition eventsOf (groups : list VerifiedDepositedEventGroup)
    : list VerifiedDepositEvent :=
  concat (events <$> groups).


End ChunkSpec.

(** ** Reading a word of the ABI encoding back *)

Module AbiSpec.

(** The number that a sequence of bytes denotes, most significant first. *)
Definition fromBigEndian (bytes : list Byte.byte) : Z :=
  foldl (λ acc b, acc * 256 + Z.of_N (Byte.to_N b)) 0 bytes.

End AbiSpec.

(** ** The client of the keys-index (keys-api.service.ts) *)

Module KeysApi.

(** The client: the cached response of [/v1/keys], the urls requested so
    far and the lines written to the logger. *)
Record KeysApiState : Type := {
  cachedKeys : option KeyListResponse;
  requests : list string;
  apiLog : list (LogLevel * string);
}.

Definition apiLogger (level : LogLevel) (message : string) : M KeysApiState unit :=
  modify (λ st, {| cachedKeys := cachedKeys st; requests := requests st;
                   apiLog := apiLog st ++ [(level, message)] |}).

Section Client.
(** The configuration; a value that is not set is the empty string. *)
Variable KEYS_API_URL : string.
Variable KEYS_API_HOST : string.
Variable KEYS_API_PORT : string.

(** [fetchService.fetchJson]: what the keys-index answers to the request
    with this number, counted over the life of the client, for this url; an
    aborted request throws. *)
Variable fetchJson : nat → string → result KeyListResponse.

Definition getBaseUrl : string :=
  if bool_decide (KEYS_API_URL = "") then KEYS_API_HOST +:+ ":" +:+ KEYS_API_PORT
  else KEYS_API_URL.

Definition fetch (url : string) : M KeysApiState KeyListResponse :=
  let baseUrl := getBaseUrl in
  let* st := get in
  do* modify (λ st, {| cachedKeys := cachedKeys st;
                       requests := requests st ++ [baseUrl +:+ url];
                       apiLog := apiLog st |}) in
  tryCatch (lift (fetchJson (length (requests st)) (baseUrl +:+ url)))
    (λ error,
       do* apiLogger LevelError "Keys API request error" in
       throw error).

Definition verifyMetaDataConsistency (firstRequestHash secondRequestHash : string)
    : M KeysApiState unit :=
  if negb (bool_decide (firstRequestHash = secondRequestHash)) then
    do* apiLogger LevelError Guardian.inconsistencyMessage in
    throw InconsistentLastChangedBlockHash
  else ret tt.

Definition updateCachedKeys (elBlockSnapshot : ELBlockSnapshot)
    : M KeysApiState KeyListResponse :=
  do* apiLogger LevelLog "Updating keys from KeysAPI" in
  let* result := fetch "/v1/keys" in
  do* apiLogger LevelLog "Keys successfully updated from KeysAPI" in
  do* verifyMetaDataConsistency (lastChangedBlockHash elBlockSnapshot)
        (lastChangedBlockHash (meta result)) in
  do* modify (λ st, {| cachedKeys := Some result; requests := requests st;
                       apiLog := apiLog st |}) in
  ret result.

Definition getKeys (elBlockSnapshot : ELBlockSnapshot)
    : M KeysApiState KeyListResponse :=
  let* st := get in
  match cachedKeys st with
  | None => updateCachedKeys elBlockSnapshot
  | Some cached =>
      let cachedHash := lastChangedBlockHash (meta cached) in
      let currentHash := lastChangedBlockHash elBlockSnapshot in
      if negb (bool_decide (cachedHash = currentHash)) then
        updateCachedKeys elBlockSnapshot
      else
        do* apiLogger LevelDebug
              "Keys are obtained from cache, no data update required" in
        ret cached
  end.
End Client.

End KeysApi.

(** ** The data of the staking modules (staking-router.service.ts) *)

Module StakingRouter.

Record SRModule : Type := {
  srNonce : Z;
  srId : Z;
  stakingModuleAddress : string;
}.

Section Data.
(** The operators of a module, and [getVettedUnusedKeys] of [./vetted-keys],
    which picks the vetted keys among the unused keys of a module. *)
Variable RegistryOperator : Type.
Variable getVettedUnusedKeys :
  list RegistryOperator → list RegistryKey → list RegistryKey.

Record SROperatorListWithModule : Type := {
  operators : list RegistryOperator;
  srModule : SRModule;
}.

(** The entry of a module: its data and its [duplicatedKeys]. *)
Definition getStakingModulesData
    (operatorsByModules : list SROperatorListWithModule)
    (operatorsMeta : ELBlockSnapshot)
    (lidoKeys duplicatedKeys : list RegistryKey)
    : list (StakingModuleData * list RegistryKey) :=
  (λ entry,
     let stakingModule := srModule entry in
     let unused :=
       filter (λ k, used k = false ∧
                    moduleAddress k = stakingModuleAddress stakingModule)
         lidoKeys in
     let moduleVettedUnusedKeys := getVettedUnusedKeys (operators entry) unused in
     ({| unusedKeys := key <$> unused;
         nonce := srNonce stakingModule;
         stakingModuleId := srId stakingModule;
         smBlockHash := elBlockHash operatorsMeta;
         smLastChangedBlockHash := lastChangedBlockHash operatorsMeta;
         vettedUnusedKeys := moduleVettedUnusedKeys |},
      filter (λ k, moduleAddress k = stakingModuleAddress stakingModule)
        duplicatedKeys))
  <$> operatorsByModules.
End Data.

Arguments operators {RegistryOperator} _.
Arguments srModule {RegistryOperator} _.

(** The addresses of the listed modules. *)
Definition addressesOf {RegistryOperator}
    (operatorsByModules : list (SROperatorListWithModule RegistryOperator))
    : list string :=
  (λ entry, stakingModuleAddress (srModule entry)) <$> operatorsByModules.

End StakingRouter.

(** ** The start of the guardian (guardian.service.ts, [onModuleInit]) *)

Module GuardianInit.

Inductive InitEffect : Type :=
  | InitLogged (level : LogLevel) (what : LogPayload)
  | CronStarted
  | CronJobAdded
  | ProcessExit (code : Z).

Record Status : Type := {
  statusChainId : Z;
  appVersion : string;
}.

(** [new Error(message)] *)
Definition newError (message : string) : Error := ExternalError message.

Definition note (e : InitEffect) : M (list InitEffect) unit :=
  modify (λ effects, effects ++ [e]).

Section Init.
Variable MIN_KAPI_VERSION : string.
(** [compare(version, minimum, '>=')] of the package [compare-versions]. *)
Variable compareGe : string → string → bool.

(** The collaborators: the block at which the contracts were initialised
    (number and hash), the initialisation of the deposit and of the security
    service, the chain id of the node, the status of the keys-index, the
    first update of the deposit events cache and the registration of the
    cron job. *)
Variable initOrWaitCachedContracts : result (Z * string).
Variable depositInitialize : Z → result unit.
Variable securityInitialize : string → result unit.
Variable getChainId : result Z.
Variable getKeysApiStatus : result Status.
Variable updateEventsCache : result unit.
Variable addCronJob : result unit.

Definition subscribeToModulesUpdates : M (list InitEffect) unit :=
  do* note (InitLogged LevelLog (Text "GuardianService subscribed to Ethereum events")) in
  do* note CronStarted in
  do* lift addCronJob in
  note CronJobAdded.

(** [Promise.all] of the two initialisations: both are started, and the
    result is an error as soon as one of them fails. *)
Definition initializeBoth (blockNumber : Z) (blockHash : string) : result unit :=
  match depositInitialize blockNumber, securityInitialize blockHash with
  | Ok _, Ok _ => Ok tt
  | Throw e, _ => Throw e
  | Ok _, Throw e => Throw e
  end.

Definition onModuleInit : M (list InitEffect) unit :=
  tryCatch
    (let* '(blockNumber, blockHash) := lift initOrWaitCachedContracts in
     do* lift (initializeBoth blockNumber blockHash) in
     let* chainId := lift getChainId in
     let* keysApiStatus := lift getKeysApiStatus in
     do* (if negb (bool_decide (chainId = statusChainId keysApiStatus)) then
            do* note (InitLogged LevelWarn (Text "Wrong KAPI chainId")) in
            throw (newError "The ChainId in KeysAPI must match the ChainId in EL Node")
          else ret tt) in
     do* (if negb (compareGe (appVersion keysApiStatus) MIN_KAPI_VERSION) then
            do* note (InitLogged LevelWarn (Text "Wrong KAPI version")) in
            throw (newError ("The KAPI version must be greater than or equal to "
                             +:+ MIN_KAPI_VERSION))
          else ret tt) in
     do* lift updateEventsCache in
     subscribeToModulesUpdates)
    (λ error,
       do* note (InitLogged LevelError (Thrown error)) in
       note (ProcessExit 1)).

(** Everything the start needs went well. *)
Definition readyToSubscribe : Prop :=
  ∃ blockNumber blockHash keysApiStatus,
    initOrWaitCachedContracts = Ok (blockNumber, blockHash)
    ∧ depositInitialize blockNumber = Ok tt
    ∧ securityInitialize blockHash = Ok tt
    ∧ getChainId = Ok (statusChainId keysApiStatus)
    ∧ getKeysApiStatus = Ok keysApiStatus
    ∧ compareGe (appVersion keysApiStatus) MIN_KAPI_VERSION = true
    ∧ updateEventsCache = Ok tt.
End Init.

End GuardianInit.

(** ** Public keys *)

Module PubkeySpec.

(** A public key as the deposit contract and the keys-index give it: [0x]
    followed by hexadecimal digits.  No member of [Object.prototype] has
    such a name, so reading a plain object used as a dictionary at a hex key
    finds an entry exactly when one was written under that key. *)
Definition isHexDigit (c : Ascii.ascii) : bool :=
  let n := Ascii.nat_of_ascii c in
  ((48 <=? n) && (n <=? 57) || (97 <=? n) && (n <=? 102)
   || (65 <=? n) && (n <=? 70))%nat.

Fixpoint allHexDigits (s : string) : bool :=
  match s with
  | EmptyString => true
  | String c rest => isHexDigit c && allHexDigits rest
  end.

Definition isHexKey (pk : string) : bool :=
  match pk with
  | String zero (String x digits) =>
      ((Ascii.nat_of_ascii zero =? 48) && (Ascii.nat_of_ascii x =? 120))%nat
      && allHexDigits digits
  | _ => false
  end.

End PubkeySpec.

(** Test data shared by the examples. *)
Module Fixtures.
Definition mkEvent (pk w : string) (bn li : Z) (v : bool) : VerifiedDepositEvent :=
  {| pubkey := pk; wc := w; amount := "32"; signature := "0x"; tx := "0x";
     blockNumber := bn; blockHash := "0x"; logIndex := li; depositCount := 0;
     valid := v |}.
Definition mkGroup (evs : list VerifiedDepositEvent) : VerifiedDepositedEventGroup :=
  {| events := evs; startBlock := 0; endBlock := 10; isValid := Some true |}.
Definition mkBlock (evs : list VerifiedDepositEvent) (lido : string) : BlockData :=
  {| bdBlockNumber := 10; bdBlockHash := "0xb"; depositRoot := "0xr";
     depositedEvents := mkGroup evs; guardianAddress := "0xg";
     guardianIndex := 0; lidoWC := lido |}.
Definition mkKey (pk sig : string) : RegistryKey :=
  {| key := pk; depositSignature := sig; operatorIndex := 0; used := false;
     index := 0; moduleAddress := "0xm" |}.
Definition someSnapshot : ELBlockSnapshot :=
  {| elBlockNumber := 10; elBlockHash := "0xb"; lastChangedBlockHash := "0xl" |}.
(** A keys-index that owns every public key it is asked about. *)
Definition keysFindAll (pks : list string) : result KeyListResponse :=
  Ok {| data := (λ pk, mkKey pk "0xs") <$> pks; meta := someSnapshot |}.
Definition sig0 : Signature := {| sigR := "0xr"; sigS := "0xs"; sigV := 27 |}.
Definition module1 : StakingModuleData :=
  {| smBlockHash := "0xb"; unusedKeys := []; vettedUnusedKeys := [];
     nonce := 7; stakingModuleId := 1; smLastChangedBlockHash := "0xl" |}.
Definition freshGuard : GuardState :=
  {| lastContractsStateByModuleId := ∅; trace := [] |}.
Definition module2 : StakingModuleData :=
  {| smBlockHash := "0xb"; unusedKeys := []; vettedUnusedKeys := [];
     nonce := 3; stakingModuleId := 2; smLastChangedBlockHash := "0xm" |}.
Definition atBlock (n : Z) : BlockData :=
  {| bdBlockNumber := n; bdBlockHash := "0xb"; depositRoot := "0xr";
     depositedEvents := mkGroup []; guardianAddress := "0xg";
     guardianIndex := 0; lidoWC := "0xlido" |}.

(** A tick whose operators response carries [lastChangedBlockHash = h1] and
    whose keys response carries [h2]; its later steps publish one deposit
    message. *)
Definition snapshotWith (h : string) : ELBlockSnapshot :=
  {| elBlockNumber := 21; elBlockHash := "0xb"; lastChangedBlockHash := h |}.
Definition operatorsWith (h : string) : result (unit * ELBlockSnapshot) :=
  Ok (tt, snapshotWith h).
Definition keysWith (h : string) : result KeyListResponse :=
  Ok {| data := []; meta := snapshotWith h |}.
Definition publishOne (_ : unit) (_ : ELBlockSnapshot) (_ : list RegistryKey)
    : M GuardState unit :=
  emit (SendDepositMessageCall
          {| dmDepositRoot := "0xr"; dmNonce := 7; dmBlockNumber := 21;
             dmBlockHash := "0xb"; dmGuardianAddress := "0xg";
             dmGuardianIndex := 0; dmSignature := sig0; dmStakingModuleId := 1 |}).

(** [st] with the effects [es] appended to its trace. *)
Definition withTrace (st : GuardState) (es : list Effect) : GuardState :=
  {| lastContractsStateByModuleId := lastContractsStateByModuleId st;
     trace := trace st ++ es |}.

(** The wallet service of a test run: no private key is configured. *)
Definition noKey : WalletSvc.WalletState :=
  {| WalletSvc.privateKey := ""; WalletSvc.cachedWallet := None;
     WalletSvc.allocated := 0; WalletSvc.drawn := 0; WalletSvc.warnings := [] |}.
Definition randomKeys (n : nat) : string :=
  match n with
  | O => "0x0123"
  | S _ => "0x4567"
  end.
Definition addressOfKey (k : string) : option string :=
  if bool_decide (k = "") then None else Some ("addr:" +:+ k).
(** A keys-index client before its first request, and two staking modules
    at two addresses. *)
Definition freshClient : KeysApi.KeysApiState :=
  {| KeysApi.cachedKeys := None; KeysApi.requests := []; KeysApi.apiLog := [] |}.
Definition keysAt (h : string) (n : nat) (url : string) : result KeyListResponse :=
  keysWith h.
Definition keyOf (pk address : string) (isUsed : bool) : RegistryKey :=
  {| key := pk; depositSignature := "0xs"; operatorIndex := 0; used := isUsed;
     index := 0; moduleAddress := address |}.
Definition twoModules : list (StakingRouter.SROperatorListWithModule unit) :=
  [ {| StakingRouter.operators := [];
       StakingRouter.srModule :=
         {| StakingRouter.srNonce := 7; StakingRouter.srId := 1;
            StakingRouter.stakingModuleAddress := "0xm1" |} |};
    {| StakingRouter.operators := [];
       StakingRouter.srModule :=
         {| StakingRouter.srNonce := 3; StakingRouter.srId := 2;
            StakingRouter.stakingModuleAddress := "0xm2" |} |} ].
Definition moduleKeys : list RegistryKey :=
  [keyOf "0xk1" "0xm1" false; keyOf "0xk2" "0xm2" false;
   keyOf "0xk3" "0xm1" true; keyOf "0xk4" "0xm3" false].
(** The wallet service with a configured private key. *)
Definition configuredKey : WalletSvc.WalletState :=
  {| WalletSvc.privateKey := "0xabc"; WalletSvc.cachedWallet := None;
     WalletSvc.allocated := 0; WalletSvc.drawn := 0; WalletSvc.warnings := [] |}.
(** [hexZeroPad(n, 32)] *)
Definition hexZeroPad32 (n : Z) : list Byte.byte := WalletSvc.bigEndian 32 n.
Definition depositParams : WalletSvc.SignDepositDataParams :=
  {| WalletSvc.prefix := hexZeroPad32 1; WalletSvc.spBlockNumber := 1;
     WalletSvc.spBlockHash := hexZeroPad32 3; WalletSvc.spDepositRoot := hexZeroPad32 2;
     WalletSvc.keysOpIndex := 1; WalletSvc.spStakingModuleId := 5 |}.

(** A chain with three deposits, a node whose finalized block is 25000 and a
    toy accumulator: the tree is the list of the inserted public keys and its
    root their concatenation. *)
Definition chain : list VerifiedDepositEvent :=
  [mkEvent "0xaa" "0xlido" 5 0 true; mkEvent "0xbb" "0xlido" 12000 0 true;
   mkEvent "0xcc" "0xbad" 24000 3 true].
Definition fetchChain (fromBlock toBlock : Z) : result VerifiedDepositedEventGroup :=
  Ok {| events := filter (λ e, fromBlock ≤ blockNumber e ≤ toBlock) chain;
        startBlock := fromBlock; endBlock := toBlock; isValid := None |}.
Definition insertPubkeys (t : list string) (evs : list VerifiedDepositEvent)
    : result (list string) :=
  Ok (t ++ (pubkey <$> evs)).
Definition joinRoot (t : list string) : string := String.concat "," t.
Definition blockAt (tag : string) : result (Z * string) := Ok (25000, "0xfinal").
Definition rootAt (root : string) (hash : string) : result string := Ok root.
Definition emptyRegistry : DepositRegistry.RegistryState (list string) :=
  {| DepositRegistry.store :=
       {| DepositRegistry.headers :=
            {| DepositRegistry.hStartBlock := 0; DepositRegistry.hEndBlock := 0 |};
          DepositRegistry.cacheData := [];
          DepositRegistry.lastValidEvent := None |};
     DepositRegistry.writes := []; DepositRegistry.tree := [];
     DepositRegistry.fetches := []; DepositRegistry.logs := [] |}.
Definition updateChain (contractRoot : string)
    : M (DepositRegistry.RegistryState (list string)) unit :=
  DepositRegistry.updateEventsCache (list string) insertPubkeys joinRoot "finalized"
    blockAt (rootAt contractRoot) (Ok 0) fetchChain.
Definition allEventsAt (blockNumber : Z)
    : M (DepositRegistry.RegistryState (list string)) VerifiedDepositedEventGroup :=
  DepositRegistry.getAllDepositedEvents (list string) insertPubkeys joinRoot
    (rootAt "0xaa,0xbb,0xcc") (Ok 0) fetchChain blockNumber "0xhead".
(** The registry after one update against a node that agrees with the tree. *)
Definition syncedRegistry : DepositRegistry.RegistryState (list string) :=
  snd (updateChain "0xaa,0xbb,0xcc" emptyRegistry).

(** A verifier that rejects the signature ["0xbad"], and the keys of the
    validation test: two valid keys and two invalid ones. *)
Definition verifyToy (pk sig w : string) : bool := negb (bool_decide (sig = "0xbad")).
Definition emptyValidation : KeysValidation.ValidationState :=
  {| KeysValidation.keysCache := ∅; KeysValidation.validateKeysCalls := [] |}.
Definition testKeys : list RegistryKey :=
  [mkKey "0xk1" "0xs1"; mkKey "0xk2" "0xs2"; mkKey "0xk3" "0xbad";
   mkKey "0xk4" "0xbad"].
(** One public key offered twice, with two signatures. *)
Definition conflictingKeys : list RegistryKey :=
  [mkKey "0xk1" "0xs1"; mkKey "0xk1" "0xs2"].

Definition tickWith (h1 h2 : string) : M GuardState unit :=
  Guardian.handleNewBlock unit (operatorsWith h1) (λ _, Ok tt) (λ _ _, true)
    (keysWith h2) publishOne.
End Fixtures.

(** * Properties *)

(** ** Lists *)

Section ListFacts.
Context {A : Type}.

Lemma filter_iff_on (P Q : A → Prop) `{∀ x, Decision (P x)}
    `{∀ x, Decision (Q x)} (l : list A) :
  (∀ x, x ∈ l → (P x ↔ Q x)) → filter P l = filter Q l.
Proof.
  induction l as [| x l IH]; intros Hext; [done |].
  rewrite !filter_cons.
  rewrite IH by (intros y Hy; apply Hext; by right).
  pose proof (Hext x ltac:(left)) as Hx.
  repeat case_decide; tauto.
Qed.

Lemma filter_none (P : A → Prop) `{∀ x, Decision (P x)} (l : list A) :
  (∀ x, x ∈ l → ¬ P x) → filter P l = [].
Proof.
  induction l as [| x l IH]; intros Hno; [done |].
  rewrite filter_cons_False by (apply Hno; left).
  apply IH. intros y Hy. apply Hno. by right.
Qed.

Lemma filterE_total (p : A → result bool) (q : A → bool) (l : list A) :
  (∀ x, x ∈ l → p x = Ok (q x)) →
  StakingModuleGuard.filterE p l = Ok (filter (λ x, q x = true) l).
Proof.
  induction l as [| x l IH]; intros Hp; [done |].
  simpl. rewrite (Hp x) by set_solver. simpl.
  rewrite IH by (intros y Hy; apply Hp; set_solver). simpl.
  rewrite filter_cons. destruct (q x); by case_decide.
Qed.
End ListFacts.

(** ** Historical front-run *)

Section HistoricalFrontRunFacts.
Import StakingModuleGuard FrontRunSpec.

Lemma isFirstEventEarlier_earlier e1 e2 :
  isFirstEventEarlier e1 e2 = true ↔ earlier e1 e2.
Proof.
  unfold isFirstEventEarlier, earlier.
  case_bool_decide; rewrite bool_decide_eq_true; lia.
Qed.

Lemma lidoMapInv_step m l x :
  lidoMapInv m l → lidoMapInv (recordLidoDeposit m x) (l ++ [x]).
Proof.
  intros Hinv pk. specialize (Hinv pk) as Hpk.
  unfold recordLidoDeposit.
  destruct (decide (pubkey x = pk)) as [Heq | Hne].
  - subst pk. destruct (m !! pubkey x) as [existed |] eqn:Hm.
    + destruct Hpk as (Hin & Hk & Hmin).
      destruct (isFirstEventEarlier existed x) eqn:Hearly.
      * rewrite Hm. split_and!; [set_solver | done |].
        intros e [He | He]%elem_of_app Hke; [by apply Hmin |].
        apply list_elem_of_singleton in He as ->.
        apply isFirstEventEarlier_earlier in Hearly.
        unfold earlier in *. lia.
      * rewrite lookup_insert_eq. split_and!; [set_solver | done |].
        assert (¬ earlier existed x) as Hnot
          by (rewrite <- isFirstEventEarlier_earlier; congruence).
        intros e [He | He]%elem_of_app Hke.
        -- specialize (Hmin e He Hke). unfold earlier in *. lia.
        -- apply list_elem_of_singleton in He as ->. unfold earlier. lia.
    + rewrite lookup_insert_eq. split_and!; [set_solver | done |].
      intros e [He | He]%elem_of_app Hke; [by destruct (Hpk e He) |].
      apply list_elem_of_singleton in He as ->. unfold earlier. lia.
  - assert ((if m !! pubkey x is Some existed
             then if isFirstEventEarlier existed x then m
                  else <[pubkey x := x]> m
             else <[pubkey x := x]> m) !! pk = m !! pk) as ->.
    { destruct (m !! pubkey x) as [existed |];
        [destruct (isFirstEventEarlier existed x) |];
        by rewrite ?lookup_insert_ne. }
    destruct (m !! pk) as [L |].
    + destruct Hpk as (Hin & Hk & Hmin). split_and!; [set_solver | done |].
      intros e [He | He]%elem_of_app Hke; [by apply Hmin |].
      apply list_elem_of_singleton in He as ->. done.
    + intros e [He | He]%elem_of_app; [by apply Hpk |].
      apply list_elem_of_singleton in He as ->. done.
Qed.

Lemma lidoMapInv_foldl l : lidoMapInv (foldl recordLidoDeposit ∅ l) l.
Proof.
  induction l as [| x l IH] using rev_ind.
  - intros pk. simpl. rewrite lookup_empty. intros e He. inversion He.
  - rewrite foldl_snoc. by apply lidoMapInv_step.
Qed.

(** The dictionary maps a public key to an earliest valid Lido deposit of
    that key, and has no entry exactly when there is no such deposit. *)
Lemma lidoMap_lookup evs lido pk :
  match potentialLidoDepositsKeysMap evs lido !! pk with
  | None => Forall (λ L, ¬ lidoDepositOf lido pk L) evs
  | Some L => L ∈ evs ∧ earliestLidoDeposit evs lido pk L
  end.
Proof.
  pose proof (lidoMapInv_foldl (potentialLidoDepositsEvents evs lido) pk) as H.
  fold (potentialLidoDepositsKeysMap evs lido) in H.
  unfold potentialLidoDepositsEvents in H.
  destruct (potentialLidoDepositsKeysMap evs lido !! pk) as [L |].
  - destruct H as (Hin & Hk & Hmin).
    apply list_elem_of_filter in Hin as [[Hwc Hv] Hin].
    split; [done |]. split; [done |].
    apply Forall_forall. intros L' HL' (Hk' & Hwc' & Hv').
    apply Hmin; [| done]. apply list_elem_of_filter. done.
  - apply Forall_forall. intros L HL (Hk & Hwc & Hv).
    eapply H; [| done]. apply list_elem_of_filter. done.
Qed.

Lemma earliest_unique_position evs lido pk L1 L2 E :
  L1 ∈ evs → L2 ∈ evs →
  earliestLidoDeposit evs lido pk L1 → earliestLidoDeposit evs lido pk L2 →
  earlier E L1 → earlier E L2.
Proof.
  intros Hin1 Hin2 [Hd1 Hm1] [Hd2 Hm2] He.
  rewrite Forall_forall in Hm1, Hm2.
  specialize (Hm1 L2 Hin2 Hd2). specialize (Hm2 L1 Hin1 Hd1).
  unfold earlier in *. lia.
Qed.

(** The test of the second and third filters of the service, on one event. *)
Lemma frontRuns_lookup evs lido E :
  frontRuns evs lido E ↔
  valid E = true ∧ wc E ≠ lido ∧
  ∃ L, potentialLidoDepositsKeysMap evs lido !! pubkey E = Some L ∧
       isFirstEventEarlier E L = true.
Proof.
  pose proof (lidoMap_lookup evs lido (pubkey E)) as Hm.
  unfold frontRuns, precedesLidoDeposit. rewrite Exists_exists.
  split.
  - intros (Hv & Hwc & L & HL & Hearliest & Hearly).
    split_and!; [done.. |].
    destruct (potentialLidoDepositsKeysMap evs lido !! pubkey E) as [L0 |].
    + exists L0. split; [done |]. apply isFirstEventEarlier_earlier.
      destruct Hm as [Hin0 He0].
      by apply (earliest_unique_position evs lido (pubkey E) L L0).
    + rewrite Forall_forall in Hm. destruct (Hm L HL). apply Hearliest.
  - intros (Hv & Hwc & L & Hlook & Hearly). rewrite Hlook in Hm.
    destruct Hm as [Hin He].
    split_and!; [done.. |]. exists L. split_and!; [done.. |].
    by apply isFirstEventEarlier_earlier.
Qed.

(** The three filters never throw and select the events that front-run. *)
Lemma frontRunnedDepositEvents_spec evs lido :
  frontRunnedDepositEvents evs lido = Ok (filter (frontRuns evs lido) evs).
Proof.
  unfold frontRunnedDepositEvents.
  set (m := potentialLidoDepositsKeysMap evs lido).
  rewrite (filterE_total _
    (λ e, if m !! pubkey e is Some L then isFirstEventEarlier e L else false)).
  - f_equal. unfold validDuplicatedDepositEvents, duplicatedDepositEvents.
    fold m. rewrite !list_filter_filter. apply list_filter_iff.
    intros E. rewrite frontRuns_lookup. fold m.
    destruct (m !! pubkey E) as [L |].
    + split.
      * intros [[? ?] [? ?]]. split_and!; eauto.
      * intros (? & ? & L' & [= <-] & ?). split_and!; eauto.
    + split; [intros [[? ?] ?] | intros (? & ? & L' & ? & ?)]; done.
  - intros e He. unfold validDuplicatedDepositEvents, duplicatedDepositEvents in He.
    fold m in He.
    apply list_elem_of_filter in He as [_ He].
    apply list_elem_of_filter in He as [[[L HL] _] _].
    by rewrite HL.
Qed.

Variable keysFind : list string → result KeyListResponse.

Lemma getHistoricalFrontRun_unfold bd sent :
  let evs := events (depositedEvents bd) in
  let flagged := flaggedPubkeys (frontRuns evs (lidoWC bd)) evs in
  getHistoricalFrontRun keysFind bd sent =
  if bool_decide (flagged = []) then (Ok false, sent)
  else match keysFind flagged with
       | Ok resp => (Ok (negb (bool_decide (data resp = []))), sent ++ [flagged])
       | Throw e => (Throw e, sent ++ [flagged])
       end.
Proof.
  intros evs flagged. unfold getHistoricalFrontRun, bind, lift.
  rewrite frontRunnedDepositEvents_spec. fold evs.
  change (pubkey <$> filter (frontRuns evs (lidoWC bd)) evs) with flagged.
  destruct flagged as [| pk rest]; [done |].
  simpl. unfold getKeysByPubkeys, bind, modify, lift, ret. simpl.
  destruct (keysFind (pk :: rest)) as [resp | e]; [| done].
  by destruct (data resp).
Qed.

(** C1, amended: the historical front-run check answers [true] exactly when
    some deposit is valid, carries a foreign withdrawal credential and is
    earlier than the earliest valid Lido deposit of the same public key, and
    the keys-index returns a non-empty list for the flagged public keys.
    When no deposit qualifies the answer is [false] and no request is sent. *)
Theorem getHistoricalFrontRun_spec bd sent :
  let evs := events (depositedEvents bd) in
  let flagged := flaggedPubkeys (frontRuns evs (lidoWC bd)) evs in
  (fst (getHistoricalFrontRun keysFind bd sent) = Ok true ↔
     (∃ E, E ∈ evs ∧ frontRuns evs (lidoWC bd) E) ∧
     (∃ resp, keysFind flagged = Ok resp ∧ data resp ≠ []))
  ∧ ((¬ ∃ E, E ∈ evs ∧ frontRuns evs (lidoWC bd) E) →
     getHistoricalFrontRun keysFind bd sent = (Ok false, sent)).
Proof.
  intros evs flagged. rewrite getHistoricalFrontRun_unfold.
  fold evs. fold flagged.
  assert ((∃ E, E ∈ evs ∧ frontRuns evs (lidoWC bd) E) → flagged ≠ []) as Hsome.
  { intros (E & HE & HfE) Hf%fmap_nil_inv.
    assert (E ∈ filter (frontRuns evs (lidoWC bd)) evs) as Hin
      by (by apply list_elem_of_filter).
    rewrite Hf in Hin. inversion Hin. }
  assert (flagged ≠ [] → ∃ E, E ∈ evs ∧ frontRuns evs (lidoWC bd) E) as Hex.
  { unfold flagged, flaggedPubkeys.
    destruct (filter _ evs) as [| E l] eqn:Hf; [done |].
    intros _. exists E.
    assert (E ∈ filter (frontRuns evs (lidoWC bd)) evs) as Hin
      by (rewrite Hf; left).
    apply list_elem_of_filter in Hin as [? ?]. done. }
  split.
  - case_bool_decide as Hfl.
    + simpl. split; [done |]. intros [Hyes _]. by apply Hsome in Hyes.
    + destruct (keysFind flagged) as [resp | e]; simpl.
      * case_bool_decide as Hd; simpl.
        -- split; [done |]. by intros [_ (r & [= <-] & Hr)].
        -- split; [| done]. intros _. split; [by apply Hex | by exists resp].
      * split; [done |]. by intros [_ (r & [=] & _)].
  - intros Hno. rewrite bool_decide_eq_true_2; [done |].
    destruct (decide (flagged = [])) as [| Hne]; [done |].
    destruct Hno. by apply Hex.
Qed.
End HistoricalFrontRunFacts.

Section HistoricalFrontRunExamples.
Import StakingModuleGuard FrontRunSpec Fixtures.

(** A foreign deposit one block before the Lido deposit of the same key,
    owned by Lido according to the keys-index: theft. *)
Example historical_front_run_found :
  getHistoricalFrontRun keysFindAll
    (mkBlock [mkEvent "0xaa" "0xbad" 9 0 true; mkEvent "0xaa" "0xlido" 10 0 true]
             "0xlido") []
  = (Ok true, [["0xaa"]]).
Proof. vm_compute. reflexivity. Qed.

(** In the same block the log index decides. *)
Example historical_front_run_same_block :
  getHistoricalFrontRun keysFindAll
    (mkBlock [mkEvent "0xaa" "0xlido" 10 0 true; mkEvent "0xaa" "0xbad" 10 1 true]
             "0xlido") []
  = (Ok false, []).
Proof. vm_compute. reflexivity. Qed.

(** C1 as written fails: a deposit whose BLS signature is invalid precedes
    the Lido deposit of its key and the keys-index owns the key, yet the
    service answers [false]. *)
Lemma getHistoricalFrontRun_skips_invalid_deposit :
  let bd := mkBlock [mkEvent "0xaa" "0xbad" 9 0 false;
                     mkEvent "0xaa" "0xlido" 10 0 true] "0xlido" in
  let evs := events (depositedEvents bd) in
  ¬ (fst (getHistoricalFrontRun keysFindAll bd []) = Ok true ↔
     (∃ E, E ∈ evs ∧ precedesLidoDeposit evs (lidoWC bd) E) ∧
     (∃ resp, keysFindAll (flaggedPubkeys (precedesLidoDeposit evs (lidoWC bd)) evs)
              = Ok resp ∧ data resp ≠ [])).
Proof.
  intros bd evs [_ Hback].
  assert (fst (getHistoricalFrontRun keysFindAll bd []) = Ok true) as Hrun.
  { apply Hback. split.
    - exists (mkEvent "0xaa" "0xbad" 9 0 false). split; [left |].
      apply (bool_decide_unpack _). vm_compute. exact I.
    - eexists. split; [vm_compute; reflexivity | done]. }
  vm_compute in Hrun. discriminate.
Qed.
End HistoricalFrontRunExamples.

(** ** Front-run attempts *)

Section FrontRunAttemptsFacts.
Import StakingModuleGuard FrontRunSpec Fixtures.

Lemma getFrontRunAttempts_filter smd bd :
  getFrontRunAttempts smd bd =
  filter (λ k, Exists (attemptOn (lidoWC bd) k) (events (depositedEvents bd)))
         (vettedUnusedKeys smd).
Proof.
  unfold getFrontRunAttempts, excludeEligibleIntersections, getKeysIntersections.
  apply filter_iff_on. intros k Hk.
  rewrite elem_of_list_to_set, list_elem_of_fmap, Exists_exists.
  split.
  - intros (e & Hpk & He).
    apply list_elem_of_filter in He as [[Hwc Hv] He].
    apply list_elem_of_filter in He as [_ He].
    exists e. by split.
  - intros (e & He & Hpk & Hwc & Hv). exists e. split; [done |].
    apply list_elem_of_filter. split; [done |].
    apply list_elem_of_filter. split; [| done].
    rewrite elem_of_list_to_set, list_elem_of_fmap. rewrite Hpk. by exists k.
Qed.

(** C2: the front-run attempts of a module are exactly its vetted unused
    keys whose public key was deposited with a foreign withdrawal credential
    and a valid signature, in registry order; a deposit that carries the Lido
    credential or an invalid signature can be dropped from the event list
    without changing the answer. *)
Theorem getFrontRunAttempts_spec smd bd :
  let evs := events (depositedEvents bd) in
  getFrontRunAttempts smd bd =
    filter (λ k, Exists (attemptOn (lidoWC bd) k) evs) (vettedUnusedKeys smd)
  ∧ (∀ k, k ∈ getFrontRunAttempts smd bd ↔
          k ∈ vettedUnusedKeys smd ∧
          ∃ e, e ∈ evs ∧ pubkey e = key k ∧ wc e ≠ lidoWC bd ∧ valid e = true)
  ∧ (∀ before e after,
        evs = before ++ e :: after →
        wc e = lidoWC bd ∨ valid e = false →
        getFrontRunAttempts smd bd =
        getFrontRunAttempts smd (withEvents bd (before ++ after))).
Proof.
  intros evs. split_and!.
  - apply getFrontRunAttempts_filter.
  - intros k. rewrite getFrontRunAttempts_filter, list_elem_of_filter, Exists_exists.
    unfold attemptOn. split.
    + intros [(e & He & Ha) Hk]. split; [done |]. by exists e.
    + intros [Hk (e & He & Ha)]. split; [| done]. by exists e.
  - intros before e after Hevs Hdrop.
    rewrite !getFrontRunAttempts_filter. simpl. fold evs. rewrite Hevs.
    apply list_filter_iff. intros k.
    rewrite !Exists_app, Exists_cons.
    assert (¬ attemptOn (lidoWC bd) k e) as Hno.
    { intros (_ & Hwc & Hv). destruct Hdrop; congruence. }
    tauto.
Qed.

Example front_run_attempt_found :
  getFrontRunAttempts
    {| smBlockHash := "0xb"; unusedKeys := ["0xaa"; "0xbb"];
       vettedUnusedKeys := [mkKey "0xaa" "0xs1"; mkKey "0xbb" "0xs2"];
       nonce := 1; stakingModuleId := 1; smLastChangedBlockHash := "0xl" |}
    (mkBlock [mkEvent "0xbb" "0xbad" 9 0 true; mkEvent "0xaa" "0xlido" 9 1 true;
              mkEvent "0xaa" "0xbad" 9 2 false] "0xlido")
  = [mkKey "0xbb" "0xs2"].
Proof. vm_compute. reflexivity. Qed.
End FrontRunAttemptsFacts.

(** ** The state-change gate *)

Section StateChangeGateFacts.
Import StakingModuleGuard Fixtures.
Local Arguments isSameContractsStates : simpl never.

Variable window : Z.
Variable signDepositData : string → Z → Z → string → Z → result Signature.
Variable sendDepositMessage : DepositMessage → result unit.

Local Abbreviation isSame := (isSameContractsStates window).
Local Abbreviation handle :=
  (handleCorrectKeys window signDepositData sendDepositMessage).

Lemma isSameContractsStates_true first second :
  isSame first second = true ↔
  ∃ f s, first = Some f ∧ second = Some s ∧
         csDepositRoot f = csDepositRoot s ∧
         csLastChangedBlockHash f = csLastChangedBlockHash s ∧
         csBlockNumber f / window = csBlockNumber s / window.
Proof.
  unfold isSameContractsStates.
  destruct first as [f |], second as [s |];
    try (split; [discriminate | by intros (? & ? & ? & ? & _)]).
  repeat case_bool_decide; simpl;
    (split;
     [ intros Htrue; try discriminate Htrue; by exists f, s
     | intros (? & ? & [= <-] & [= <-] & ? & ? & ?); done ]).
Qed.

(** Whatever happens afterwards, the current state is stored first. *)
Lemma handleCorrectKeys_stores smd bd st :
  lastContractsStateByModuleId (snd (handle smd bd st)) =
  <[stakingModuleId smd := currentContractState smd bd]>
    (lastContractsStateByModuleId st).
Proof.
  unfold handleCorrectKeys, bind, get, modify, logger, emit, lift. simpl.
  destruct (isSameContractsStates _ _ _); [done |]. simpl.
  by destruct (signDepositData _ _ _ _ _).
Qed.

Lemma handleCorrectKeys_unchanged smd bd st :
  isSame (Some (currentContractState smd bd))
         (lastContractsStateByModuleId st !! stakingModuleId smd) = true →
  fst (handle smd bd st) = Ok tt ∧
  trace (snd (handle smd bd st)) =
    trace st ++ [Logged LevelLog (Text "Contract states didn't change")].
Proof.
  intros Hsame.
  unfold handleCorrectKeys, bind, get, modify, logger, emit, lift. simpl.
  by rewrite Hsame.
Qed.

Lemma handleCorrectKeys_changed smd bd st sig :
  isSame (Some (currentContractState smd bd))
         (lastContractsStateByModuleId st !! stakingModuleId smd) = false →
  signDepositData (depositRoot bd) (nonce smd) (bdBlockNumber bd)
                  (bdBlockHash bd) (stakingModuleId smd) = Ok sig →
  fst (handle smd bd st) = sendDepositMessage (depositMessage smd bd sig) ∧
  trace (snd (handle smd bd st)) =
    trace st ++ [SignDepositDataCall (depositRoot bd) (nonce smd)
                   (bdBlockNumber bd) (bdBlockHash bd) (stakingModuleId smd);
                 Logged LevelLog (Text "No problems found");
                 SendDepositMessageCall (depositMessage smd bd sig)].
Proof.
  intros Hsame Hsig.
  unfold handleCorrectKeys, bind, get, modify, logger, emit, lift. simpl.
  rewrite Hsame. simpl. rewrite Hsig. simpl.
  rewrite <- !app_assoc. simpl.
  by destruct (sendDepositMessage _).
Qed.

(** C4: [isSameContractsStates] answers [true] exactly for two present
    states with equal deposit root, equal [lastChangedBlockHash] and block
    numbers in the same re-signing window.  Hence, of two consecutive calls
    of [handleCorrectKeys] for one module with equal deposit root, nonce and
    [lastChangedBlockHash] in one window, the second only writes a log line;
    the first, when the stored state differs from the current one, asks for
    the signature and hands the signed deposit message to the bus. *)
Theorem state_change_gate (Hwindow : 0 < window) :
  (∀ first second,
      isSame first second = true ↔
      ∃ f s, first = Some f ∧ second = Some s ∧
             csDepositRoot f = csDepositRoot s ∧
             csLastChangedBlockHash f = csLastChangedBlockHash s ∧
             csBlockNumber f / window = csBlockNumber s / window)
  ∧ (∀ smd1 bd1 smd2 bd2 st0,
        stakingModuleId smd1 = stakingModuleId smd2 →
        depositRoot bd1 = depositRoot bd2 →
        nonce smd1 = nonce smd2 →
        smLastChangedBlockHash smd1 = smLastChangedBlockHash smd2 →
        bdBlockNumber bd1 / window = bdBlockNumber bd2 / window →
        let tick1 := handle smd1 bd1 st0 in
        let tick2 := handle smd2 bd2 (snd tick1) in
        (fst tick2 = Ok tt ∧
         filter (λ e, isLogged e = false) (trace (snd tick2)) =
         filter (λ e, isLogged e = false) (trace (snd tick1)))
        ∧ (isSame (Some (currentContractState smd1 bd1))
                  (lastContractsStateByModuleId st0 !! stakingModuleId smd1) = false →
           ∀ sig,
             signDepositData (depositRoot bd1) (nonce smd1) (bdBlockNumber bd1)
                             (bdBlockHash bd1) (stakingModuleId smd1) = Ok sig →
             filter (λ e, isLogged e = false) (trace (snd tick1)) =
             filter (λ e, isLogged e = false) (trace st0) ++
             [SignDepositDataCall (depositRoot bd1) (nonce smd1) (bdBlockNumber bd1)
                (bdBlockHash bd1) (stakingModuleId smd1);
              SendDepositMessageCall (depositMessage smd1 bd1 sig)])).
Proof.
  split; [apply isSameContractsStates_true |].
  intros smd1 bd1 smd2 bd2 st0 Hid Hroot Hnonce Hhash Hwin tick1 tick2.
  split.
  - assert (isSame (Some (currentContractState smd2 bd2))
              (lastContractsStateByModuleId (snd tick1) !! stakingModuleId smd2)
            = true) as Hsame.
    { unfold tick1. rewrite handleCorrectKeys_stores, Hid, lookup_insert_eq.
      apply isSameContractsStates_true.
      exists (currentContractState smd2 bd2), (currentContractState smd1 bd1).
      simpl. by rewrite Hroot, Hhash, Hwin. }
    destruct (handleCorrectKeys_unchanged smd2 bd2 (snd tick1) Hsame) as [Hr Ht].
    split; [done |]. unfold tick2. rewrite Ht, filter_app. simpl.
    by rewrite app_nil_r.
  - intros Hdiff sig Hsig.
    destruct (handleCorrectKeys_changed smd1 bd1 st0 sig Hdiff Hsig) as [_ Ht].
    unfold tick1. rewrite Ht, filter_app. done.
Qed.
End StateChangeGateFacts.

Section StateChangeGateExamples.
Import StakingModuleGuard Fixtures.

(** Blocks 21 and 22 share a window of ten blocks: one deposit message. *)
Example two_ticks_one_message :
  let handle := handleCorrectKeys 10 (λ _ _ _ _ _, Ok sig0) (λ _, Ok tt) in
  filter (λ e, isMessage e = true)
    (trace (snd (handle module1 (atBlock 22)
                   (snd (handle module1 (atBlock 21) freshGuard)))))
  = [SendDepositMessageCall (depositMessage module1 (atBlock 21) sig0)].
Proof. vm_compute. reflexivity. Qed.

(** Blocks 29 and 30 do not: the message is signed again. *)
Example next_window_signs_again :
  let handle := handleCorrectKeys 10 (λ _ _ _ _ _, Ok sig0) (λ _, Ok tt) in
  filter (λ e, isMessage e = true)
    (trace (snd (handle module1 (atBlock 30)
                   (snd (handle module1 (atBlock 29) freshGuard)))))
  = [SendDepositMessageCall (depositMessage module1 (atBlock 29) sig0);
     SendDepositMessageCall (depositMessage module1 (atBlock 30) sig0)].
Proof. vm_compute. reflexivity. Qed.

Lemma state_change_gate_witness :
  0 < 10 ∧
  let handle := handleCorrectKeys 10 (λ _ _ _ _ _, Ok sig0) (λ _, Ok tt) in
  let tick1 := handle module1 (atBlock 21) freshGuard in
  let tick2 := handle module1 (atBlock 22) (snd tick1) in
  (isSameContractsStates 10
     (Some (currentContractState module1 (atBlock 22)))
     (Some (currentContractState module1 (atBlock 21))) = true ↔
   ∃ f s, Some (currentContractState module1 (atBlock 22)) = Some f ∧
          Some (currentContractState module1 (atBlock 21)) = Some s ∧
          csDepositRoot f = csDepositRoot s ∧
          csLastChangedBlockHash f = csLastChangedBlockHash s ∧
          csBlockNumber f / 10 = csBlockNumber s / 10)
  ∧ fst tick2 = Ok tt
  ∧ filter (λ e, isLogged e = false) (trace (snd tick2)) =
    filter (λ e, isLogged e = false) (trace (snd tick1))
  ∧ filter (λ e, isLogged e = false) (trace (snd tick1)) =
    [SignDepositDataCall "0xr" 7 21 "0xb" 1;
     SendDepositMessageCall (depositMessage module1 (atBlock 21) sig0)].
Proof.
  split; [lia |]. intros handle tick1 tick2.
  destruct (state_change_gate 10 (λ _ _ _ _ _, Ok sig0) (λ _, Ok tt) ltac:(lia))
    as [Hsame Hticks].
  destruct (Hticks module1 (atBlock 21) module1 (atBlock 22) freshGuard
              eq_refl eq_refl eq_refl eq_refl eq_refl) as [[Hok Hquiet] Hfirst].
  split_and!.
  - apply Hsame.
  - exact Hok.
  - exact Hquiet.
  - exact (Hfirst eq_refl sig0 eq_refl).
Defined.
End StateChangeGateExamples.

(** ** The consistency check of the two keys-index responses *)

Section ConsistencyCheckFacts.
Import Guardian Fixtures.

Variable OperatorsByModules : Type.
Variable getOperatorListWithModule : result (OperatorsByModules * ELBlockSnapshot).
Variable initCachedContracts : string → result unit.
Variable isNeedToProcessNewState : string → Z → bool.
Variable getKeys : result KeyListResponse.
Variable processNewState :
  OperatorsByModules → ELBlockSnapshot → list RegistryKey → M GuardState unit.

Local Abbreviation tick :=
  (handleNewBlock OperatorsByModules getOperatorListWithModule initCachedContracts
     isNeedToProcessNewState getKeys processNewState).

Lemma isEqualLastChangedBlockHash_differ h1 h2 st :
  h1 ≠ h2 →
  isEqualLastChangedBlockHash h1 h2 st =
  (Throw InconsistentLastChangedBlockHash,
   withTrace st [Logged LevelError (Text inconsistencyMessage)]).
Proof.
  intros Hne. unfold isEqualLastChangedBlockHash.
  by rewrite bool_decide_eq_false_2.
Qed.

Lemma isEqualLastChangedBlockHash_equal h st :
  isEqualLastChangedBlockHash h h st = (Ok tt, st).
Proof.
  unfold isEqualLastChangedBlockHash. by rewrite bool_decide_eq_true_2.
Qed.

(** C3: let the operators request and the keys request of one tick succeed
    and the block guard ask for processing.  If the two
    [lastChangedBlockHash] differ, the check throws
    [InconsistentLastChangedBlockHash]; the tick catches it and ends having
    written log lines only, whatever the later steps would have done: no
    deposit or pause message is emitted.  If they are equal the check
    returns without an error and the tick runs the later steps. *)
Theorem consistency_check ops opsMeta keysResponse st :
  getOperatorListWithModule = Ok (ops, opsMeta) →
  initCachedContracts (elBlockHash opsMeta) = Ok tt →
  isNeedToProcessNewState (elBlockHash opsMeta) (elBlockNumber opsMeta) = true →
  getKeys = Ok keysResponse →
  let h1 := lastChangedBlockHash opsMeta in
  let h2 := lastChangedBlockHash (meta keysResponse) in
  (h1 ≠ h2 →
     fst (isEqualLastChangedBlockHash h1 h2 st) = Throw InconsistentLastChangedBlockHash ∧
     fst (verifyMetaDataConsistency h1 h2 st) = Throw InconsistentLastChangedBlockHash ∧
     tick st =
       (Ok tt,
        withTrace st
          [Logged LevelLog (Text "New staking router state cycle start");
           Logged LevelLog (Text "Staking modules loaded");
           Logged LevelError (Text inconsistencyMessage);
           Logged LevelError (Text "Staking router state update error");
           Logged LevelError (Thrown InconsistentLastChangedBlockHash);
           Logged LevelLog (Text "New staking router state cycle end")]) ∧
     filter (λ e, isMessage e = true) (trace (snd (tick st))) =
     filter (λ e, isMessage e = true) (trace st))
  ∧ (h1 = h2 →
     isEqualLastChangedBlockHash h1 h2 st = (Ok tt, st) ∧
     verifyMetaDataConsistency h1 h2 st = (Ok tt, st) ∧
     tick st =
       tryFinally
         (tryCatch (processNewState ops opsMeta (data keysResponse)) onError)
         (logger LevelLog "New staking router state cycle end")
         (withTrace st
            [Logged LevelLog (Text "New staking router state cycle start");
             Logged LevelLog (Text "Staking modules loaded")])).
Proof.
  intros Hops Hinit Hneed Hkeys h1 h2. split.
  - intros Hne.
    assert (tick st =
       (Ok tt,
        withTrace st
          [Logged LevelLog (Text "New staking router state cycle start");
           Logged LevelLog (Text "Staking modules loaded");
           Logged LevelError (Text inconsistencyMessage);
           Logged LevelError (Text "Staking router state update error");
           Logged LevelError (Thrown InconsistentLastChangedBlockHash);
           Logged LevelLog (Text "New staking router state cycle end")])) as Htick.
    { unfold handleNewBlock, tryFinally, tryCatch, bind, lift.
      rewrite Hops. simpl. rewrite Hinit, Hneed, Hkeys. simpl.
      fold h1 h2. unfold isEqualLastChangedBlockHash.
      rewrite (bool_decide_eq_false_2 _ Hne). simpl.
      unfold withTrace. simpl. by rewrite <- !app_assoc. }
    split_and!; [| | done |].
    { by rewrite (isEqualLastChangedBlockHash_differ h1 h2 st Hne). }
    { unfold verifyMetaDataConsistency. by rewrite bool_decide_eq_false_2. }
    rewrite Htick. simpl. rewrite filter_app. simpl. by rewrite app_nil_r.
  - intros Heq. rewrite <- Heq. split_and!.
    { apply isEqualLastChangedBlockHash_equal. }
    { unfold verifyMetaDataConsistency. by rewrite bool_decide_eq_true_2. }
    unfold handleNewBlock, tryFinally, tryCatch, bind, lift.
    rewrite Hops. simpl. rewrite Hinit, Hneed, Hkeys. simpl.
    fold h1 h2. rewrite <- Heq. unfold isEqualLastChangedBlockHash.
    rewrite bool_decide_eq_true_2 by done. simpl.
    unfold withTrace. simpl. by rewrite <- !app_assoc.
Qed.
End ConsistencyCheckFacts.

Section ConsistencyCheckExamples.
Import Guardian Fixtures.

(** Spec scenario "inconsistent keys-index": nothing is published. *)
Example inconsistent_tick_is_silent :
  filter (λ e, isMessage e = true) (trace (snd (tickWith "0xH1" "0xH2" freshGuard))) = [].
Proof. vm_compute. reflexivity. Qed.

Example consistent_tick_publishes :
  length (filter (λ e, isMessage e = true)
            (trace (snd (tickWith "0xH1" "0xH1" freshGuard)))) = 1%nat.
Proof. vm_compute. reflexivity. Qed.

Lemma consistency_check_witness :
  (operatorsWith "0xH1" = Ok (tt, snapshotWith "0xH1") ∧
   (λ _ : string, Ok tt) (elBlockHash (snapshotWith "0xH1")) = Ok tt ∧
   (λ (_ : string) (_ : Z), true) "0xb" 21 = true ∧
   keysWith "0xH2" = Ok {| data := []; meta := snapshotWith "0xH2" |})
  ∧ fst (isEqualLastChangedBlockHash "0xH1" "0xH2" freshGuard)
    = Throw InconsistentLastChangedBlockHash
  ∧ filter (λ e, isMessage e = true) (trace (snd (tickWith "0xH1" "0xH2" freshGuard)))
    = filter (λ e, isMessage e = true) (trace freshGuard).
Proof.
  split; [by split_and! |].
  pose proof (consistency_check unit (operatorsWith "0xH1") (λ _, Ok tt)
                (λ _ _, true) (keysWith "0xH2") publishOne tt
                (snapshotWith "0xH1") {| data := []; meta := snapshotWith "0xH2" |}
                freshGuard eq_refl eq_refl eq_refl eq_refl) as [Hdiffer _].
  destruct Hdiffer as (Hthrow & _ & _ & Hsilent); [discriminate |].
  split; [exact Hthrow | exact Hsilent].
Defined.
End ConsistencyCheckExamples.

(** ** The wallet *)

Section WalletFacts.
Import WalletSvc WalletSpec Fixtures.
Local Arguments bigEndian : simpl never.

Variable keccak256 : list Byte.byte → list Byte.byte.
Variable signDigest : string → list Byte.byte → Signature.
Variable computeAddress : string → option string.
Variable createRandom : nat → string.

Local Abbreviation wallet := (wallet computeAddress createRandom).
Local Abbreviation address := (address computeAddress createRandom).
Local Abbreviation signDepositData :=
  (signDepositData keccak256 signDigest computeAddress createRandom).

Lemma length_bigEndian len n : length (bigEndian len n) = len.
Proof.
  revert n. induction len as [| len IH]; intros n; [done |].
  change (bigEndian (S len) n) with (bigEndian len (n / 256) ++ [byteOfZ n]).
  rewrite length_app, IH. simpl. lia.
Qed.

Lemma abiEncode_deposit p :
  wellFormed p →
  abiEncode [bytes32 (prefix p); uint256 (spBlockNumber p);
             bytes32 (spBlockHash p); bytes32 (spDepositRoot p);
             uint256 (spStakingModuleId p); uint256 (keysOpIndex p)]
  = Ok (depositMessageBytes p).
Proof.
  intros (Hp & Hh & Hr & Hn & Hm & Hk).
  unfold abiEncode, encodeArg, depositMessageBytes.
  rewrite !bool_decide_eq_true_2 by done. cbn [result_bind].
  by rewrite app_nil_r.
Qed.

Lemma abiEncode_deposit_throws p :
  ¬ wellFormed p →
  abiEncode [bytes32 (prefix p); uint256 (spBlockNumber p);
             bytes32 (spBlockHash p); bytes32 (spDepositRoot p);
             uint256 (spStakingModuleId p); uint256 (keysOpIndex p)]
  = Throw AbiEncodeError.
Proof.
  intros Hbad. unfold abiEncode, encodeArg.
  repeat (case_bool_decide; cbn [result_bind]; [| done]).
  destruct Hbad. unfold wellFormed. tauto.
Qed.

(** C5: the deposit signature is the ECDSA signature, under the private key
    of the guardian wallet, of the keccak256 hash of the ABI encoding of
    [(bytes32 prefix, uint256 blockNumber, bytes32 blockHash,
    bytes32 depositRoot, uint256 stakingModuleId, uint256 keysOpIndex)];
    for well-formed fields the encoding is the six 32-byte words in this
    order, 192 bytes, and the encoder throws for any other input. *)
Theorem signDepositData_spec p st :
  let args := [bytes32 (prefix p); uint256 (spBlockNumber p);
               bytes32 (spBlockHash p); bytes32 (spDepositRoot p);
               uint256 (spStakingModuleId p); uint256 (keysOpIndex p)] in
  signDepositData p st =
    match abiEncode args with
    | Ok encodedData =>
        match wallet st with
        | (Ok w, st') =>
            (Ok (signDigest (walletKey w) (keccak256 encodedData)), st')
        | (Throw e, st') => (Throw e, st')
        end
    | Throw e => (Throw e, st)
    end
  ∧ (wellFormed p →
       abiEncode args = Ok (depositMessageBytes p) ∧
       length (depositMessageBytes p) = 192%nat)
  ∧ (¬ wellFormed p → abiEncode args = Throw AbiEncodeError).
Proof.
  intros args. split_and!.
  - unfold WalletSvc.signDepositData, signMessage, bind, lift, ret. fold args.
    destruct (abiEncode args) as [enc | e]; [| done].
    by destruct (wallet st) as [[w | e] st'].
  - intros Hwf. split; [by apply abiEncode_deposit |].
    destruct Hwf as (Hp & Hh & Hr & _).
    unfold depositMessageBytes.
    rewrite !length_app, !length_bigEndian, Hp, Hh, Hr. done.
  - apply abiEncode_deposit_throws.
Qed.

Lemma wallet_cached st w :
  cachedWallet st = Some w → wallet st = (Ok w, st).
Proof. intros Hc. unfold WalletSvc.wallet, bind, get. simpl. by rewrite Hc. Qed.

(** C10: with an empty configured private key the first access to the
    wallet draws a random private key and succeeds; the wallet object is
    cached, so every later access returns that very object, constructs no
    other, and the guardian address stays the same. *)
Theorem wallet_random_then_cached st a :
  privateKey st = "" →
  cachedWallet st = None →
  computeAddress (createRandom (drawn st)) = Some a →
  let w := {| walletId := allocated st;
              walletKey := createRandom (drawn st);
              walletAddress := a |} in
  let st1 := snd (wallet st) in
  fst (wallet st) = Ok w
  ∧ cachedWallet st1 = Some w
  ∧ privateKey st1 = createRandom (drawn st)
  ∧ (∀ n, wallet (Nat.iter n (λ s, snd (wallet s)) st1) = (Ok w, st1))
  ∧ address st1 = (Ok a, st1).
Proof.
  intros Hkey Hnone Hrandom w st1.
  assert (wallet st =
          (Ok w, {| privateKey := createRandom (drawn st);
                    cachedWallet := Some w;
                    allocated := S (allocated st);
                    drawn := S (drawn st);
                    warnings := warnings st ++
                      ["Private key is not provided, a random address will be generated for the test run"] |}))
    as Hfirst.
  { unfold WalletSvc.wallet, newWallet, bind, get, modify, ret. simpl.
    rewrite Hnone, Hkey. simpl. by rewrite Hrandom. }
  assert (cachedWallet st1 = Some w) as Hcached by (unfold st1; by rewrite Hfirst).
  split_and!.
  - by rewrite Hfirst.
  - done.
  - unfold st1. by rewrite Hfirst.
  - intros n. induction n as [| n IH]; simpl.
    + by apply wallet_cached.
    + rewrite IH. simpl. by apply wallet_cached.
  - unfold WalletSvc.address, bind, ret. by rewrite (wallet_cached st1 w Hcached).
Qed.
End WalletFacts.

Section WalletExamples.
Import WalletSvc WalletSpec Fixtures.

(** The stake module id precedes the keys operation index in the encoding:
    byte 159 closes the fifth word, byte 191 the sixth. *)
Example deposit_encoding_order :
  (λ enc, (length enc, enc !! 63%nat, enc !! 159%nat, enc !! 191%nat)) <$>
    (match abiEncode [bytes32 (prefix depositParams);
                      uint256 (spBlockNumber depositParams);
                      bytes32 (spBlockHash depositParams);
                      bytes32 (spDepositRoot depositParams);
                      uint256 (spStakingModuleId depositParams);
                      uint256 (keysOpIndex depositParams)] with
     | Ok enc => Some enc
     | Throw _ => None
     end)
  = Some (192%nat, Some Byte.x01, Some Byte.x05, Some Byte.x01).
Proof. vm_compute. reflexivity. Qed.

Lemma wallet_random_then_cached_witness :
  (privateKey noKey = "" ∧ cachedWallet noKey = None ∧
   addressOfKey (randomKeys (drawn noKey)) = Some "addr:0x0123")
  ∧ fst (wallet addressOfKey randomKeys noKey)
    = Ok {| walletId := 0; walletKey := "0x0123"; walletAddress := "addr:0x0123" |}
  ∧ wallet addressOfKey randomKeys
      (Nat.iter 3 (λ s, snd (wallet addressOfKey randomKeys s))
         (snd (wallet addressOfKey randomKeys noKey)))
    = (Ok {| walletId := 0; walletKey := "0x0123"; walletAddress := "addr:0x0123" |},
       snd (wallet addressOfKey randomKeys noKey)).
Proof.
  split; [by split_and! |].
  destruct (wallet_random_then_cached addressOfKey randomKeys noKey "addr:0x0123"
              eq_refl eq_refl eq_refl) as (Hfirst & _ & _ & Hlater & _).
  split; [exact Hfirst | exact (Hlater 3%nat)].
Defined.
End WalletExamples.

(** ** The deposit-event cache *)

Section DepositRegistryFacts.
Import DepositRegistry ChunkSpec.

Variable Tree : Type.
Variable insertLeaves : Tree → list VerifiedDepositEvent → result Tree.
Variable treeRoot : Tree → string.
Variable finalizedTag : string.
Variable getBlock : string → result (Z * string).
Variable get_deposit_root : string → result string.
Variable getDeploymentBlockByNetwork : result Z.
Variable fetchEventsFallOver : Z → Z → result VerifiedDepositedEventGroup.

Local Abbreviation State := (RegistryState Tree).
Local Abbreviation getCachedEvents :=
  (getCachedEvents Tree getDeploymentBlockByNetwork).
Local Abbreviation verifyCacheBlock := (verifyCacheBlock).
Local Abbreviation verifyUpdatedEvents :=
  (verifyUpdatedEvents Tree treeRoot get_deposit_root).
Local Abbreviation verifyFreshEvents :=
  (verifyFreshEvents Tree insertLeaves treeRoot get_deposit_root).
Local Abbreviation reachesRootCheck :=
  (reachesRootCheck Tree insertLeaves treeRoot finalizedTag getBlock
     get_deposit_root getDeploymentBlockByNetwork fetchEventsFallOver).
Local Abbreviation indexChunk :=
  (indexChunk Tree insertLeaves fetchEventsFallOver).
Local Abbreviation indexNewEvents :=
  (indexNewEvents Tree insertLeaves fetchEventsFallOver).
Local Abbreviation updateEventsCache :=
  (updateEventsCache Tree insertLeaves treeRoot finalizedTag getBlock
     get_deposit_root getDeploymentBlockByNetwork fetchEventsFallOver).
Local Abbreviation getAllDepositedEvents :=
  (getAllDepositedEvents Tree insertLeaves treeRoot get_deposit_root
     getDeploymentBlockByNetwork fetchEventsFallOver).



Lemma getCachedEvents_reads (s : State) : snd (getCachedEvents s) = s.
Proof.
  unfold DepositRegistry.getCachedEvents, getEventsCache, bind, get, lift, ret.
  simpl. by destruct getDeploymentBlockByNetwork.
Qed.

Lemma verifyUpdatedEvents_reads hash (s : State) :
  snd (verifyUpdatedEvents hash s) = s.
Proof.
  unfold DepositRegistry.verifyUpdatedEvents, bind, get, lift, ret. simpl.
  by destruct (get_deposit_root hash).
Qed.






(** What a run that reaches the root comparison does afterwards. *)
Lemma updateEventsCache_checked (st : State) fnum fhash cache count lastEv b :
  reachesRootCheck st fnum fhash cache count lastEv b →
  let stl := snd (indexNewEvents cache fnum st) in
  let st' := snd (updateEventsCache st) in
  fst (updateEventsCache st) = Ok tt ∧
  writes st' = writes stl ++
    (if b then if lastEv is Some e then [InsertLastValidEvent e] else [] else []) ∧
  lastValidEvent (store st') =
    (if b then if lastEv is Some e then Some e else lastValidEvent (store stl)
     else lastValidEvent (store stl)) ∧
  logs st' = logs stl ++
    (if b then [] else [(LevelError, "Integrity check failed on block")]) ++
    [(LevelLog, "Deposit events cache is updated")].
Proof.
  intros (Hb & Hc & Hv & Hi & Hu) stl st'. unfold st', stl. clear st' stl.
  unfold DepositRegistry.updateEventsCache, bind, lift. rewrite Hb.
  pose proof (getCachedEvents_reads st) as Hreads.
  destruct (getCachedEvents st) as [rc s0]. simpl in Hc, Hreads. subst rc s0.
  cbn beta iota. rewrite Hv. cbn [negb].
  destruct (indexNewEvents cache fnum st) as [racc stl]. simpl in Hi, Hu. subst racc.
  cbn beta iota.
  pose proof (verifyUpdatedEvents_reads fhash stl) as Hreads.
  destruct (verifyUpdatedEvents fhash stl) as [rv s1]. simpl in Hu, Hreads.
  subst rv s1. cbn beta iota.
  unfold insertLastValidEvent, log, modify, ret.
  destruct b, lastEv as [e |]; simpl; rewrite ?app_nil_r, <- ?app_assoc; done.
Qed.


Lemma windows_tiles lastBlock count firstBlock :
  (firstBlock ≤ lastBlock →
   Z.of_nat count = (lastBlock - firstBlock) / DEPOSIT_EVENTS_STEP + 1) →
  (lastBlock < firstBlock → count = O) →
  tiles firstBlock lastBlock (windows count firstBlock lastBlock).
Proof using Type.
  clear.
  revert firstBlock. induction count as [| count IH]; intros firstBlock Hin Hout.
  - simpl. destruct (decide (firstBlock ≤ lastBlock)) as [Hle | ?]; [| lia].
    specialize (Hin Hle). unfold DEPOSIT_EVENTS_STEP in Hin.
    Z.div_mod_to_equations. lia.
  - assert (firstBlock ≤ lastBlock) as Hle.
    { destruct (decide (firstBlock ≤ lastBlock)); [done |].
      assert (lastBlock < firstBlock) as Hlt by lia. by specialize (Hout Hlt). }
    specialize (Hin Hle). cbn [windows tiles].
    unfold DEPOSIT_EVENTS_STEP in Hin |- *.
    split_and!; [done | lia | lia | lia | lia |].
    destruct (decide (firstBlock + 10000 - 1 < lastBlock)) as [Hmore | Hlast].
    + rewrite Z.min_r by lia.
      replace (firstBlock + 10000 - 1 + 1) with (firstBlock + 10000) by lia.
      apply IH.
      * intros _. unfold DEPOSIT_EVENTS_STEP. Z.div_mod_to_equations. lia.
      * lia.
    + assert (Z.of_nat (S count) = 1) as Hone
        by (Z.div_mod_to_equations; lia).
      assert (count = O) as -> by lia. simpl. lia.
Qed.

Lemma chunkCount_tiles firstBlock lastBlock :
  tiles firstBlock lastBlock
    (windows (chunkCount firstBlock lastBlock) firstBlock lastBlock).
Proof using Type.
  clear.
  apply windows_tiles; unfold chunkCount; intros Hcmp.
  - rewrite bool_decide_eq_true_2 by done.
    rewrite Z2Nat.id; [done |].
    unfold DEPOSIT_EVENTS_STEP. Z.div_mod_to_equations. lia.
  - rewrite bool_decide_eq_false_2 by lia. done.
Qed.

(** One round: what was asked, and what a successful round wrote. *)
Lemma indexChunk_run cache fnum block acc (s : State) :
  let run := indexChunk cache fnum block acc s in
  fetches (snd run) =
    fetches s ++ [(block, Z.min fnum (block + DEPOSIT_EVENTS_STEP - 1))]
  ∧ (∀ e, fst run = Throw e → writes (snd run) = writes s)
  ∧ (∀ acc', fst run = Ok acc' →
       ∃ group,
         fetchEventsFallOver block (Z.min fnum (block + DEPOSIT_EVENTS_STEP - 1))
           = Ok group
         ∧ writes (snd run) = writes s ++ [batchOf cache group]
         ∧ acc'.1 = acc.1 + Z.of_nat (length (events group))
         ∧ acc'.2 = match last (events group) with
                    | Some e => Some e
                    | None => acc.2
                    end).
Proof.
  destruct acc as [count lastEv].
  unfold DepositRegistry.indexChunk, fetch, addEventGroupToIndex,
    insertEventsCacheBatch, log, bind, modify, get, lift, ret. simpl.
  destruct (fetchEventsFallOver _ _) as [group | e]; simpl; [| done].
  destruct (insertLeaves _ _) as [tree' | e]; simpl; [| done].
  split_and!; [done | done |].
  intros acc' [= <-]. by exists group.
Qed.

Lemma forChunks_asked cache fnum count block acc (s : State) :
  let run := forChunks count block (indexChunk cache fnum) acc s in
  ∃ asked rest,
    windows count block fnum = asked ++ rest
    ∧ fetches (snd run) = fetches s ++ asked
    ∧ (∀ acc', fst run = Ok acc' → rest = []).
Proof.
  revert block acc s. induction count as [| count IH]; intros block acc s.
  - exists [], []. simpl. by rewrite app_nil_r.
  - cbn [forChunks windows]. unfold bind.
    destruct (indexChunk_run cache fnum block acc s) as (Hf & _ & _).
    destruct (indexChunk cache fnum block acc s) as [[acc1 | e] s1];
      cbn [fst snd] in Hf |- *.
    + destruct (IH (block + DEPOSIT_EVENTS_STEP) acc1 s1)
        as (asked & rest & Hw & Hfs & Hok).
      exists ((block, Z.min fnum (block + DEPOSIT_EVENTS_STEP - 1)) :: asked), rest.
      split_and!.
      * by rewrite Hw.
      * rewrite Hfs, Hf, <- app_assoc. done.
      * done.
    + eexists [_], _. split_and!; [done | done | done].
Qed.

Lemma forChunks_done cache fnum count block acc (s : State) acc' :
  let run := forChunks count block (indexChunk cache fnum) acc s in
  fst run = Ok acc' →
  ∃ groups,
    Forall2 (λ range group, fetchEventsFallOver range.1 range.2 = Ok group)
      (windows count block fnum) groups
    ∧ writes (snd run) = writes s ++ (batchOf cache <$> groups)
    ∧ acc'.1 = acc.1 + Z.of_nat (length (eventsOf groups))
    ∧ acc'.2 = match last (eventsOf groups) with
               | Some e => Some e
               | None => acc.2
               end.
Proof.
  revert block acc s. induction count as [| count IH]; intros block acc s.
  - simpl. intros [= <-]. exists []. simpl.
    split_and!; [constructor | by rewrite app_nil_r | lia | done].
  - cbn [forChunks windows]. unfold bind.
    destruct (indexChunk_run cache fnum block acc s) as (_ & _ & Hstep).
    destruct (indexChunk cache fnum block acc s) as [[acc1 | e] s1];
      cbn [fst snd] in Hstep |- *; [| done].
    destruct (Hstep acc1 eq_refl) as (group & Hfetch & Hw & Hcount & Hlast).
    intros Hrun.
    destruct (IH (block + DEPOSIT_EVENTS_STEP) acc1 s1 Hrun)
      as (groups & Hall & Hws & Hc & Hl).
    exists (group :: groups). unfold eventsOf in *. rewrite !fmap_cons.
    cbn [concat]. split_and!.
    + by constructor.
    + rewrite Hws, Hw, <- app_assoc. done.
    + rewrite length_app. lia.
    + rewrite Hl, last_app, Hlast.
      by destruct (last (concat (events <$> groups))).
Qed.





(** C9: when the cache fails the block check for the requested block
    number, that is, its end block is greater, [getAllDepositedEvents]
    fetches nothing and throws nothing: it returns the cached events with
    the start and end block of the cache and [isValid = false].  Otherwise
    it fetches the blocks after the cache up to the requested block and
    returns the cached events followed by the fetched ones. *)
Theorem getAllDepositedEvents_spec blockNumber blockHash (st : State) cachedEvents :
  fst (getCachedEvents st) = Ok cachedEvents →
  (hEndBlock (headers cachedEvents) > blockNumber →
     verifyCacheBlock cachedEvents blockNumber = false ∧
     getAllDepositedEvents blockNumber blockHash st =
     (Ok {| events := cacheData cachedEvents;
            startBlock := hStartBlock (headers cachedEvents);
            endBlock := hEndBlock (headers cachedEvents);
            isValid := Some false |}, st))
  ∧ (¬ hEndBlock (headers cachedEvents) > blockNumber →
     ∀ freshEventGroup verdict,
       fetchEventsFallOver (hEndBlock (headers cachedEvents) + 1) blockNumber
         = Ok freshEventGroup →
       fst (verifyFreshEvents blockHash (events freshEventGroup) st) = Ok verdict →
       fst (getAllDepositedEvents blockNumber blockHash st) =
         Ok {| events := cacheData cachedEvents ++ events freshEventGroup;
               startBlock := hStartBlock (headers cachedEvents);
               endBlock := blockNumber;
               isValid := Some verdict |} ∧
       fetches (snd (getAllDepositedEvents blockNumber blockHash st)) =
         fetches st ++ [(hEndBlock (headers cachedEvents) + 1, blockNumber)]).
Proof.
  intros Hc.
  pose proof (getCachedEvents_reads st) as Hreads.
  unfold DepositRegistry.getAllDepositedEvents, bind.
  destruct (getCachedEvents st) as [rc s0]. simpl in Hc, Hreads. subst rc s0.
  cbn beta iota. unfold DepositRegistry.verifyCacheBlock. split.
  - intros Hgt. by rewrite bool_decide_eq_true_2.
  - intros Hle freshEventGroup verdict Hfetch Hverify.
    rewrite bool_decide_eq_false_2 by done. cbn [negb].
    unfold fetch, bind, modify, lift. rewrite Hfetch. cbn beta iota.
    unfold DepositRegistry.verifyFreshEvents, bind, get, lift, ret in Hverify |- *.
    simpl in Hverify |- *.
    destruct (insertLeaves (tree st) (events freshEventGroup)) as [clone | e];
      [| done].
    simpl in Hverify |- *.
    destruct (get_deposit_root blockHash) as [contractRoot | e]; [| done].
    simpl in Hverify |- *. injection Hverify as <-.
    unfold log, modify.
    by destruct (bool_decide (treeRoot clone = contractRoot)).
Qed.
End DepositRegistryFacts.

Section DepositRegistryExamples.
Import DepositRegistry Fixtures.

(** The loop asks for windows of [DEPOSIT_EVENTS_STEP] blocks and stops at
    the finalized block. *)
Example update_fetches_in_chunks :
  fetches syncedRegistry = [(1, 10000); (10001, 20000); (20001, 25000)].
Proof. vm_compute. reflexivity. Qed.

Example update_advances_last_valid :
  lastValidEvent (store syncedRegistry) = Some (mkEvent "0xcc" "0xbad" 24000 3 true)
  ∧ logs syncedRegistry =
    [(LevelLog, "Historical events are fetched");
     (LevelLog, "Historical events are fetched");
     (LevelLog, "Historical events are fetched");
     (LevelLog, "Deposit events cache is updated")].
Proof. vm_compute. done. Qed.

(** A node that reports another root: the events are stored, the last valid
    event is not. *)
Example update_with_root_mismatch :
  let st' := snd (updateChain "0xother" emptyRegistry) in
  fst (updateChain "0xother" emptyRegistry) = Ok tt
  ∧ lastValidEvent (store st') = None
  ∧ cacheData (store st') = chain
  ∧ last (logs st') = Some (LevelLog, "Deposit events cache is updated")
  ∧ (LevelError, "Integrity check failed on block") ∈ logs st'.
Proof. vm_compute. split_and!; try done. do 3 right. left. Qed.

Example stale_node_returns_cache :
  allEventsAt 24000 syncedRegistry =
  (Ok {| events := chain; startBlock := 0; endBlock := 25000;
         isValid := Some false |}, syncedRegistry).
Proof. vm_compute. reflexivity. Qed.

Lemma getAllDepositedEvents_spec_witness :
  fst (getCachedEvents (list string) (Ok 0) syncedRegistry) = Ok (store syncedRegistry)
  ∧ hEndBlock (headers (store syncedRegistry)) > 24000
  ∧ allEventsAt 24000 syncedRegistry =
    (Ok {| events := cacheData (store syncedRegistry);
           startBlock := hStartBlock (headers (store syncedRegistry));
           endBlock := hEndBlock (headers (store syncedRegistry));
           isValid := Some false |}, syncedRegistry).
Proof.
  split; [vm_compute; reflexivity |].
  split; [vm_compute; reflexivity |].
  apply (getAllDepositedEvents_spec (list string) insertPubkeys joinRoot
           (rootAt "0xaa,0xbb,0xcc") (Ok 0) fetchChain 24000 "0xhead"
           syncedRegistry (store syncedRegistry)).
  - vm_compute. reflexivity.
  - vm_compute. reflexivity.
Defined.
End DepositRegistryExamples.

(** ** The BLS validation cache *)

Section KeysValidationFacts.
Import KeysValidation Fixtures.

Variable verify : string → string → string → bool.

Local Abbreviation getInvalidKeys := (getInvalidKeys verify).
Local Abbreviation entryFor wc k :=
  {| ceSignature := depositSignature k; ceWC := wc;
     ceValid := verify (key k) (depositSignature k) wc |}.
Local Abbreviation store wc :=
  (λ (cache : gmap string CacheEntry) '(k, verdict),
     <[key k := {| ceSignature := depositSignature k; ceWC := wc;
                   ceValid := verdict |}]> cache).

Lemma getInvalidKeys_run keys wc st :
  getInvalidKeys keys wc st =
  let missed := filter (λ k, ¬ cacheHit (keysCache st) wc k) keys in
  (Ok (filter (λ k, verdictOf verify (keysCache st) wc k = false) keys),
   {| keysCache :=
        foldl (store wc) (keysCache st)
              ((λ k, (k, verify (key k) (depositSignature k) wc)) <$> missed);
      validateKeysCalls := validateKeysCalls st ++ [missed] |}).
Proof. reflexivity. Qed.

(** The entry of a public key after a batch was stored: that of the last
    key of the batch with this public key, if there is one. *)
Lemma stored_lookup (batch : list RegistryKey) wc cache pk :
  foldl (store wc) cache
        ((λ k, (k, verify (key k) (depositSignature k) wc)) <$> batch) !! pk =
  match last (filter (λ k, key k = pk) batch) with
  | Some k => Some (entryFor wc k)
  | None => cache !! pk
  end.
Proof.
  induction batch as [| x batch IH] using rev_ind; [done |].
  rewrite fmap_app, foldl_app, filter_app, last_app. simpl.
  rewrite filter_cons, filter_nil.
  destruct (decide (key x = pk)) as [<- | Hne]; simpl.
  - by rewrite lookup_insert_eq.
  - by rewrite lookup_insert_ne.
Qed.

Lemma verdictOf_hit cache wc k entry :
  cache !! key k = Some entry →
  ceSignature entry = depositSignature k → ceWC entry = wc →
  verdictOf verify cache wc k = ceValid entry.
Proof.
  intros Hlook Hsig Hwc. unfold verdictOf. rewrite Hlook.
  by rewrite bool_decide_eq_true_2.
Qed.

Lemma verdictOf_miss cache wc k :
  ¬ cacheHit cache wc k →
  verdictOf verify cache wc k = verify (key k) (depositSignature k) wc.
Proof.
  intros Hmiss. unfold verdictOf.
  destruct (cache !! key k) as [entry |] eqn:Hlook; [| done].
  case_bool_decide as Hpair; [| done].
  destruct Hmiss. exists entry. by destruct Hpair.
Qed.

(** After a call on a list without conflicting signatures, every key of the
    list hits the cache, with the verdict the call gave it. *)
Lemma getInvalidKeys_caches keys wc st :
  sameSignaturePerPubkey keys →
  ∀ k, k ∈ keys →
    ∃ entry,
      keysCache (snd (getInvalidKeys keys wc st)) !! key k = Some entry ∧
      ceSignature entry = depositSignature k ∧ ceWC entry = wc ∧
      ceValid entry = verdictOf verify (keysCache st) wc k.
Proof.
  intros Hsame k Hk. rewrite getInvalidKeys_run. cbn zeta. simpl.
  rewrite stored_lookup.
  set (missed := filter (λ k, ¬ cacheHit (keysCache st) wc k) keys).
  destruct (last (filter (λ k0, key k0 = key k) missed)) as [k' |] eqn:Hlast.
  - assert (k' ∈ filter (λ k0, key k0 = key k) missed) as Hin.
    { apply list_elem_of_lookup. rewrite last_lookup in Hlast. eauto. }
    apply list_elem_of_filter in Hin as [Hkey Hin].
    apply list_elem_of_filter in Hin as [Hmiss Hin].
    assert (depositSignature k' = depositSignature k) as Hsig
      by (by apply Hsame).
    exists (entryFor wc k'). simpl. split_and!; [done.. |].
    rewrite verdictOf_miss; [by rewrite Hkey, Hsig |].
    intros (entry & Hlook & Hs & Hw). apply Hmiss.
    exists entry. by rewrite Hkey, Hsig.
  - apply last_None in Hlast.
    destruct (decide (cacheHit (keysCache st) wc k)) as [Hhit | Hmiss].
    + destruct Hhit as (entry & Hlook & Hs & Hw).
      exists entry. split_and!; [done.. |].
      by rewrite (verdictOf_hit _ _ _ entry).
    + assert (k ∈ filter (λ k0, key k0 = key k) missed) as Hin.
      { apply list_elem_of_filter. split; [done |].
        apply list_elem_of_filter. done. }
      rewrite Hlast in Hin. inversion Hin.
Qed.

(** C6, amended: let no two keys of [K] carry one public key with different
    signatures.  After [getInvalidKeys K wc], the same call again hands the
    verifier the empty list and returns the same invalid keys; if the
    signature of one key of [K] is changed, the verifier receives exactly
    that key.  In every call [validateKeys] receives precisely the keys
    whose (depositSignature, wc) pair is not the cached pair of their public
    key. *)
Theorem validation_cache K wc st0 :
  sameSignaturePerPubkey K →
  let first := getInvalidKeys K wc st0 in
  let st1 := snd first in
  let second := getInvalidKeys K wc st1 in
  (validateKeysCalls (snd second) = validateKeysCalls st1 ++ [[]] ∧
   fst second = fst first)
  ∧ (∀ K1 k K2 sig',
        K = K1 ++ k :: K2 → sig' ≠ depositSignature k →
        validateKeysCalls
          (snd (getInvalidKeys (K1 ++ withSignature k sig' :: K2) wc st1))
        = validateKeysCalls st1 ++ [[withSignature k sig']])
  ∧ (∀ keys wc' st,
        validateKeysCalls (snd (getInvalidKeys keys wc' st)) =
        validateKeysCalls st ++
          [filter (λ k, ¬ cacheHit (keysCache st) wc' k) keys]).
Proof.
  intros Hsame first st1 second.
  pose proof (getInvalidKeys_caches K wc st0 Hsame) as Hcached.
  fold first in Hcached. fold st1 in Hcached.
  assert (∀ k, k ∈ K → cacheHit (keysCache st1) wc k) as Hhit.
  { intros k Hk. destruct (Hcached k Hk) as (entry & ? & ? & ? & _).
    by exists entry. }
  assert (fst first =
          Ok (filter (λ k, verdictOf verify (keysCache st0) wc k = false) K))
    as Hfirst by done.
  clearbody st1. clearbody first.
  split_and!.
  - unfold second. rewrite getInvalidKeys_run. cbn zeta. simpl.
    rewrite filter_none; [done |]. intros k Hk Hmiss. by apply Hmiss, Hhit.
  - unfold second. rewrite getInvalidKeys_run. cbn zeta. simpl.
    rewrite Hfirst. f_equal.
    apply filter_iff_on. intros k Hk.
    destruct (Hcached k Hk) as (entry & Hlook & Hs & Hw & Hv).
    by rewrite (verdictOf_hit _ _ _ entry), Hv.
  - intros K1 k K2 sig' HK Hsig.
    assert (¬ cacheHit (keysCache st1) wc (withSignature k sig')) as Hmiss.
    { intros (entry & Hlook & Hs & _). simpl in Hlook, Hs.
      destruct (Hcached k) as (entry' & Hlook' & Hs' & _);
        [rewrite HK; apply elem_of_app; right; left |].
      congruence. }
    rewrite getInvalidKeys_run. cbn zeta. simpl. do 2 f_equal.
    rewrite filter_app, filter_cons_True by done.
    rewrite !filter_none; [done | |].
    + intros x Hx Hmiss'. apply Hmiss', Hhit. rewrite HK.
      apply elem_of_app. right. by right.
    + intros x Hx Hmiss'. apply Hmiss', Hhit. rewrite HK.
      apply elem_of_app. by left.
  - intros keys wc' st. by rewrite getInvalidKeys_run.
Qed.
End KeysValidationFacts.

Section KeysValidationExamples.
Import KeysValidation Fixtures.

(** The three steps of the validation test. *)
Example validation_test_scenario :
  let st1 := snd (getInvalidKeys verifyToy testKeys "0xwc" emptyValidation) in
  let fixed := [mkKey "0xk1" "0xs1"; mkKey "0xk2" "0xs2"; mkKey "0xk3" "0xbad";
                mkKey "0xk4" "0xgood"] in
  fst (getInvalidKeys verifyToy testKeys "0xwc" emptyValidation)
    = Ok [mkKey "0xk3" "0xbad"; mkKey "0xk4" "0xbad"]
  ∧ validateKeysCalls st1 = [testKeys]
  ∧ getInvalidKeys verifyToy testKeys "0xwc" st1
    = (Ok [mkKey "0xk3" "0xbad"; mkKey "0xk4" "0xbad"],
       {| keysCache := keysCache st1; validateKeysCalls := [testKeys; []] |})
  ∧ fst (getInvalidKeys verifyToy fixed "0xwc" st1) = Ok [mkKey "0xk3" "0xbad"]
  ∧ validateKeysCalls (snd (getInvalidKeys verifyToy fixed "0xwc" st1))
    = [testKeys; [mkKey "0xk4" "0xgood"]].
Proof. vm_compute. done. Qed.

(** C6 as written fails for a list that offers one public key with two
    signatures: the cache keeps one of them, and the repeated call hands the
    other key to the verifier again. *)
Lemma repeated_call_revalidates_conflicting_keys :
  let st1 := snd (getInvalidKeys verifyToy conflictingKeys "0xwc" emptyValidation) in
  validateKeysCalls (snd (getInvalidKeys verifyToy conflictingKeys "0xwc" st1))
  ≠ validateKeysCalls st1 ++ [[]].
Proof. vm_compute. discriminate. Qed.

Lemma validation_cache_witness :
  sameSignaturePerPubkey testKeys
  ∧ validateKeysCalls
      (snd (getInvalidKeys verifyToy testKeys "0xwc"
              (snd (getInvalidKeys verifyToy testKeys "0xwc" emptyValidation))))
    = validateKeysCalls
        (snd (getInvalidKeys verifyToy testKeys "0xwc" emptyValidation)) ++ [[]].
Proof.
  assert (sameSignaturePerPubkey testKeys) as Hsame.
  { intros k1 k2 H1 H2. unfold testKeys in H1, H2.
    repeat (apply elem_of_cons in H1 as [-> | H1]);
      try (by apply elem_of_nil in H1);
      repeat (apply elem_of_cons in H2 as [-> | H2]);
      try (by apply elem_of_nil in H2); done. }
  split; [exact Hsame |].
  apply (validation_cache verifyToy testKeys "0xwc" emptyValidation Hsame).
Defined.
End KeysValidationExamples.

(** ** The re-entrancy guard *)

Section OneAtTimeFacts.
Import OneAtTime.

Lemma guarded_init : guarded init.
Proof. by unfold guarded. Qed.

Lemma guarded_step i s s' : guarded s → step i s = Some s' → guarded s'.
Proof.
  destruct s as [flag pc1 pc2 n c w].
  intros (Hflag & Hexcl & Hn & Hc & Hw) Hstep.
  unfold step in Hstep. simpl in *.
  destruct i, pc1 as [| [] | []], pc2 as [| [] | []]; simpl in *; subst;
    simpl in *; try discriminate; injection Hstep as <-;
    unfold guarded; simpl; split_and!; done.
Qed.

Lemma guarded_run schedule s s' :
  guarded s → run schedule s = Some s' → guarded s'.
Proof.
  revert s. induction schedule as [| i rest IH]; intros s Hg Hrun; simpl in Hrun.
  - by injection Hrun as <-.
  - destruct (step i s) as [s1 |] eqn:Hstep; [| done].
    eapply IH; [| done]. by eapply guarded_step.
Qed.

(** An invocation that returned at once stays so; one in flight can only
    go on to return having run. *)
Lemma step_keeps_skipped i j s s' :
  step i s = Some s' → pcOf j s = Returned false → pcOf j s' = Returned false.
Proof.
  destruct s as [flag pc1 pc2 n c w]. unfold step.
  destruct i, j, pc1 as [| [] | []], pc2 as [| [] | []], flag; simpl;
    intros Hstep Hpc; try discriminate; by injection Hstep as <-.
Qed.

Lemma step_keeps_running i j s s' :
  step i s = Some s' →
  isInFlight (pcOf j s) = true ∨ pcOf j s = Returned true →
  isInFlight (pcOf j s') = true ∨ pcOf j s' = Returned true.
Proof.
  destruct s as [flag pc1 pc2 n c w]. unfold step.
  destruct i, j, pc1 as [| [] | []], pc2 as [| [] | []], flag; simpl;
    intros Hstep Hpc; try discriminate; injection Hstep as <-; simpl;
    try (destruct Hpc; discriminate); auto.
Qed.

Lemma run_keeps schedule j k s s' :
  run schedule s = Some s' →
  pcOf j s = Returned false →
  isInFlight (pcOf k s) = true ∨ pcOf k s = Returned true →
  pcOf j s' = Returned false ∧
  (isInFlight (pcOf k s') = true ∨ pcOf k s' = Returned true).
Proof.
  revert s. induction schedule as [| i rest IH]; intros s Hrun Hj Hk;
    simpl in Hrun.
  - by injection Hrun as <-.
  - destruct (step i s) as [s1 |] eqn:Hstep; [| done].
    apply (IH s1); [done | | ].
    + by eapply step_keeps_skipped.
    + by eapply step_keeps_running.
Qed.

(** C8: let the system be reached from the start by any interleaving, with
    one invocation of the guarded pause in flight (its transaction not yet
    mined) and the other not yet made.  The other invocation, made now,
    returns at once and changes nothing but its own status; and whenever
    both invocations have returned, the contract method, the wait for the
    transaction and the request for the signer were each called once. *)
Theorem one_at_time pending late before s :
  late = other pending →
  run before init = Some s →
  isInFlight (pcOf pending s) = true →
  pcOf late s = NotCalled →
  step late s = Some (setPc late (Returned false) s)
  ∧ ∀ after s',
      run after (setPc late (Returned false) s) = Some s' →
      hasReturned (pcOf pending s') = true →
      hasReturned (pcOf late s') = true →
      contractCalls s' = 1%nat ∧ waitCalls s' = 1%nat ∧ signerRequests s' = 1%nat.
Proof.
  intros -> Hbefore Hpending Hlate.
  pose proof (guarded_run before init s guarded_init Hbefore) as Hs.
  assert (isExecuting s = true) as Hflag.
  { destruct Hs as (Hflag & _). rewrite Hflag.
    destruct pending; simpl in Hpending; rewrite Hpending; [done |].
    by rewrite orb_true_r. }
  assert (step (other pending) s = Some (setPc (other pending) (Returned false) s))
    as Hstep.
  { unfold step. by rewrite Hlate, Hflag. }
  split; [done |].
  intros after s' Hafter Hdone1 Hdone2.
  assert (run (other pending :: after) s = Some s') as Hrun
    by (simpl; by rewrite Hstep).
  pose proof (guarded_run _ _ _ Hs Hrun) as (_ & _ & Hn & Hc & Hw).
  destruct (run_keeps after (other pending) pending _ s' Hafter) as [Hskip Hran].
  { by destruct pending, s. }
  { left. by destruct pending, s. }
  destruct Hran as [Hran | Hran].
  { destruct (pcOf pending s'); done. }
  destruct pending; simpl in Hskip, Hran; rewrite Hskip, Hran in Hn, Hc, Hw;
    simpl in Hn, Hc, Hw; done.
Qed.
End OneAtTimeFacts.

Section OneAtTimeExamples.
Import OneAtTime.

(** The test "should exit if the previous call is not completed": both
    calls are made before the first one is resumed. *)
Example overlapping_calls :
  run [FirstCall; SecondCall; FirstCall; FirstCall; FirstCall] init =
  Some {| isExecuting := false; pcFirst := Returned true;
          pcSecond := Returned false; signerRequests := 1;
          contractCalls := 1; waitCalls := 1 |}.
Proof. reflexivity. Qed.

(** Calls that do not overlap both reach the contract. *)
Example sequential_calls :
  contractCalls <$>
    run [FirstCall; FirstCall; FirstCall; FirstCall;
         SecondCall; SecondCall; SecondCall; SecondCall] init
  = Some 2%nat.
Proof. reflexivity. Qed.

Lemma one_at_time_witness :
  let s := {| isExecuting := true; pcFirst := InFlight AwaitSubmit;
              pcSecond := NotCalled; signerRequests := 1;
              contractCalls := 1; waitCalls := 0 |} in
  let s' := {| isExecuting := false; pcFirst := Returned true;
               pcSecond := Returned false; signerRequests := 1;
               contractCalls := 1; waitCalls := 1 |} in
  (SecondCall = other FirstCall ∧
   run [FirstCall; FirstCall] init = Some s ∧
   isInFlight (pcOf FirstCall s) = true ∧
   pcOf SecondCall s = NotCalled)
  ∧ step SecondCall s = Some (setPc SecondCall (Returned false) s)
  ∧ (run [FirstCall; FirstCall] (setPc SecondCall (Returned false) s) = Some s' ∧
     contractCalls s' = 1%nat ∧ waitCalls s' = 1%nat ∧ signerRequests s' = 1%nat).
Proof.
  intros s s'. split; [by split_and! |].
  destruct (one_at_time FirstCall SecondCall [FirstCall; FirstCall] s
              eq_refl eq_refl eq_refl eq_refl) as [Hskip Hfinal].
  split; [exact Hskip |].
  split; [reflexivity |].
  exact (Hfinal [FirstCall; FirstCall] s' eq_refl eq_refl eq_refl).
Defined.
End OneAtTimeExamples.

(** * Further properties of the services *)

(** ** Ordering of deposit events and the dictionary of Lido deposits *)

Section EventOrderFacts.
Import StakingModuleGuard FrontRunSpec PubkeySpec.

(** X1: [isFirstEventEarlier] is a strict order on the positions of events:
    no event is earlier than itself, two events are never earlier than each
    other, the relation is transitive, and two events neither of which is
    earlier share block number and log index. *)
Theorem isFirstEventEarlier_strict_order :
  (∀ a, isFirstEventEarlier a a = false)
  ∧ (∀ a b, isFirstEventEarlier a b = true → isFirstEventEarlier b a = false)
  ∧ (∀ a b c, isFirstEventEarlier a b = true → isFirstEventEarlier b c = true →
              isFirstEventEarlier a c = true)
  ∧ (∀ a b, isFirstEventEarlier a b = false → isFirstEventEarlier b a = false →
            blockNumber a = blockNumber b ∧ logIndex a = logIndex b).
Proof.
  assert (∀ a b, isFirstEventEarlier a b = false ↔ ¬ earlier a b) as Hfalse.
  { intros a b. rewrite <- isFirstEventEarlier_earlier.
    by destruct (isFirstEventEarlier a b). }
  split_and!.
  - intros a. apply Hfalse. unfold earlier. lia.
  - intros a b Hab%isFirstEventEarlier_earlier. apply Hfalse.
    unfold earlier in *. lia.
  - intros a b c Hab%isFirstEventEarlier_earlier Hbc%isFirstEventEarlier_earlier.
    apply isFirstEventEarlier_earlier. unfold earlier in *. lia.
  - intros a b Hab%Hfalse Hba%Hfalse. unfold earlier in *. lia.
Qed.

(** X2: read at a hex public key, the dictionary built by
    [getHistoricalFrontRun] has an entry exactly when some event is a valid
    deposit with the Lido withdrawal credentials for that key, and the entry
    is such a deposit that no other one precedes.  The statement is about
    hex keys only: at the name of a member of [Object.prototype], such as
    [constructor], the object of the source answers with that member, which
    the finite map does not hold. *)
Theorem potentialLidoDepositsKeysMap_earliest evs lido pk
    (Hhex : isHexKey pk = true) :
  let m := potentialLidoDepositsKeysMap evs lido in
  (m !! pk = None ↔ ∀ L, L ∈ evs → ¬ lidoDepositOf lido pk L)
  ∧ (∀ L, m !! pk = Some L →
          L ∈ evs ∧ pubkey L = pk ∧ wc L = lido ∧ valid L = true ∧
          ∀ L', L' ∈ evs → lidoDepositOf lido pk L' →
                isFirstEventEarlier L' L = false).
Proof.
  intros m. pose proof (lidoMap_lookup evs lido pk) as Hm. fold m in Hm.
  destruct (m !! pk) as [L0 |].
  - destruct Hm as (Hin & (Hk & Hwc & Hv) & Hmin). split.
    + split; [done |]. intros Hnone. destruct (Hnone L0 Hin). done.
    + intros L [= <-]. split_and!; [done.. |].
      intros L' HL' Hd. rewrite Forall_forall in Hmin.
      specialize (Hmin L' HL' Hd).
      destruct (isFirstEventEarlier L' L0) eqn:He; [| done].
      by apply isFirstEventEarlier_earlier in He.
  - rewrite Forall_forall in Hm. split; [done | done].
Qed.

(** X3: the filters of [getHistoricalFrontRun] never throw, so its error
    "expected event not found" cannot occur and an exception can only come
    from the keys-index.  At most one request is sent, never with an empty
    list, and every public key in it has a valid foreign deposit earlier than
    a valid Lido deposit of the same key.  Without a request the answer is
    [false]. *)
Theorem getHistoricalFrontRun_requests
    (keysFind : list string → result KeyListResponse) bd sent :
  let evs := events (depositedEvents bd) in
  let run := getHistoricalFrontRun keysFind bd sent in
  (∃ l, frontRunnedDepositEvents evs (lidoWC bd) = Ok l)
  ∧ (snd run = sent ∨
     ∃ pks, pks ≠ [] ∧ snd run = sent ++ [pks] ∧
       ∀ pk, pk ∈ pks →
         ∃ E L, E ∈ evs ∧ L ∈ evs ∧ pubkey E = pk ∧ pubkey L = pk ∧
                valid E = true ∧ wc E ≠ lidoWC bd ∧
                wc L = lidoWC bd ∧ valid L = true ∧
                isFirstEventEarlier E L = true)
  ∧ (∀ e, fst run = Throw e →
          ∃ pks, snd run = sent ++ [pks] ∧ keysFind pks = Throw e)
  ∧ (snd run = sent → fst run = Ok false).
Proof.
  intros evs run. unfold run. rewrite getHistoricalFrontRun_unfold. fold evs.
  set (flagged := flaggedPubkeys (frontRuns evs (lidoWC bd)) evs).
  split; [rewrite frontRunnedDepositEvents_spec; eauto |].
  case_bool_decide as Hfl; simpl.
  - split_and!; [by left | by intros e [=] | done].
  - assert (∀ pk, pk ∈ flagged →
        ∃ E L, E ∈ evs ∧ L ∈ evs ∧ pubkey E = pk ∧ pubkey L = pk ∧
               valid E = true ∧ wc E ≠ lidoWC bd ∧
               wc L = lidoWC bd ∧ valid L = true ∧
               isFirstEventEarlier E L = true) as Hpk.
    { intros pk (E & -> & HE)%list_elem_of_fmap.
      apply list_elem_of_filter in HE as [(Hv & Hwc & Hex) HE].
      apply Exists_exists in Hex as (L & HL & ((Hk & HwL & HvL) & _) & Hearly).
      exists E, L. split_and!; try done.
      by apply isFirstEventEarlier_earlier. }
    assert (∀ l : list (list string), l ++ [flagged] ≠ l) as Hgrow.
    { intros l Heq. apply (f_equal length) in Heq.
      rewrite length_app in Heq. simpl in Heq. lia. }
    destruct (keysFind flagged) as [resp | err] eqn:Hfind; simpl.
    + split_and!; [right; by exists flagged | by intros e [=] |].
      intros Heq. by apply Hgrow in Heq.
    + split_and!; [right; by exists flagged | |].
      * intros e [= <-]. by exists flagged.
      * intros Heq. by apply Hgrow in Heq.
Qed.

(** X4: the deposits that [excludeEligibleIntersections] keeps of
    [getKeysIntersections] are the valid foreign deposits whose public key is
    a vetted unused key of the module, and they match the keys that
    [getFrontRunAttempts] reports: every such deposit has a reported key,
    every reported key has such a deposit, and one list is empty exactly when
    the other is. *)
Theorem front_run_deposits_and_keys smd bd :
  let attempts := excludeEligibleIntersections bd (getKeysIntersections smd bd) in
  let keys := getFrontRunAttempts smd bd in
  (∀ e, e ∈ attempts ↔
        e ∈ events (depositedEvents bd) ∧ wc e ≠ lidoWC bd ∧ valid e = true ∧
        ∃ k, k ∈ vettedUnusedKeys smd ∧ key k = pubkey e)
  ∧ (∀ e, e ∈ attempts → ∃ k, k ∈ keys ∧ key k = pubkey e)
  ∧ (∀ k, k ∈ keys → ∃ e, e ∈ attempts ∧ pubkey e = key k)
  ∧ (keys = [] ↔ attempts = []).
Proof.
  intros attempts keys.
  assert (∀ e, e ∈ attempts ↔
        e ∈ events (depositedEvents bd) ∧ wc e ≠ lidoWC bd ∧ valid e = true ∧
        ∃ k, k ∈ vettedUnusedKeys smd ∧ key k = pubkey e) as Hatt.
  { intros e. unfold attempts, excludeEligibleIntersections, getKeysIntersections.
    rewrite !list_elem_of_filter, elem_of_list_to_set, list_elem_of_fmap.
    split.
    - intros ((? & ?) & (k & ? & ?) & ?). split_and!; try done. by exists k.
    - intros (? & ? & ? & k & ? & ?). split_and!; try done. by exists k. }
  assert (∀ k, k ∈ keys ↔
        k ∈ vettedUnusedKeys smd ∧ ∃ e, e ∈ attempts ∧ pubkey e = key k) as Hkeys.
  { intros k. unfold keys, getFrontRunAttempts. fold attempts.
    rewrite list_elem_of_filter, elem_of_list_to_set, list_elem_of_fmap.
    split.
    - intros [(e & ? & ?) ?]. split; [done |]. by exists e.
    - intros [? (e & ? & ?)]. split; [| done]. by exists e. }
  assert (∀ e, e ∈ attempts → ∃ k, k ∈ keys ∧ key k = pubkey e) as Hfwd.
  { intros e He. pose proof He as (_ & _ & _ & k & Hk & Hpk)%Hatt.
    exists k. split; [| done]. apply Hkeys. split; [done |]. by exists e. }
  split_and!; [done | done | |].
  - intros k (_ & e & He & Hpk)%Hkeys. by exists e.
  - split.
    + intros Hnil. destruct attempts as [| e rest] eqn:Ha; [done |].
      destruct (Hfwd e) as (k & Hk & _); [left |].
      rewrite Hnil in Hk. inversion Hk.
    + intros Hnil. destruct keys as [| k rest] eqn:Hk; [done |].
      assert (k ∈ k :: rest) as Hin by left.
      apply Hkeys in Hin as (_ & e & He & _).
      rewrite Hnil in He. inversion He.
Qed.
End EventOrderFacts.

Section EventOrderExamples.
Import StakingModuleGuard FrontRunSpec PubkeySpec Fixtures.

(** The member names of [Object.prototype] are not hex keys. *)
Example prototype_names_are_not_hex_keys :
  isHexKey "constructor" = false ∧ isHexKey "__proto__" = false
  ∧ isHexKey "toString" = false.
Proof. by vm_compute. Qed.

Lemma potentialLidoDepositsKeysMap_earliest_witness :
  isHexKey "0xaa" = true
  ∧ potentialLidoDepositsKeysMap chain "0xlido" !! "0xaa" =
    Some (mkEvent "0xaa" "0xlido" 5 0 true)
  ∧ mkEvent "0xaa" "0xlido" 5 0 true ∈ chain
  ∧ isFirstEventEarlier (mkEvent "0xaa" "0xlido" 5 0 true)
      (mkEvent "0xaa" "0xlido" 5 0 true) = false.
Proof.
  destruct (potentialLidoDepositsKeysMap_earliest chain "0xlido" "0xaa" eq_refl)
    as [_ Hentry].
  assert (potentialLidoDepositsKeysMap chain "0xlido" !! "0xaa" =
          Some (mkEvent "0xaa" "0xlido" 5 0 true)) as Hlookup
    by (vm_compute; reflexivity).
  destruct (Hentry _ Hlookup) as (Hin & _ & _ & _ & Hmin).
  split_and!; [reflexivity | exact Hlookup | exact Hin |].
  apply Hmin; [exact Hin |]. vm_compute. tauto.
Defined.
End EventOrderExamples.

(** ** More on the state-change gate *)

Section StateChangeGateMore.
Import StakingModuleGuard Fixtures.
Local Arguments isSameContractsStates : simpl never.

Variable window : Z.
Variable signDepositData : string → Z → Z → string → Z → result Signature.
Variable sendDepositMessage : DepositMessage → result unit.

Local Abbreviation isSame := (isSameContractsStates window).
Local Abbreviation handle :=
  (handleCorrectKeys window signDepositData sendDepositMessage).

Lemma handleCorrectKeys_sign_fails smd bd st err :
  isSame (Some (currentContractState smd bd))
         (lastContractsStateByModuleId st !! stakingModuleId smd) = false →
  signDepositData (depositRoot bd) (nonce smd) (bdBlockNumber bd)
                  (bdBlockHash bd) (stakingModuleId smd) = Throw err →
  fst (handle smd bd st) = Throw err ∧
  trace (snd (handle smd bd st)) =
    trace st ++ [SignDepositDataCall (depositRoot bd) (nonce smd)
                   (bdBlockNumber bd) (bdBlockHash bd) (stakingModuleId smd)].
Proof.
  intros Hsame Hsig.
  unfold handleCorrectKeys, bind, get, modify, logger, emit, lift. simpl.
  rewrite Hsame. simpl. by rewrite Hsig.
Qed.

Lemma handleCorrectKeys_quiet_after smd1 bd1 smd2 bd2 st :
  stakingModuleId smd1 = stakingModuleId smd2 →
  depositRoot bd1 = depositRoot bd2 →
  smLastChangedBlockHash smd1 = smLastChangedBlockHash smd2 →
  bdBlockNumber bd1 / window = bdBlockNumber bd2 / window →
  lastContractsStateByModuleId st !! stakingModuleId smd1 =
    Some (currentContractState smd1 bd1) →
  fst (handle smd2 bd2 st) = Ok tt ∧
  filter (λ e, isLogged e = false) (trace (snd (handle smd2 bd2 st))) =
  filter (λ e, isLogged e = false) (trace st).
Proof.
  intros Hid Hroot Hhash Hwin Hlast.
  assert (isSame (Some (currentContractState smd2 bd2))
            (lastContractsStateByModuleId st !! stakingModuleId smd2) = true)
    as Hsame.
  { rewrite <- Hid, Hlast. apply isSameContractsStates_true.
    exists (currentContractState smd2 bd2), (currentContractState smd1 bd1).
    simpl. by rewrite Hroot, Hhash, Hwin. }
  destruct (handleCorrectKeys_unchanged window signDepositData sendDepositMessage
              smd2 bd2 st Hsame) as [Hr Ht].
  split; [done |]. rewrite Ht, filter_app. simpl. by rewrite app_nil_r.
Qed.

(** X5: when the signer fails in [handleCorrectKeys], the exception leaves
    the method and no deposit message is sent, but the current state has
    already been stored: the next call for the same module with the same
    deposit root and [lastChangedBlockHash] in the same window finds the
    state unchanged, so it neither asks for a signature nor sends a
    message. *)
Theorem failed_signature_is_not_retried smd1 bd1 smd2 bd2 st0 err
    (Hwindow : 0 < window)
    (Hid : stakingModuleId smd1 = stakingModuleId smd2)
    (Hroot : depositRoot bd1 = depositRoot bd2)
    (Hhash : smLastChangedBlockHash smd1 = smLastChangedBlockHash smd2)
    (Hwin : bdBlockNumber bd1 / window = bdBlockNumber bd2 / window)
    (Hdiff : isSame (Some (currentContractState smd1 bd1))
               (lastContractsStateByModuleId st0 !! stakingModuleId smd1) = false)
    (Hsig : signDepositData (depositRoot bd1) (nonce smd1) (bdBlockNumber bd1)
              (bdBlockHash bd1) (stakingModuleId smd1) = Throw err) :
  let tick1 := handle smd1 bd1 st0 in
  let tick2 := handle smd2 bd2 (snd tick1) in
  fst tick1 = Throw err
  ∧ filter (λ e, isMessage e = true) (trace (snd tick1)) =
    filter (λ e, isMessage e = true) (trace st0)
  ∧ fst tick2 = Ok tt
  ∧ filter (λ e, isLogged e = false) (trace (snd tick2)) =
    filter (λ e, isLogged e = false) (trace (snd tick1)).
Proof.
  intros tick1 tick2.
  destruct (handleCorrectKeys_sign_fails smd1 bd1 st0 err Hdiff Hsig) as [Hr Ht].
  split; [done |]. split.
  { unfold tick1. rewrite Ht, filter_app. simpl. by rewrite app_nil_r. }
  apply (handleCorrectKeys_quiet_after smd1 bd1); try done.
  unfold tick1. by rewrite handleCorrectKeys_stores, lookup_insert_eq.
Qed.

(** X6: [isSameContractsStates] is false as soon as one state is missing; on
    present states it is reflexive, symmetric and transitive, and it does not
    look at the nonce. *)
Theorem isSameContractsStates_equivalence :
  (∀ s, isSameContractsStates window None s = false ∧ isSameContractsStates window s None = false)
  ∧ (∀ s, isSameContractsStates window (Some s) (Some s) = true)
  ∧ (∀ a b, isSameContractsStates window a b = isSameContractsStates window b a)
  ∧ (∀ a b c, isSameContractsStates window a b = true → isSameContractsStates window b c = true → isSameContractsStates window a c = true)
  ∧ (∀ f s n,
        isSameContractsStates window (Some {| csDepositRoot := csDepositRoot f; csNonce := n;
                        csBlockNumber := csBlockNumber f;
                        csLastChangedBlockHash := csLastChangedBlockHash f |})
               (Some s)
        = isSameContractsStates window (Some f) (Some s)).
Proof.
  split_and!.
  - intros [s |]; by unfold isSameContractsStates.
  - intros s. apply isSameContractsStates_true. by exists s, s.
  - assert (∀ a b, isSame a b = true → isSame b a = true) as Hsym.
    { intros a b (f & s & -> & -> & ? & ? & ?)%isSameContractsStates_true.
      apply isSameContractsStates_true. by exists s, f. }
    intros a b. destruct (isSame a b) eqn:Hab.
    + symmetry. by apply Hsym.
    + destruct (isSame b a) eqn:Hba; [| done].
      apply Hsym in Hba. congruence.
  - intros a b c (f & s & -> & -> & Hr & Hh & Hw)%isSameContractsStates_true
                 (s' & t & [= <-] & -> & Hr' & Hh' & Hw')%isSameContractsStates_true.
    apply isSameContractsStates_true. exists f, t.
    split_and!; [done | done | congruence..].
  - intros f s n. by unfold isSameContractsStates.
Qed.

(** X7: the gate is kept per staking module.  A call of [handleCorrectKeys]
    for another module between two calls for one module does not reopen the
    gate: the later call for the first module, with equal deposit root and
    [lastChangedBlockHash] in the same window, still only writes a log
    line. *)
Theorem gate_is_per_module smdA bdA smdB bdB smdA' bdA' st0
    (Hwindow : 0 < window)
    (Hother : stakingModuleId smdB ≠ stakingModuleId smdA)
    (Hid : stakingModuleId smdA = stakingModuleId smdA')
    (Hroot : depositRoot bdA = depositRoot bdA')
    (Hhash : smLastChangedBlockHash smdA = smLastChangedBlockHash smdA')
    (Hwin : bdBlockNumber bdA / window = bdBlockNumber bdA' / window) :
  let tick1 := handle smdA bdA st0 in
  let tick2 := handle smdB bdB (snd tick1) in
  let tick3 := handle smdA' bdA' (snd tick2) in
  fst tick3 = Ok tt
  ∧ filter (λ e, isLogged e = false) (trace (snd tick3)) =
    filter (λ e, isLogged e = false) (trace (snd tick2)).
Proof.
  intros tick1 tick2 tick3.
  apply (handleCorrectKeys_quiet_after smdA bdA); try done.
  unfold tick2, tick1.
  rewrite !handleCorrectKeys_stores.
  rewrite lookup_insert_ne by done. by rewrite lookup_insert_eq.
Qed.
End StateChangeGateMore.

Section StateChangeGateMoreExamples.
Import StakingModuleGuard Fixtures.

Lemma failed_signature_is_not_retried_witness :
  let handle :=
    handleCorrectKeys 10 (λ _ _ _ _ _, Throw (ExternalError "signer")) (λ _, Ok tt) in
  let tick1 := handle module1 (atBlock 21) freshGuard in
  let tick2 := handle module1 (atBlock 22) (snd tick1) in
  fst tick1 = Throw (ExternalError "signer")
  ∧ filter (λ e, isMessage e = true) (trace (snd tick1)) =
    filter (λ e, isMessage e = true) (trace freshGuard)
  ∧ fst tick2 = Ok tt
  ∧ filter (λ e, isLogged e = false) (trace (snd tick2)) =
    filter (λ e, isLogged e = false) (trace (snd tick1)).
Proof.
  apply (failed_signature_is_not_retried 10
           (λ _ _ _ _ _, Throw (ExternalError "signer")) (λ _, Ok tt)
           module1 (atBlock 21) module1 (atBlock 22) freshGuard
           (ExternalError "signer"));
    [lia | reflexivity..].
Defined.

Lemma gate_is_per_module_witness :
  let handle := handleCorrectKeys 10 (λ _ _ _ _ _, Ok sig0) (λ _, Ok tt) in
  let tick1 := handle module1 (atBlock 21) freshGuard in
  let tick2 := handle module2 (atBlock 21) (snd tick1) in
  let tick3 := handle module1 (atBlock 22) (snd tick2) in
  fst tick3 = Ok tt
  ∧ filter (λ e, isLogged e = false) (trace (snd tick3)) =
    filter (λ e, isLogged e = false) (trace (snd tick2)).
Proof.
  apply (gate_is_per_module 10 (λ _ _ _ _ _, Ok sig0) (λ _, Ok tt)
           module1 (atBlock 21) module2 (atBlock 21) module1 (atBlock 22)
           freshGuard);
    [lia | vm_compute; discriminate | reflexivity..].
Defined.
End StateChangeGateMoreExamples.

(** ** Pausing the deposits *)

Section PauseFacts.
Import PauseGuard Fixtures.

Variable signPauseData : Z → Z → result Signature.
Variable pauseDepositsTx : Z → Z → Signature → result unit.
Variable sendPauseMessage : PauseMessage → result unit.

Local Abbreviation handleOne :=
  (handleKeysIntersections signPauseData pauseDepositsTx sendPauseMessage).
Local Abbreviation pauseAll :=
  (pauseDeposits signPauseData pauseDepositsTx sendPauseMessage).

Lemma handleKeysIntersections_unsigned smd bd st err :
  signPauseData (bdBlockNumber bd) (stakingModuleId smd) = Throw err →
  handleOne smd bd st = (Throw err, st).
Proof.
  intros Hsig. unfold handleKeysIntersections, bind, lift. by rewrite Hsig.
Qed.

Lemma handleKeysIntersections_signed smd bd st sig :
  signPauseData (bdBlockNumber bd) (stakingModuleId smd) = Ok sig →
  handleOne smd bd st =
  (sendPauseMessage (pauseMessage smd bd sig),
   withTrace st
     ([Logged LevelWarn (Text "Suspicious case detected, initialize the module pause");
       PauseDepositsCall (bdBlockNumber bd) (stakingModuleId smd) sig;
       SendPauseMessageCall (pauseMessage smd bd sig)] ++
      match pauseDepositsTx (bdBlockNumber bd) (stakingModuleId smd) sig with
      | Throw error => [Logged LevelError (Thrown error)]
      | Ok _ => []
      end)).
Proof.
  intros Hsig.
  unfold handleKeysIntersections, bind, lift, logger, emit, ret, withTrace.
  rewrite Hsig. simpl.
  destruct (pauseDepositsTx _ _ _); simpl; rewrite <- ?app_assoc; simpl;
    by destruct (sendPauseMessage _).
Qed.


Lemma promiseAll_cons {S} (branch : M S unit) rest s :
  promiseAll (branch :: rest) s =
  (match fst (branch s) with
   | Throw e => Throw e
   | Ok _ => fst (promiseAll rest (snd (branch s)))
   end,
   snd (promiseAll rest (snd (branch s)))).
Proof.
  simpl. destruct (branch s) as [r s1]. simpl.
  by destruct (promiseAll rest s1).
Qed.

(** X9: [pauseDeposits] runs the pause of every module it is given, also
    after the pause of another module has failed.  The pause messages handed
    to the bus are those of the modules whose signature could be made, and
    the call succeeds exactly when for every module the signature is made
    and the message is sent. *)
Theorem pauseDeposits_every_module smds bd st :
  let run := pauseAll smds bd st in
  (∀ m, SendPauseMessageCall m ∈ trace (snd run) ↔
        SendPauseMessageCall m ∈ trace st ∨
        ∃ smd sig, smd ∈ smds ∧
          signPauseData (bdBlockNumber bd) (stakingModuleId smd) = Ok sig ∧
          m = pauseMessage smd bd sig)
  ∧ (fst run = Ok tt ↔
     ∀ smd, smd ∈ smds →
       ∃ sig, signPauseData (bdBlockNumber bd) (stakingModuleId smd) = Ok sig ∧
              sendPauseMessage (pauseMessage smd bd sig) = Ok tt).
Proof.
  revert st. induction smds as [| smd rest IH]; intros st run.
  - split.
    + intros m. split; [by left |]. intros [? | (? & ? & Hin & _)]; [done |].
      inversion Hin.
    + split; [| done]. intros _ smd Hin. inversion Hin.
  - unfold run, pauseDeposits. rewrite fmap_cons, promiseAll_cons.
    change (promiseAll ((λ smd0, handleOne smd0 bd) <$> rest))
      with (pauseAll rest bd).
    cbn [fst snd].
    destruct (signPauseData (bdBlockNumber bd) (stakingModuleId smd))
      as [sig | err] eqn:Hsig.
    + rewrite (handleKeysIntersections_signed _ _ _ _ Hsig). cbn [fst snd].
      set (st1 := withTrace st _).
      destruct (IH st1) as [IHm IHr]. split.
      * intros m. rewrite IHm. unfold st1, withTrace. cbn [trace].
        rewrite !elem_of_app, !elem_of_cons. split.
        -- intros [[? | [[Hm | [Hm | [Hm | Hm]]] | Hm]] | (s & g & ? & ? & ?)].
           ++ by left.
           ++ discriminate Hm.
           ++ discriminate Hm.
           ++ injection Hm as ->. right. exists smd, sig.
              split_and!; [by left | done | done].
           ++ inversion Hm.
           ++ destruct (pauseDepositsTx _ _ _); [inversion Hm |].
              apply list_elem_of_singleton in Hm. discriminate Hm.
           ++ right. exists s, g. split_and!; [by right | done | done].
        -- intros [? | (s & g & [-> | ?]%elem_of_cons & Hs & ->)].
           ++ left. by left.
           ++ rewrite Hsig in Hs. injection Hs as <-.
              left. right. left. right. right. by left.
           ++ right. by exists s, g.
      * destruct (sendPauseMessage (pauseMessage smd bd sig)) as [[] | e] eqn:Hsend.
        -- rewrite IHr. split.
           ++ intros Hall s [-> | Hin]%elem_of_cons; [by exists sig | by apply Hall].
           ++ intros Hall s Hin. apply Hall. by right.
        -- split; [done |]. intros Hall.
           destruct (Hall smd) as (g & Hg & Hsent); [by left |].
           rewrite Hsig in Hg. injection Hg as <-. congruence.
    + rewrite (handleKeysIntersections_unsigned _ _ _ _ Hsig). cbn [fst snd].
      destruct (IH st) as [IHm IHr]. split.
      * intros m. rewrite IHm. split.
        -- intros [? | (s & g & ? & ? & ?)]; [by left |].
           right. exists s, g. split_and!; [by right | done | done].
        -- intros [? | (s & g & [-> | ?]%elem_of_cons & Hs & ->)]; [by left | |].
           ++ congruence.
           ++ right. by exists s, g.
      * split; [done |]. intros Hall.
        destruct (Hall smd) as (g & Hg & _); [by left |]. congruence.
Qed.
End PauseFacts.

(** ** The loop over the not yet cached blocks *)

Section ChunkFacts.
Import DepositRegistry ChunkSpec.

Variable Tree : Type.
Variable insertLeaves : Tree → list VerifiedDepositEvent → result Tree.
Variable treeRoot : Tree → string.
Variable finalizedTag : string.
Variable getBlock : string → result (Z * string).
Variable get_deposit_root : string → result string.
Variable getDeploymentBlockByNetwork : result Z.
Variable fetchEventsFallOver : Z → Z → result VerifiedDepositedEventGroup.

Local Abbreviation State := (RegistryState Tree).
Local Abbreviation getCachedEvents :=
  (getCachedEvents Tree getDeploymentBlockByNetwork).
Local Abbreviation verifyUpdatedEvents :=
  (verifyUpdatedEvents Tree treeRoot get_deposit_root).
Local Abbreviation verifyFreshEvents :=
  (verifyFreshEvents Tree insertLeaves treeRoot get_deposit_root).
Local Abbreviation reachesRootCheck :=
  (reachesRootCheck Tree insertLeaves treeRoot finalizedTag getBlock
     get_deposit_root getDeploymentBlockByNetwork fetchEventsFallOver).
Local Abbreviation indexChunk :=
  (indexChunk Tree insertLeaves fetchEventsFallOver).
Local Abbreviation indexNewEvents :=
  (indexNewEvents Tree insertLeaves fetchEventsFallOver).
Local Abbreviation updateEventsCache :=
  (updateEventsCache Tree insertLeaves treeRoot finalizedTag getBlock
     get_deposit_root getDeploymentBlockByNetwork fetchEventsFallOver).
Local Abbreviation getAllDepositedEvents :=
  (getAllDepositedEvents Tree insertLeaves treeRoot get_deposit_root
     getDeploymentBlockByNetwork fetchEventsFallOver).

(** X10: once the finalized block and the cache are read and the cache has
    passed the block check, the ranges that [updateEventsCache] asks the
    fetcher for are an initial part of the one cut of the blocks after the
    cache up to the finalized block into consecutive windows of at most
    [DEPOSIT_EVENTS_STEP] blocks, and the whole cut when the run returns
    normally. *)
Theorem updateEventsCache_windows (st : State) fnum fhash cache
    (Hblock : getBlock finalizedTag = Ok (fnum, fhash))
    (Hcache : fst (getCachedEvents st) = Ok cache)
    (Hvalid : verifyCacheBlock cache fnum = true) :
  ∃ asked rest,
    tiles (hEndBlock (headers cache) + 1) fnum (asked ++ rest)
    ∧ fetches (snd (updateEventsCache st)) = fetches st ++ asked
    ∧ (fst (updateEventsCache st) = Ok tt → rest = []).
Proof.
  pose proof (chunkCount_tiles (hEndBlock (headers cache) + 1) fnum) as Htiles.
  destruct (forChunks_asked Tree insertLeaves fetchEventsFallOver cache fnum
              (chunkCount (hEndBlock (headers cache) + 1) fnum)
              (hEndBlock (headers cache) + 1) (0, None) st)
    as (asked & rest & Hw & Hf & Hok).
  fold (indexNewEvents cache fnum st) in Hf, Hok.
  exists asked, rest. rewrite <- Hw. split; [done |].
  unfold DepositRegistry.updateEventsCache, bind, lift. rewrite Hblock.
  pose proof (getCachedEvents_reads Tree getDeploymentBlockByNetwork st) as Hreads.
  destruct (getCachedEvents st) as [rc s0]. simpl in Hcache, Hreads. subst rc s0.
  cbn beta iota. rewrite Hvalid. cbn [negb].
  destruct (indexNewEvents cache fnum st) as [[[count lastEv] | e] stl];
    cbn [fst snd] in Hf, Hok |- *; [| done].
  cbn beta iota.
  pose proof (verifyUpdatedEvents_reads Tree treeRoot get_deposit_root fhash stl)
    as Hreads.
  destruct (verifyUpdatedEvents fhash stl) as [[b | e] s1]; simpl in Hreads;
    subst s1; cbn beta iota; [| done].
  split; [| intros _; by eapply Hok].
  unfold insertLastValidEvent, log, modify, ret.
  destruct b, lastEv as [e |]; simpl; done.
Qed.

(** X11: a run of [updateEventsCache] that reaches the root comparison has
    fetched every window of the cut, and has handed every fetched group to
    the store, with the start block of the cache and the end block of the
    group as header, before the comparison and whatever its verdict.  The
    number of new events is the number of fetched events and the last
    indexed event is the last fetched one. *)
Theorem updateEventsCache_stores_fetched (st : State) fnum fhash cache count lastEv b
    (Hrun : reachesRootCheck st fnum fhash cache count lastEv b) :
  ∃ ranges groups,
    tiles (hEndBlock (headers cache) + 1) fnum ranges
    ∧ Forall2 (λ range group, fetchEventsFallOver range.1 range.2 = Ok group)
        ranges groups
    ∧ fetches (snd (updateEventsCache st)) = fetches st ++ ranges
    ∧ writes (snd (updateEventsCache st)) =
        writes st ++ (batchOf cache <$> groups) ++
        (if b then if lastEv is Some e then [InsertLastValidEvent e] else []
         else [])
    ∧ count = Z.of_nat (length (eventsOf groups))
    ∧ lastEv = last (eventsOf groups).
Proof.
  pose proof (chunkCount_tiles (hEndBlock (headers cache) + 1) fnum) as Htiles.
  destruct (updateEventsCache_checked Tree insertLeaves treeRoot finalizedTag
              getBlock get_deposit_root getDeploymentBlockByNetwork
              fetchEventsFallOver st _ _ _ _ _ _ Hrun) as (Hok & Hwrites & _).
  pose proof Hrun as (Hblock & Hcache & Hvalid & Hindex & Hverify).
  destruct (forChunks_done Tree insertLeaves fetchEventsFallOver cache fnum
              (chunkCount (hEndBlock (headers cache) + 1) fnum)
              (hEndBlock (headers cache) + 1) (0, None) st (count, lastEv) Hindex)
    as (groups & Hall & Hws & Hcount & Hlast).
  fold (indexNewEvents cache fnum st) in Hws.
  destruct (forChunks_asked Tree insertLeaves fetchEventsFallOver cache fnum
              (chunkCount (hEndBlock (headers cache) + 1) fnum)
              (hEndBlock (headers cache) + 1) (0, None) st)
    as (asked' & rest' & Hw' & Hf' & Hok').
  fold (indexNewEvents cache fnum st) in Hf', Hok'.
  rewrite (Hok' _ Hindex), app_nil_r in Hw'. subst asked'.
  eexists _, groups. split_and!; [exact Htiles | exact Hall | | | |].
  - rewrite <- Hf'. clear -Hrun Hok.
    destruct Hrun as (Hblock & Hcache & Hvalid & Hindex & Hverify).
    revert Hok. unfold DepositRegistry.updateEventsCache, bind, lift.
    rewrite Hblock.
    pose proof (getCachedEvents_reads Tree getDeploymentBlockByNetwork st) as Hreads.
    destruct (getCachedEvents st) as [rc s0]. simpl in Hcache, Hreads. subst rc s0.
    cbn beta iota. rewrite Hvalid. cbn [negb].
    destruct (indexNewEvents cache fnum st) as [racc stl].
    simpl in Hindex, Hverify. subst racc. cbn beta iota.
    pose proof (verifyUpdatedEvents_reads Tree treeRoot get_deposit_root fhash stl)
      as Hreads.
    destruct (verifyUpdatedEvents fhash stl) as [rv s1]. simpl in Hverify, Hreads.
    subst rv s1. cbn beta iota.
    unfold insertLastValidEvent, log, modify, ret.
    destruct b, lastEv as [e |]; simpl; done.
  - rewrite Hwrites, Hws, <- app_assoc. done.
  - simpl in Hcount. lia.
  - simpl in Hlast. rewrite Hlast. by destruct (last (eventsOf groups)).
Qed.

Lemma tiles_after firstBlock lastBlock ranges range :
  tiles firstBlock lastBlock ranges → range ∈ ranges →
  firstBlock ≤ range.1 ∧ range.1 ≤ range.2 ≤ lastBlock.
Proof.
  revert firstBlock. induction ranges as [| [a b] rest IH]; intros firstBlock.
  - intros _ Hin. inversion Hin.
  - cbn [tiles]. intros (-> & Hab & _ & _ & Hrest) [-> | Hin]%elem_of_cons.
    + simpl. lia.
    + destruct (IH (b + 1) Hrest Hin). lia.
Qed.

Lemma getCachedEvents_clamped (st : State) cache d :
  getDeploymentBlockByNetwork = Ok d →
  fst (getCachedEvents st) = Ok cache →
  d ≤ hStartBlock (headers cache) ∧ d ≤ hEndBlock (headers cache).
Proof.
  intros Hd.
  unfold DepositRegistry.getCachedEvents, getEventsCache, bind, get, lift, ret.
  rewrite Hd. simpl. intros [= <-]. simpl. lia.
Qed.

(** The requests of a run of [updateEventsCache]: none, or an initial part
    of the windows after the cache. *)
Lemma updateEventsCache_fetches (st : State) :
  fetches (snd (updateEventsCache st)) = fetches st
  ∨ ∃ fnum cache asked rest,
      fst (getCachedEvents st) = Ok cache
      ∧ tiles (hEndBlock (headers cache) + 1) fnum (asked ++ rest)
      ∧ fetches (snd (updateEventsCache st)) = fetches st ++ asked.
Proof.
  unfold DepositRegistry.updateEventsCache, bind, lift.
  destruct (getBlock finalizedTag) as [[fnum fhash] | e]; [| by left].
  pose proof (getCachedEvents_reads Tree getDeploymentBlockByNetwork st) as Hreads.
  destruct (getCachedEvents st) as [[cache | e] s0] eqn:Hcache; simpl in Hreads;
    subst s0; [| by left].
  cbn beta iota. destruct (verifyCacheBlock cache fnum); cbn [negb]; [| by left].
  right. exists fnum, cache.
  pose proof (chunkCount_tiles (hEndBlock (headers cache) + 1) fnum) as Htiles.
  destruct (forChunks_asked Tree insertLeaves fetchEventsFallOver cache fnum
              (chunkCount (hEndBlock (headers cache) + 1) fnum)
              (hEndBlock (headers cache) + 1) (0, None) st)
    as (asked & rest & Hw & Hf & _).
  fold (indexNewEvents cache fnum st) in Hf.
  exists asked, rest. rewrite <- Hw. split_and!; [done | done |].
  destruct (indexNewEvents cache fnum st) as [[[count lastEv] | e] stl];
    cbn [fst snd] in Hf |- *; [| done].
  cbn beta iota.
  pose proof (verifyUpdatedEvents_reads Tree treeRoot get_deposit_root fhash stl)
    as Hreads.
  destruct (verifyUpdatedEvents fhash stl) as [[b | e] s1]; simpl in Hreads;
    subst s1; cbn beta iota; [| done].
  unfold insertLastValidEvent, log, modify, ret.
  destruct b, lastEv as [e |]; simpl; done.
Qed.

(** What [getAllDepositedEvents] leaves behind and what it returns. *)
Lemma getAllDepositedEvents_run blockNumber blockHash (st : State) :
  let run := getAllDepositedEvents blockNumber blockHash st in
  store (snd run) = store st ∧ writes (snd run) = writes st
  ∧ (fetches (snd run) = fetches st
     ∨ ∃ cache, fst (getCachedEvents st) = Ok cache
                ∧ fetches (snd run) =
                  fetches st ++ [(hEndBlock (headers cache) + 1, blockNumber)])
  ∧ (∀ group, fst run = Ok group →
       ∃ verdict fresh,
         isValid group = Some verdict
         ∧ events group = cacheData (store st) ++ fresh
         ∧ (verdict = true → endBlock group = blockNumber)).
Proof.
  pose proof (getCachedEvents_reads Tree getDeploymentBlockByNetwork st) as Hreads.
  assert (∀ cache, fst (getCachedEvents st) = Ok cache →
                   cacheData cache = cacheData (store st)) as Hdata.
  { unfold DepositRegistry.getCachedEvents, getEventsCache, bind, get, lift, ret.
    simpl. destruct getDeploymentBlockByNetwork; [| done]. by intros cache [= <-]. }
  unfold DepositRegistry.getAllDepositedEvents, bind.
  destruct (getCachedEvents st) as [[cache | e] s0]; simpl in Hreads; subst s0.
  2: { simpl. split_and!; [done | done | by left | done]. }
  specialize (Hdata cache eq_refl). cbn beta iota.
  destruct (verifyCacheBlock cache blockNumber); cbn [negb].
  2: { simpl. split_and!; [done | done | by left |].
       intros group [= <-]. exists false, []. simpl.
       by rewrite app_nil_r, Hdata. }
  unfold fetch, bind, modify, lift.
  destruct (fetchEventsFallOver _ _) as [fresh | e]; cbn beta iota.
  2: { simpl. split_and!; [done | done | right; by exists cache | done]. }
  unfold DepositRegistry.verifyFreshEvents, bind, get, lift, ret. simpl.
  destruct (insertLeaves _ _) as [clone | e]; simpl.
  2: { split_and!; [done | done | right; by exists cache | done]. }
  destruct (get_deposit_root blockHash) as [contractRoot | e]; simpl.
  2: { split_and!; [done | done | right; by exists cache | done]. }
  unfold log, modify.
  destruct (bool_decide (treeRoot clone = contractRoot)) eqn:Hverdict; simpl;
    (split_and!; [done | done | right; by exists cache |]);
    intros group [= <-]; eexists _, (events fresh); simpl; by rewrite Hdata.
Qed.

(** X12: when the cache fails the block check, [updateEventsCache] returns
    at once: nothing is fetched, written, compared or logged.  When the cache
    ends at the finalized block or later and passes the check, nothing is
    fetched and nothing is written, but the root is still compared and the
    run returns normally exactly when that comparison returns. *)
Theorem updateEventsCache_nothing_new (st : State) fnum fhash cache
    (Hblock : getBlock finalizedTag = Ok (fnum, fhash))
    (Hcache : fst (getCachedEvents st) = Ok cache) :
  (verifyCacheBlock cache fnum = false → updateEventsCache st = (Ok tt, st))
  ∧ (verifyCacheBlock cache fnum = true → fnum ≤ hEndBlock (headers cache) →
     let st' := snd (updateEventsCache st) in
     fetches st' = fetches st ∧ writes st' = writes st ∧ store st' = store st
     ∧ (fst (updateEventsCache st) = Ok tt ↔
        ∃ verdict, fst (verifyUpdatedEvents fhash st) = Ok verdict)).
Proof.
  pose proof (getCachedEvents_reads Tree getDeploymentBlockByNetwork st) as Hreads.
  unfold DepositRegistry.updateEventsCache, bind, lift. rewrite Hblock.
  destruct (getCachedEvents st) as [rc s0]. simpl in Hcache, Hreads. subst rc s0.
  cbn beta iota. split.
  - by intros ->.
  - intros -> Hend. cbn [negb].
    unfold DepositRegistry.indexNewEvents, chunkCount.
    rewrite bool_decide_eq_false_2 by lia. cbn [forChunks].
    change (ret (S := State) (0, @None VerifiedDepositEvent) st)
      with (Ok (0, @None VerifiedDepositEvent), st).
    cbn beta iota.
    pose proof (verifyUpdatedEvents_reads Tree treeRoot get_deposit_root fhash st)
      as Hreads.
    destruct (verifyUpdatedEvents fhash st) as [[b | e] s1]; simpl in Hreads;
      subst s1; cbn beta iota.
    + unfold log, modify, ret.
      destruct b; simpl; (split_and!; [done | done | done |]);
        (split; [intros _; by eexists | done]).
    + simpl. split_and!; [done | done | done |].
      split; [done | by intros [? ?]].
Qed.

(** X13: [getAllDepositedEvents] never writes to the store, and asks the
    fetcher at most once, for the blocks after the cache up to the requested
    block.  A group it returns carries a verdict, starts with the cached
    events, and ends at the requested block whenever the verdict is
    positive. *)
Theorem getAllDepositedEvents_reads_only blockNumber blockHash (st : State) :
  let run := getAllDepositedEvents blockNumber blockHash st in
  store (snd run) = store st ∧ writes (snd run) = writes st
  ∧ (fetches (snd run) = fetches st
     ∨ ∃ cache, fst (getCachedEvents st) = Ok cache
                ∧ fetches (snd run) =
                  fetches st ++ [(hEndBlock (headers cache) + 1, blockNumber)])
  ∧ (∀ group, fst run = Ok group →
       ∃ verdict fresh,
         isValid group = Some verdict
         ∧ events group = cacheData (store st) ++ fresh
         ∧ (verdict = true → endBlock group = blockNumber)).
Proof. apply getAllDepositedEvents_run. Qed.

(** X14: [getCachedEvents] lifts the start and the end of the cache to the
    deployment block of the deposit contract, so neither
    [updateEventsCache] nor [getAllDepositedEvents] ever asks the fetcher
    for a block at or before the deployment block. *)
Theorem fetches_after_deployment (st : State) d
    (Hdeployment : getDeploymentBlockByNetwork = Ok d) :
  (∀ cache, fst (getCachedEvents st) = Ok cache →
            d ≤ hStartBlock (headers cache) ∧ d ≤ hEndBlock (headers cache))
  ∧ (∀ range, range ∈ fetches (snd (updateEventsCache st)) →
              range ∈ fetches st ∨ d < range.1)
  ∧ (∀ blockNumber blockHash range,
       range ∈ fetches (snd (getAllDepositedEvents blockNumber blockHash st)) →
       range ∈ fetches st ∨ d < range.1).
Proof.
  split_and!.
  - intros cache. by apply getCachedEvents_clamped.
  - intros range.
    destruct (updateEventsCache_fetches st)
      as [-> | (fnum & cache & asked & rest & Hcache & Htiles & ->)]; [by left |].
    intros [? | Hin]%elem_of_app; [by left |]. right.
    destruct (getCachedEvents_clamped st cache d Hdeployment Hcache) as [_ Hend].
    destruct (tiles_after _ _ _ range Htiles) as [Hfirst _].
    { apply elem_of_app. by left. }
    lia.
  - intros blockNumber blockHash range.
    destruct (getAllDepositedEvents_run blockNumber blockHash st)
      as (_ & _ & [-> | (cache & Hcache & ->)] & _); [by left |].
    intros [? | ->%list_elem_of_singleton]%elem_of_app; [by left |]. right.
    destruct (getCachedEvents_clamped st cache d Hdeployment Hcache) as [_ Hend].
    simpl. lia.
Qed.
End ChunkFacts.

Section ChunkExamples.
Import DepositRegistry ChunkSpec Fixtures.

Lemma updateEventsCache_windows_witness :
  ∃ asked rest,
    tiles (hEndBlock (headers (store emptyRegistry)) + 1) 25000 (asked ++ rest)
    ∧ fetches (snd (updateChain "0xaa,0xbb,0xcc" emptyRegistry)) =
      fetches emptyRegistry ++ asked
    ∧ (fst (updateChain "0xaa,0xbb,0xcc" emptyRegistry) = Ok tt → rest = []).
Proof.
  apply (updateEventsCache_windows (list string) insertPubkeys joinRoot
           "finalized" blockAt (rootAt "0xaa,0xbb,0xcc") (Ok 0) fetchChain
           emptyRegistry 25000 "0xfinal" (store emptyRegistry));
    reflexivity.
Defined.

Lemma updateEventsCache_stores_fetched_witness :
  ∃ ranges groups,
    tiles (hEndBlock (headers (store emptyRegistry)) + 1) 25000 ranges
    ∧ Forall2 (λ range group, fetchChain range.1 range.2 = Ok group) ranges groups
    ∧ fetches (snd (updateChain "0xother" emptyRegistry)) =
      fetches emptyRegistry ++ ranges
    ∧ writes (snd (updateChain "0xother" emptyRegistry)) =
      writes emptyRegistry ++ (batchOf (store emptyRegistry) <$> groups) ++ []
    ∧ 3 = Z.of_nat (length (eventsOf groups))
    ∧ Some (mkEvent "0xcc" "0xbad" 24000 3 true) = last (eventsOf groups).
Proof.
  apply (updateEventsCache_stores_fetched (list string) insertPubkeys joinRoot
           "finalized" blockAt (rootAt "0xother") (Ok 0) fetchChain
           emptyRegistry 25000 "0xfinal" (store emptyRegistry) 3
           (Some (mkEvent "0xcc" "0xbad" 24000 3 true)) false).
  vm_compute. split_and!; reflexivity.
Defined.

Lemma updateEventsCache_nothing_new_witness :
  let st' := snd (updateChain "0xaa,0xbb,0xcc" syncedRegistry) in
  fetches st' = fetches syncedRegistry ∧ writes st' = writes syncedRegistry
  ∧ store st' = store syncedRegistry
  ∧ (fst (updateChain "0xaa,0xbb,0xcc" syncedRegistry) = Ok tt ↔
     ∃ verdict,
       fst (verifyUpdatedEvents (list string) joinRoot (rootAt "0xaa,0xbb,0xcc")
              "0xfinal" syncedRegistry) = Ok verdict).
Proof.
  destruct (updateEventsCache_nothing_new (list string) insertPubkeys joinRoot
              "finalized" blockAt (rootAt "0xaa,0xbb,0xcc") (Ok 0) fetchChain
              syncedRegistry 25000 "0xfinal" (store syncedRegistry)
              eq_refl eq_refl) as [_ Hsame].
  apply Hsame; [reflexivity | vm_compute; discriminate].
Defined.

Lemma fetches_after_deployment_witness :
  Forall (λ range, range ∈ fetches emptyRegistry ∨ 0 < range.1)
    (fetches (snd (updateChain "0xaa,0xbb,0xcc" emptyRegistry))).
Proof.
  destruct (fetches_after_deployment (list string) insertPubkeys joinRoot
              "finalized" blockAt (rootAt "0xaa,0xbb,0xcc") (Ok 0) fetchChain
              emptyRegistry 0 eq_refl) as (_ & Hupdate & _).
  apply Forall_forall. exact Hupdate.
Defined.
End ChunkExamples.

(** ** More on the wallet and the signed messages *)

Section WalletMore.
Import WalletSvc WalletSpec AbiSpec Fixtures.
Local Arguments bigEndian : simpl never.

Variable keccak256 : list Byte.byte → list Byte.byte.
Variable signDigest : string → list Byte.byte → Signature.
Variable computeAddress : string → option string.
Variable createRandom : nat → string.

Local Abbreviation wallet := (wallet computeAddress createRandom).
Local Abbreviation signMessage :=
  (signMessage signDigest computeAddress createRandom).

(** X15: with a configured private key the first access to the wallet uses
    that key: no random key is drawn and no warning is written, and messages
    are signed under the configured key.  When the configured string is not a
    private key, the access throws and nothing is cached, so the next access
    throws again. *)
Theorem wallet_configured_key st
    (Hkey : privateKey st ≠ "")
    (Hnone : cachedWallet st = None) :
  match computeAddress (privateKey st) with
  | Some a =>
      let w := {| walletId := allocated st; walletKey := privateKey st;
                  walletAddress := a |} in
      let st1 := snd (wallet st) in
      fst (wallet st) = Ok w
      ∧ cachedWallet st1 = Some w ∧ privateKey st1 = privateKey st
      ∧ drawn st1 = drawn st ∧ warnings st1 = warnings st
      ∧ ∀ message, fst (signMessage message st) =
                   Ok (signDigest (privateKey st) message)
  | None =>
      wallet st = (Throw InvalidPrivateKey, st)
      ∧ ∀ message, signMessage message st = (Throw InvalidPrivateKey, st)
  end.
Proof.
  unfold WalletSvc.signMessage, WalletSvc.wallet, newWallet, bind, get, modify,
    ret, throw.
  simpl. rewrite Hnone. rewrite bool_decide_eq_false_2 by done. simpl.
  destruct (computeAddress (privateKey st)) as [a |]; simpl; by split_and!.
Qed.

Lemma byteOfZ_value n : Z.of_N (Byte.to_N (byteOfZ n)) = n mod 256.
Proof.
  unfold byteOfZ.
  assert (0 ≤ n mod 256 < 256) as Hrange by (apply Z.mod_pos_bound; lia).
  destruct (Byte.of_N (Z.to_N (n mod 256))) as [b |] eqn:Hb.
  - apply Byte.to_of_N in Hb. simpl. rewrite Hb. lia.
  - apply Byte.of_N_None_iff in Hb. lia.
Qed.

Lemma fromBigEndian_bigEndian len n :
  fromBigEndian (bigEndian len n) = n mod 256 ^ Z.of_nat len.
Proof.
  revert n. induction len as [| len IH]; intros n.
  - simpl. by rewrite Z.mod_1_r.
  - change (bigEndian (S len) n) with (bigEndian len (n / 256) ++ [byteOfZ n]).
    unfold fromBigEndian in *. rewrite foldl_snoc, IH, byteOfZ_value.
    rewrite Nat2Z.inj_succ, Z.pow_succ_r by lia.
    rewrite Z.rem_mul_r by lia. lia.
Qed.

Lemma bigEndian_word_inj a b :
  0 ≤ a < MAX_SAFE → 0 ≤ b < MAX_SAFE →
  bigEndian 32 a = bigEndian 32 b → a = b.
Proof.
  intros Ha Hb Heq. apply (f_equal fromBigEndian) in Heq.
  rewrite !fromBigEndian_bigEndian in Heq.
  unfold MAX_SAFE in *.
  rewrite !Z.mod_small in Heq; [done | ..];
    change (256 ^ Z.of_nat 32) with (2 ^ 256); lia.
Qed.

Lemma abiEncode_length args bytes :
  abiEncode args = Ok bytes → length bytes = (32 * length args)%nat.
Proof.
  revert bytes. induction args as [| a rest IH]; intros bytes.
  - by intros [= <-].
  - cbn [abiEncode].
    destruct (encodeArg a) as [word | e] eqn:Hword; cbn [result_bind]; [| done].
    destruct (abiEncode rest) as [tail | e]; cbn [result_bind]; [| done].
    intros [= <-]. rewrite length_app, (IH tail eq_refl).
    assert (length word = 32%nat) as ->; [| simpl; lia].
    destruct a as [value | value]; simpl in Hword; case_bool_decide; try done.
    + by injection Hword as <-.
    + injection Hword as <-. apply length_bigEndian.
Qed.

(** X16: the bytes that [signDepositData] hashes determine the parameters:
    two well-formed parameter records with the same ABI encoding are equal,
    field by field. *)
Theorem deposit_encoding_injective p q
    (Hp : wellFormed p) (Hq : wellFormed q)
    (Hsame :
       abiEncode [bytes32 (prefix p); uint256 (spBlockNumber p);
                  bytes32 (spBlockHash p); bytes32 (spDepositRoot p);
                  uint256 (spStakingModuleId p); uint256 (keysOpIndex p)]
       = abiEncode [bytes32 (prefix q); uint256 (spBlockNumber q);
                    bytes32 (spBlockHash q); bytes32 (spDepositRoot q);
                    uint256 (spStakingModuleId q); uint256 (keysOpIndex q)]) :
  p = q.
Proof.
  rewrite (abiEncode_deposit p Hp), (abiEncode_deposit q Hq) in Hsame.
  injection Hsame as Hbytes. unfold depositMessageBytes in Hbytes.
  destruct Hp as (Hp1 & Hp2 & Hp3 & Hp4 & Hp5 & Hp6).
  destruct Hq as (Hq1 & Hq2 & Hq3 & Hq4 & Hq5 & Hq6).
  apply app_inj_1 in Hbytes as [H1 Hbytes]; [| congruence].
  apply app_inj_1 in Hbytes as [H2 Hbytes]; [| by rewrite !length_bigEndian].
  apply app_inj_1 in Hbytes as [H3 Hbytes]; [| congruence].
  apply app_inj_1 in Hbytes as [H4 Hbytes]; [| congruence].
  apply app_inj_1 in Hbytes as [H5 H6]; [| by rewrite !length_bigEndian].
  apply bigEndian_word_inj in H2, H5, H6; try done.
  destruct p, q; simpl in *; congruence.
Qed.

(** X17: whenever the encoder accepts the arguments, [signDepositData],
    [signPauseDataV2] and [signPauseDataV3] sign the keccak256 hash of an
    encoding of 192, 96 and 64 bytes.  The three encodings are pairwise
    different, so the digest signed for one kind of message is the digest
    signed for another kind only if keccak256 maps two byte strings of
    different length to the same hash. *)
Theorem signed_digests_of_distinct_encodings p prefix2 blockNumber2
    stakingModuleId2 prefix3 blockNumber3 deposit pause2 pause3 st
    (Hdeposit :
       abiEncode [bytes32 (prefix p); uint256 (spBlockNumber p);
                  bytes32 (spBlockHash p); bytes32 (spDepositRoot p);
                  uint256 (spStakingModuleId p); uint256 (keysOpIndex p)]
       = Ok deposit)
    (Hpause2 :
       abiEncode [bytes32 prefix2; uint256 blockNumber2; uint256 stakingModuleId2]
       = Ok pause2)
    (Hpause3 : abiEncode [bytes32 prefix3; uint256 blockNumber3] = Ok pause3) :
  signDepositData keccak256 signDigest computeAddress createRandom p st
    = signMessage (keccak256 deposit) st
  ∧ signPauseDataV2 keccak256 signDigest computeAddress createRandom
      prefix2 blockNumber2 stakingModuleId2 st
    = signMessage (keccak256 pause2) st
  ∧ signPauseDataV3 keccak256 signDigest computeAddress createRandom
      prefix3 blockNumber3 st
    = signMessage (keccak256 pause3) st
  ∧ (length deposit = 192 ∧ length pause2 = 96 ∧ length pause3 = 64)%nat
  ∧ (deposit ≠ pause2 ∧ deposit ≠ pause3 ∧ pause2 ≠ pause3)
  ∧ (keccak256 deposit = keccak256 pause2
     ∨ keccak256 deposit = keccak256 pause3
     ∨ keccak256 pause2 = keccak256 pause3 →
     ∃ a b, length a ≠ length b ∧ keccak256 a = keccak256 b).
Proof.
  split_and!.
  - unfold WalletSvc.signDepositData, bind, lift. by rewrite Hdeposit.
  - unfold WalletSvc.signPauseDataV2, bind, lift. by rewrite Hpause2.
  - unfold WalletSvc.signPauseDataV3, bind, lift. by rewrite Hpause3.
  - by apply abiEncode_length in Hdeposit.
  - by apply abiEncode_length in Hpause2.
  - by apply abiEncode_length in Hpause3.
  - intros Heq. apply abiEncode_length in Hdeposit, Hpause2.
    apply (f_equal length) in Heq. simpl in *. lia.
  - intros Heq. apply abiEncode_length in Hdeposit, Hpause3.
    apply (f_equal length) in Heq. simpl in *. lia.
  - intros Heq. apply abiEncode_length in Hpause2, Hpause3.
    apply (f_equal length) in Heq. simpl in *. lia.
  - apply abiEncode_length in Hdeposit, Hpause2, Hpause3. simpl in *.
    intros [Hcollide | [Hcollide | Hcollide]].
    + exists deposit, pause2. split; [lia | done].
    + exists deposit, pause3. split; [lia | done].
    + exists pause2, pause3. split; [lia | done].
Qed.
End WalletMore.

Section WalletMoreExamples.
Import WalletSvc WalletSpec Fixtures.

Lemma wallet_configured_key_witness :
  let st1 := snd (wallet addressOfKey randomKeys configuredKey) in
  fst (wallet addressOfKey randomKeys configuredKey) =
    Ok {| walletId := 0; walletKey := "0xabc"; walletAddress := "addr:0xabc" |}
  ∧ drawn st1 = 0%nat ∧ warnings st1 = [].
Proof.
  pose proof (wallet_configured_key (λ _ _, sig0) addressOfKey randomKeys
                configuredKey ltac:(discriminate) eq_refl) as Hrun.
  simpl in Hrun. destruct Hrun as (Hw & _ & _ & Hd & Hwarn & _).
  split_and!; [exact Hw | exact Hd | exact Hwarn].
Defined.

Lemma deposit_encoding_injective_witness : depositParams = depositParams.
Proof.
  apply (deposit_encoding_injective depositParams depositParams);
    [apply (bool_decide_unpack _); vm_compute; exact I..
    | reflexivity].
Defined.

Lemma signed_digests_of_distinct_encodings_witness :
  signDepositData (λ bytes, bytes) (λ _ _, sig0) addressOfKey randomKeys
    depositParams configuredKey
  = signMessage (λ _ _, sig0) addressOfKey randomKeys
      (WalletSpec.depositMessageBytes depositParams) configuredKey
  ∧ WalletSpec.depositMessageBytes depositParams
    ≠ hexZeroPad32 1 ++ hexZeroPad32 1 ++ hexZeroPad32 5.
Proof.
  destruct (signed_digests_of_distinct_encodings (λ bytes, bytes) (λ _ _, sig0)
              addressOfKey randomKeys depositParams
              (hexZeroPad32 1) 1 5 (hexZeroPad32 1) 1
              (WalletSpec.depositMessageBytes depositParams)
              (hexZeroPad32 1 ++ hexZeroPad32 1 ++ hexZeroPad32 5)
              (hexZeroPad32 1 ++ hexZeroPad32 1) configuredKey)
    as (Hsigned & _ & _ & _ & (Hne & _) & _);
    [vm_compute; reflexivity.. | split; [exact Hsigned | exact Hne]].
Defined.
End WalletMoreExamples.

(** ** The cache of the keys-index client *)

Section KeysApiFacts.
Import KeysApi Fixtures.

Variable KEYS_API_URL : string.
Variable KEYS_API_HOST : string.
Variable KEYS_API_PORT : string.
Variable fetchJson : nat → string → result KeyListResponse.

Local Abbreviation keysUrl :=
  (getBaseUrl KEYS_API_URL KEYS_API_HOST KEYS_API_PORT +:+ "/v1/keys").
Local Abbreviation updateCachedKeys :=
  (updateCachedKeys KEYS_API_URL KEYS_API_HOST KEYS_API_PORT fetchJson).
Local Abbreviation getKeys :=
  (getKeys KEYS_API_URL KEYS_API_HOST KEYS_API_PORT fetchJson).

(** The three ways [updateCachedKeys] ends. *)
Lemma updateCachedKeys_run snapshot st :
  let run := updateCachedKeys snapshot st in
  requests (snd run) = requests st ++ [keysUrl]
  ∧ match fetchJson (length (requests st)) keysUrl with
    | Throw error =>
        fst run = Throw error ∧ cachedKeys (snd run) = cachedKeys st
        ∧ last (apiLog (snd run)) = Some (LevelError, "Keys API request error")
    | Ok response =>
        if bool_decide (lastChangedBlockHash snapshot =
                        lastChangedBlockHash (meta response))
        then fst run = Ok response ∧ cachedKeys (snd run) = Some response
        else fst run = Throw InconsistentLastChangedBlockHash
             ∧ cachedKeys (snd run) = cachedKeys st
             ∧ last (apiLog (snd run)) =
               Some (LevelError, Guardian.inconsistencyMessage)
    end.
Proof.
  unfold KeysApi.updateCachedKeys, fetch, verifyMetaDataConsistency, tryCatch,
    apiLogger, bind, get, modify, lift, throw, ret.
  simpl.
  destruct (fetchJson _ _) as [response | error]; simpl.
  - case_bool_decide; simpl; [done |].
    split; [done |]. split_and!; [done | done |]. by rewrite last_snoc.
  - split; [done |]. split_and!; [done | done |]. by rewrite last_snoc.
Qed.

Lemma getKeys_cached snapshot st cached :
  cachedKeys st = Some cached →
  lastChangedBlockHash (meta cached) = lastChangedBlockHash snapshot →
  fst (getKeys snapshot st) = Ok cached
  ∧ requests (snd (getKeys snapshot st)) = requests st
  ∧ cachedKeys (snd (getKeys snapshot st)) = Some cached.
Proof.
  intros Hcached Hhash.
  unfold KeysApi.getKeys, apiLogger, bind, get, modify, ret. simpl.
  rewrite Hcached. rewrite bool_decide_eq_true_2 by done. by simpl.
Qed.

Lemma getKeys_stale snapshot st :
  (∀ cached, cachedKeys st = Some cached →
             lastChangedBlockHash (meta cached) ≠ lastChangedBlockHash snapshot) →
  getKeys snapshot st = updateCachedKeys snapshot st.
Proof.
  intros Hstale. unfold KeysApi.getKeys, bind, get. simpl.
  destruct (cachedKeys st) as [cached |]; [| done].
  by rewrite bool_decide_eq_false_2 by (by apply Hstale).
Qed.

(** X18: a response that [getKeys] returns carries the
    [lastChangedBlockHash] of the snapshot it was asked for, and it is the
    cached response afterwards.  When [getKeys] throws, because the request
    failed or because the fetched response carries another hash, the cache
    is the one it was before and the last log line is the error.  One call
    makes at most one request, to [/v1/keys]. *)
Theorem getKeys_outcome snapshot st :
  let run := getKeys snapshot st in
  (∀ response, fst run = Ok response →
     lastChangedBlockHash (meta response) = lastChangedBlockHash snapshot
     ∧ cachedKeys (snd run) = Some response)
  ∧ (∀ error, fst run = Throw error →
       cachedKeys (snd run) = cachedKeys st
       ∧ requests (snd run) = requests st ++ [keysUrl]
       ∧ ∃ message, last (apiLog (snd run)) = Some (LevelError, message))
  ∧ (requests (snd run) = requests st
     ∨ requests (snd run) = requests st ++ [keysUrl]).
Proof.
  intros run.
  assert ((∃ cached, cachedKeys st = Some cached ∧
                     lastChangedBlockHash (meta cached) =
                     lastChangedBlockHash snapshot)
          ∨ ∀ cached, cachedKeys st = Some cached →
                      lastChangedBlockHash (meta cached) ≠
                      lastChangedBlockHash snapshot) as [Hhit | Hmiss].
  { destruct (cachedKeys st) as [cached |]; [| by right].
    destruct (decide (lastChangedBlockHash (meta cached) =
                      lastChangedBlockHash snapshot)) as [Heq | Hne].
    - left. by exists cached.
    - right. by intros ? [= <-]. }
  - destruct Hhit as (cached & Hcached & Hhash).
    destruct (getKeys_cached snapshot st cached Hcached Hhash) as (Hr & Hq & Hc).
    fold run in Hr, Hq, Hc. rewrite Hr. split_and!.
    + by intros response [= <-].
    + done.
    + by left.
  - unfold run. rewrite (getKeys_stale snapshot st Hmiss).
    destruct (updateCachedKeys_run snapshot st) as [Hq Hrun].
    destruct (fetchJson _ _) as [response | err].
    + case_bool_decide as Hhash.
      * destruct Hrun as [-> Hc]. split_and!.
        -- by intros ? [= <-].
        -- done.
        -- by right.
      * destruct Hrun as (-> & Hc & Hl). split_and!.
        -- done.
        -- intros ? _. split_and!; [done | done | by eexists].
        -- by right.
    + destruct Hrun as (-> & Hc & Hl). split_and!.
      * done.
      * intros ? _. split_and!; [done | done | by eexists].
      * by right.
Qed.

(** X19: after [getKeys] has returned a response, a call for a snapshot with
    the same [lastChangedBlockHash] returns that response without a request,
    whatever the keys-index would answer now, and a call for a snapshot with
    another hash asks the keys-index again. *)
Theorem getKeys_again snapshot snapshot' st response
    (Hfirst : fst (getKeys snapshot st) = Ok response) :
  let st1 := snd (getKeys snapshot st) in
  (lastChangedBlockHash snapshot' = lastChangedBlockHash snapshot →
   fst (getKeys snapshot' st1) = Ok response
   ∧ requests (snd (getKeys snapshot' st1)) = requests st1
   ∧ cachedKeys (snd (getKeys snapshot' st1)) = Some response)
  ∧ (lastChangedBlockHash snapshot' ≠ lastChangedBlockHash snapshot →
     requests (snd (getKeys snapshot' st1)) = requests st1 ++ [keysUrl]).
Proof.
  intros st1.
  assert (lastChangedBlockHash (meta response) = lastChangedBlockHash snapshot
          ∧ cachedKeys st1 = Some response) as [Hhash Hcached].
  { revert Hfirst. unfold st1.
    assert ((∃ cached, cachedKeys st = Some cached ∧
                       lastChangedBlockHash (meta cached) =
                       lastChangedBlockHash snapshot)
            ∨ ∀ cached, cachedKeys st = Some cached →
                        lastChangedBlockHash (meta cached) ≠
                        lastChangedBlockHash snapshot) as [Hhit | Hmiss].
    { destruct (cachedKeys st) as [cached |]; [| by right].
      destruct (decide (lastChangedBlockHash (meta cached) =
                        lastChangedBlockHash snapshot)) as [Heq | Hne].
      - left. by exists cached.
      - right. by intros ? [= <-]. }
    - destruct Hhit as (cached & Hc & Hh).
      destruct (getKeys_cached snapshot st cached Hc Hh) as (-> & _ & ->).
      by intros [= <-].
    - rewrite (getKeys_stale snapshot st Hmiss).
      destruct (updateCachedKeys_run snapshot st) as [_ Hrun].
      destruct (fetchJson _ _) as [fetched | err].
      + case_bool_decide as Hh.
        * destruct Hrun as [-> ->]. by intros [= <-].
        * by destruct Hrun as (-> & _).
      + by destruct Hrun as (-> & _). }
  split.
  - intros Hsame. apply getKeys_cached; [done | congruence].
  - intros Hother. rewrite getKeys_stale.
    + by destruct (updateCachedKeys_run snapshot' st1) as [-> _].
    + intros cached. rewrite Hcached. intros [= <-]. congruence.
Qed.
End KeysApiFacts.

Section KeysApiExamples.
Import KeysApi Fixtures.

Lemma getKeys_again_witness :
  let getKeys := getKeys "" "localhost" "3000" (keysAt "0xl") in
  let st1 := snd (getKeys (snapshotWith "0xl") freshClient) in
  fst (getKeys (snapshotWith "0xl") st1) = Ok {| data := []; meta := snapshotWith "0xl" |}
  ∧ requests (snd (getKeys (snapshotWith "0xl") st1)) = ["localhost:3000/v1/keys"].
Proof.
  destruct (getKeys_again "" "localhost" "3000" (keysAt "0xl")
              (snapshotWith "0xl") (snapshotWith "0xl") freshClient
              {| data := []; meta := snapshotWith "0xl" |} eq_refl)
    as [Hsame _].
  destruct (Hsame eq_refl) as (Hr & Hq & _).
  split; [exact Hr | exact Hq].
Defined.
End KeysApiExamples.

(** ** The keys of the staking modules *)

Section StakingRouterFacts.
Import StakingRouter Fixtures.

Variable RegistryOperator : Type.
Variable getVettedUnusedKeys :
  list RegistryOperator → list RegistryKey → list RegistryKey.

Local Abbreviation getStakingModulesData :=
  (getStakingModulesData RegistryOperator getVettedUnusedKeys).

Lemma filter_class_split {A} (P : A → Prop) `{∀ x, Decision (P x)}
    (f : A → string) (c : string) (cs : list string) (l : list A) :
  c ∉ cs →
  filter (λ x, P x ∧ f x ∈ c :: cs) l ≡ₚ
  filter (λ x, P x ∧ f x = c) l ++ filter (λ x, P x ∧ f x ∈ cs) l.
Proof.
  intros Hfresh. induction l as [| x l IH]; [done |].
  rewrite !filter_cons.
  destruct (decide (P x ∧ f x = c)) as [[HP Hc] | Hnc].
  - rewrite decide_True by (split; [done | rewrite Hc; left]).
    rewrite decide_False by (intros [_ Hin]; rewrite Hc in Hin; done).
    simpl. by rewrite IH.
  - destruct (decide (P x ∧ f x ∈ cs)) as [[HP Hcs] | Hncs].
    + rewrite decide_True by (split; [done | by right]).
      rewrite IH. apply Permutation_middle.
    + rewrite decide_False; [done |].
      intros [HP [Hc | Hcs]%elem_of_cons]; tauto.
Qed.

Lemma filter_classes {A} (P : A → Prop) `{∀ x, Decision (P x)}
    (f : A → string) (cs : list string) (l : list A) :
  NoDup cs →
  concat ((λ c, filter (λ x, P x ∧ f x = c) l) <$> cs) ≡ₚ
  filter (λ x, P x ∧ f x ∈ cs) l.
Proof.
  induction 1 as [| c cs Hfresh Hnodup IH].
  - simpl. rewrite filter_none; [done |]. intros x _ [_ Hin]. inversion Hin.
  - rewrite fmap_cons. cbn [concat]. rewrite IH.
    symmetry. by apply filter_class_split.
Qed.

Lemma concat_fmap_fmap {A B} (f : A → B) (ls : list (list A)) :
  concat ((λ l : list A, f <$> l) <$> ls) = f <$> concat ls.
Proof.
  induction ls as [| l ls IH]; [done |].
  rewrite !fmap_cons. cbn [concat]. by rewrite fmap_app, IH.
Qed.

(** X20: [getStakingModulesData] makes one entry per listed module, in
    order, each with the block hash and the [lastChangedBlockHash] of the
    operators response.  When the listed modules have distinct addresses, the
    unused keys of the entries together are the unused keys of the listed
    modules, each exactly once: a used key or a key of a module that is not
    listed is in no entry.  The duplicated keys are distributed in the same
    way. *)
Theorem getStakingModulesData_partition operatorsByModules operatorsMeta
    lidoKeys duplicatedKeys
    (Hdistinct : NoDup (addressesOf operatorsByModules)) :
  let entries :=
    getStakingModulesData operatorsByModules operatorsMeta lidoKeys duplicatedKeys in
  (λ entry, stakingModuleId entry.1) <$> entries =
    (λ entry, srId (srModule entry)) <$> operatorsByModules
  ∧ Forall (λ entry, smBlockHash entry.1 = elBlockHash operatorsMeta ∧
                     smLastChangedBlockHash entry.1 =
                     lastChangedBlockHash operatorsMeta) entries
  ∧ concat ((λ entry, unusedKeys entry.1) <$> entries) ≡ₚ
    key <$> filter (λ k, used k = false ∧
                         moduleAddress k ∈ addressesOf operatorsByModules) lidoKeys
  ∧ concat (snd <$> entries) ≡ₚ
    filter (λ k, moduleAddress k ∈ addressesOf operatorsByModules) duplicatedKeys.
Proof.
  intros entries. unfold entries, StakingRouter.getStakingModulesData.
  split_and!.
  - rewrite <- list_fmap_compose. done.
  - apply Forall_fmap, Forall_forall. by intros entry _.
  - rewrite <- list_fmap_compose.
    rewrite <- (filter_classes (λ k, used k = false) moduleAddress
                  (addressesOf operatorsByModules) lidoKeys Hdistinct).
    rewrite <- concat_fmap_fmap. unfold addressesOf.
    rewrite <- !list_fmap_compose. done.
  - rewrite <- list_fmap_compose.
    rewrite (filter_iff_on
               (λ k, moduleAddress k ∈ addressesOf operatorsByModules)
               (λ k, True ∧ moduleAddress k ∈ addressesOf operatorsByModules))
      by (intros; tauto).
    rewrite <- (filter_classes (λ _, True) moduleAddress
                  (addressesOf operatorsByModules) duplicatedKeys Hdistinct).
    unfold addressesOf. rewrite <- list_fmap_compose.
    assert (∀ l1 l2 : list RegistryKey, l1 = l2 → l1 ≡ₚ l2) as Heq
      by (by intros ? ? ->).
    apply Heq. f_equal. apply list_fmap_ext. intros _ entry _. simpl.
    apply filter_iff_on. intros; tauto.
Qed.
End StakingRouterFacts.

Section StakingRouterExamples.
Import StakingRouter Fixtures.

Lemma getStakingModulesData_partition_witness :
  concat ((λ entry, unusedKeys entry.1) <$>
            getStakingModulesData unit (λ _ keys, keys) twoModules someSnapshot
              moduleKeys [])
  ≡ₚ ["0xk1"; "0xk2"].
Proof.
  destruct (getStakingModulesData_partition unit (λ _ keys, keys) twoModules
              someSnapshot moduleKeys [])
    as (_ & _ & Hkeys & _).
  - apply (bool_decide_unpack _). vm_compute. exact I.
  - rewrite Hkeys. vm_compute. done.
Defined.
End StakingRouterExamples.

(** ** The tick and the start of the guardian *)

Section TickFacts.
Import Guardian Fixtures.

Variable OperatorsByModules : Type.
Variable getOperatorListWithModule : result (OperatorsByModules * ELBlockSnapshot).
Variable initCachedContracts : string → result unit.
Variable isNeedToProcessNewState : string → Z → bool.
Variable getKeys : result KeyListResponse.
Variable processNewState :
  OperatorsByModules → ELBlockSnapshot → list RegistryKey → M GuardState unit.

Local Abbreviation tick :=
  (handleNewBlock OperatorsByModules getOperatorListWithModule
     initCachedContracts isNeedToProcessNewState getKeys processNewState).

Local Abbreviation cycleStart :=
  (Logged LevelLog (Text "New staking router state cycle start")).
Local Abbreviation cycleEnd :=
  (Logged LevelLog (Text "New staking router state cycle end")).
Local Abbreviation failed error :=
  [Logged LevelError (Text "Staking router state update error");
   Logged LevelError (Thrown error)].



(** X22: a tick that ends before the consistency check only writes to the
    log.  When the operators request, the initialisation of the contracts or
    the keys request fails, the error is logged between the start and the
    end of the cycle; when the block guard reports no new block, the tick
    logs that and ends.  The later steps of the tick are not run in any of
    these cases. *)
Theorem handleNewBlock_early_exits st :
  (∀ error, getOperatorListWithModule = Throw error →
            tick st = (Ok tt, withTrace st ([cycleStart] ++ failed error ++ [cycleEnd])))
  ∧ (∀ operators operatorsMeta,
       getOperatorListWithModule = Ok (operators, operatorsMeta) →
       (∀ error, initCachedContracts (elBlockHash operatorsMeta) = Throw error →
                 tick st =
                 (Ok tt, withTrace st ([cycleStart] ++ failed error ++ [cycleEnd])))
       ∧ (initCachedContracts (elBlockHash operatorsMeta) = Ok tt →
          (isNeedToProcessNewState (elBlockHash operatorsMeta)
             (elBlockNumber operatorsMeta) = false →
           tick st =
           (Ok tt,
            withTrace st
              [cycleStart;
               Logged LevelDebug
                 (Text "The block has not changed since the last cycle. Exit");
               cycleEnd]))
          ∧ (isNeedToProcessNewState (elBlockHash operatorsMeta)
               (elBlockNumber operatorsMeta) = true →
             ∀ error, getKeys = Throw error →
               tick st =
               (Ok tt,
                withTrace st
                  ([cycleStart; Logged LevelLog (Text "Staking modules loaded")]
                   ++ failed error ++ [cycleEnd]))))).
Proof.
  unfold handleNewBlock, tryFinally, tryCatch, onError, logger, emit, bind,
    modify, lift, ret, withTrace.
  split.
  - intros error ->. simpl. by rewrite <- !app_assoc.
  - intros operators operatorsMeta ->. cbn beta iota. split.
    + intros error ->. simpl. by rewrite <- !app_assoc.
    + intros ->. cbn beta iota. split.
      * intros ->. simpl. by rewrite <- !app_assoc.
      * intros -> error ->. simpl. by rewrite <- !app_assoc.
Qed.
End TickFacts.

Section GuardianInitFacts.
Import GuardianInit.

Variable MIN_KAPI_VERSION : string.
Variable compareGe : string → string → bool.
Variable initOrWaitCachedContracts : result (Z * string).
Variable depositInitialize : Z → result unit.
Variable securityInitialize : string → result unit.
Variable getChainId : result Z.
Variable getKeysApiStatus : result Status.
Variable updateEventsCache : result unit.
Variable addCronJob : result unit.

Local Abbreviation start :=
  (onModuleInit MIN_KAPI_VERSION compareGe initOrWaitCachedContracts
     depositInitialize securityInitialize getChainId getKeysApiStatus
     updateEventsCache addCronJob).
Local Abbreviation ready :=
  (readyToSubscribe MIN_KAPI_VERSION compareGe initOrWaitCachedContracts
     depositInitialize securityInitialize getChainId getKeysApiStatus
     updateEventsCache).

(** Membership in an explicit list of effects, decided constructor by
    constructor. *)
Ltac in_effects H :=
  repeat first
    [ apply elem_of_nil in H; destruct H
    | apply elem_of_cons in H as [H | H]; [try discriminate H |] ].

(** The three ways the start ends. *)
Lemma onModuleInit_cases :
  let effects := snd (start []) in
  let subscribed :=
    [InitLogged LevelLog (Text "GuardianService subscribed to Ethereum events");
     CronStarted] in
  fst (start []) = Ok tt
  ∧ ((ready ∧ addCronJob = Ok tt ∧ effects = subscribed ++ [CronJobAdded])
     ∨ (ready ∧ ∃ error,
          addCronJob = Throw error
          ∧ effects = subscribed ++
                      [InitLogged LevelError (Thrown error); ProcessExit 1])
     ∨ (¬ ready ∧ ∃ warned error,
          effects = warned ++
                    [InitLogged LevelError (Thrown error); ProcessExit 1]
          ∧ (warned = [] ∨ ∃ what, warned = [InitLogged LevelWarn what]))).
Proof.
  unfold readyToSubscribe, onModuleInit, subscribeToModulesUpdates,
    initializeBoth, tryCatch, note, bind, modify, lift, throw, ret.
  destruct initOrWaitCachedContracts as [[blockNumber blockHash] | e0];
    cbn beta iota.
  2: { simpl. split; [done |]. right. right. split.
       - by intros (? & ? & ? & ? & _).
       - exists [], e0. split; [done | by left]. }
  destruct (depositInitialize blockNumber) as [[] | e1] eqn:Hdeposit;
    cbn beta iota.
  2: { simpl. split; [done |]. right. right. split.
       - intros (? & ? & ? & ? & ? & _). simplify_eq; congruence.
       - exists [], e1. split; [done | by left]. }
  destruct (securityInitialize blockHash) as [[] | e2] eqn:Hsecurity;
    cbn beta iota.
  2: { simpl. split; [done |]. right. right. split.
       - intros (? & ? & ? & ? & ? & ? & _). simplify_eq; congruence.
       - exists [], e2. split; [done | by left]. }
  destruct getChainId as [chainId | e3]; cbn beta iota.
  2: { simpl. split; [done |]. right. right. split.
       - by intros (? & ? & ? & _ & _ & _ & ? & _).
       - exists [], e3. split; [done | by left]. }
  destruct getKeysApiStatus as [status | e4]; cbn beta iota.
  2: { simpl. split; [done |]. right. right. split.
       - by intros (? & ? & ? & _ & _ & _ & _ & ? & _).
       - exists [], e4. split; [done | by left]. }
  case_bool_decide as Hchain; cbn beta iota.
  2: { simpl. split; [done |]. right. right. split.
       - intros (? & ? & ? & _ & _ & _ & ? & ? & _). simplify_eq; congruence.
       - eexists [_], _. split; [done | right; by eexists]. }
  destruct (compareGe (appVersion status) MIN_KAPI_VERSION) eqn:Hversion;
    cbn beta iota.
  2: { simpl. split; [done |]. right. right. split.
       - intros (? & ? & ? & _ & _ & _ & _ & ? & ? & _). simplify_eq; congruence.
       - eexists [_], _. split; [done | right; by eexists]. }
  destruct updateEventsCache as [[] | e5]; cbn beta iota.
  2: { simpl. split; [done |]. right. right. split.
       - by intros (? & ? & ? & _ & _ & _ & _ & _ & _ & ?).
       - exists [], e5. split; [done | by left]. }
  assert (∃ blockNumber0 blockHash0 keysApiStatus,
            Ok (blockNumber, blockHash) = Ok (blockNumber0, blockHash0)
            ∧ depositInitialize blockNumber0 = Ok ()
            ∧ securityInitialize blockHash0 = Ok ()
            ∧ Ok chainId = Ok (statusChainId keysApiStatus)
            ∧ Ok status = Ok keysApiStatus
            ∧ compareGe (appVersion keysApiStatus) MIN_KAPI_VERSION = true
            ∧ Ok () = Ok ()) as Hready.
  { exists blockNumber, blockHash, status. subst chainId. by split_and!. }
  destruct addCronJob as [[] | e6]; simpl.
  - split; [done |]. left. by split_and!.
  - split; [done |]. right. left. split; [done |]. by exists e6.
Qed.

(** X23: the start of the guardian never throws.  The cron job of the tick
    is started exactly when the contracts and both services are initialised,
    the chain id of the node equals the chain id of the keys-index, the
    version of the keys-index is at least [MIN_KAPI_VERSION] and the deposit
    events cache is updated; otherwise the error is logged and the process
    exits without a cron job.  The process exits exactly when one of these
    steps or the registration of the cron job fails, always with code 1, and
    the exit is the last thing the start does, right after the error is
    logged. *)
Theorem onModuleInit_outcome :
  let run :=
    onModuleInit MIN_KAPI_VERSION compareGe initOrWaitCachedContracts
      depositInitialize securityInitialize getChainId getKeysApiStatus
      updateEventsCache addCronJob [] in
  let effects := snd run in
  let ready :=
    readyToSubscribe MIN_KAPI_VERSION compareGe initOrWaitCachedContracts
      depositInitialize securityInitialize getChainId getKeysApiStatus
      updateEventsCache in
  fst run = Ok tt
  ∧ (CronStarted ∈ effects ↔ ready)
  ∧ ((∃ code, ProcessExit code ∈ effects) ↔ ¬ (ready ∧ addCronJob = Ok tt))
  ∧ (∀ code, ProcessExit code ∈ effects →
             code = 1 ∧
             ∃ before error,
               effects = before ++
                         [InitLogged LevelError (Thrown error); ProcessExit 1]).
Proof.
  intros run effects isReady. unfold run in effects. unfold isReady. clear isReady.
  destruct onModuleInit_cases as [Hok Hcases]. fold effects in Hcases.
  split; [done |].
  destruct Hcases
    as [(Hready & Hcron & ->)
       | [(Hready & error & Hcron & ->)
         | (Hnot & warned & error & -> & Hwarned)]].
  - split_and!.
    + split; [done |]. intros _. right. left.
    + split; [| intros Hboth; by destruct Hboth].
      intros [code Hin]. simpl in Hin. in_effects Hin.
    + intros code Hin. simpl in Hin. in_effects Hin.
  - split_and!.
    + split; [done |]. intros _. right. left.
    + split; [intros _ [_ Hadd]; congruence |].
      intros _. exists 1. do 3 right. left.
    + intros code Hin. split; [| by eexists [_; _], _].
      simpl in Hin. in_effects Hin. by injection Hin as ->.
  - assert (∀ x, x ∈ warned → ∃ what, x = InitLogged LevelWarn what) as Hwarn.
    { intros x Hx. destruct Hwarned as [-> | [what ->]]; [inversion Hx |].
      apply list_elem_of_singleton in Hx. by exists what. }
    split_and!.
    + split; [| done]. intros [Hin | Hin]%elem_of_app.
      * by destruct (Hwarn _ Hin).
      * in_effects Hin.
    + split; [intros _ [Hready _]; done |].
      intros _. exists 1. apply elem_of_app. right. right. left.
    + intros code [Hin | Hin]%elem_of_app.
      * by destruct (Hwarn _ Hin).
      * split; [| by exists warned, error].
        in_effects Hin. by injection Hin as ->.
Qed.
End GuardianInitFacts.
